(** * The CommonApi of restmod: hook dispatch and the request queue

    A shallow embedding of [src/module/common-api.js].  The synchronous
    part ([$dispatch], [$on], [$decorate], [$dispatcher]) is an interpreter
    over a store of objects; the asynchronous part ([$send], [$cancel],
    [$then], [$finally]) is a transition system over that store, a store
    of promises, a queue of promise jobs and the transport calls in
    flight. *)

From stdpp Require Import gmap strings list fin_maps.

(** ** Values, callbacks and dispatchers *)

(** JavaScript values that flow through hook arguments, promise results
    and thrown exceptions.  A request configuration ([_options]) is an
    object known by its identity; a transport payload is opaque.  None of
    these values is callable. *)
Inductive value :=
  | VUndef
  | VNull
  | VObj (o : nat)
  | VReq (r : nat)
  | VData (n : nat)
  | VTypeError.

(** The functions handed to the API by its callers (hook callbacks,
    success and error callbacks, decorated bodies, [$then] callbacks)
    are programs over the API itself: they read the object they are
    applied to, dispatch further hooks on it, open a decorated context
    on it, or throw.  They do not call [$on], [$send], [$cancel], [$then]
    or [$finally] and assign no property: what is proved for every
    callback is proved for the callbacks of this class.  A callback
    carries a name under which its invocations are recorded.

    [hooks] is the first argument of [$decorate]: a falsy value, a
    dispatcher function, or a mapping from hook names to callbacks.
    [override] is what [$$dsp] can hold: a function given by a caller, or
    the closure that [$decorate] builds around a mapping and the override
    that was active. *)
#[local] Unset Elimination Schemes.
Inductive action :=
  | AObserve
  | ADispatch (h : string) (args : list value)
  | ADecorate (hk : hooks) (body : list action)
  | AThrow (e : value)
with hooks :=
  | HFalsy
  | HFun (d : override)
  | HMap (m : gmap string callback)
with callback :=
  | Callback (name : nat) (body : list action)
with override :=
  | DUser (f : callback)
  | DMap (old : option override) (m : gmap string callback).
#[local] Set Elimination Schemes.

Definition cb_name (c : callback) : nat := let 'Callback n _ := c in n.
Definition cb_body (c : callback) : list action := let 'Callback _ b := c in b.

(** ** Objects *)

(** A property that may hold [undefined], [null] or a value. *)
Inductive js (A : Type) :=
  | Undefined
  | Null
  | Val (a : A).
Arguments Undefined {A}.
Arguments Null {A}.
Arguments Val {A} a.

Definition truthy {A} (x : js A) : bool :=
  match x with Val _ => true | _ => false end.

Inductive status := StOk | StError | StCanceled.

(** The [$scope] and [$type] back-references: falsy, an object that does
    not carry [$dispatch], or an object of this API. *)
Inductive parent :=
  | PNone
  | PPlain
  | PApi (o : nat).

Record obj := Obj {
  o_dsp : option override;                     (* $$dsp *)
  o_cb : option (gmap string (list callback));   (* $$cb *)
  o_scope : parent;                              (* $scope *)
  o_type : parent;                               (* $type *)
  o_pending : js (list nat);                     (* $pending *)
  o_promise : js nat;                            (* $promise *)
  o_status : option status;                      (* $status *)
  o_response : value;                            (* $response *)
  o_error : option bool                          (* $error *)
}.

Definition fresh_obj : obj :=
  Obj None None PNone PNone Undefined Undefined None VUndef None.

(** What is recorded of a run: every callback invocation with its [this]
    and its arguments, every read a callback makes of its object, and
    every call of the transport. *)
Inductive event :=
  | ECall (name : nat) (this : option nat) (args : list value)
  | EObs (o : nat) (st : option status) (resp : value) (err : option bool)
  | EHttp (r : nat).

Record world := World {
  objs : gmap nat obj;
  log : list event
}.

Definition get (w : world) (o : nat) : obj := default fresh_obj (objs w !! o).

Definition upd (o : nat) (f : obj → obj) (w : world) : world :=
  World (<[o := f (get w o)]> (objs w)) (log w).

Definition emit (e : event) (w : world) : world :=
  World (objs w) (log w ++ [e]).

Definition with_dsp (d : option override) (x : obj) : obj :=
  Obj d (o_cb x) (o_scope x) (o_type x) (o_pending x) (o_promise x)
      (o_status x) (o_response x) (o_error x).
Definition with_cb (m : option (gmap string (list callback))) (x : obj) : obj :=
  Obj (o_dsp x) m (o_scope x) (o_type x) (o_pending x) (o_promise x)
      (o_status x) (o_response x) (o_error x).
Definition with_pending (p : js (list nat)) (x : obj) : obj :=
  Obj (o_dsp x) (o_cb x) (o_scope x) (o_type x) p (o_promise x)
      (o_status x) (o_response x) (o_error x).
Definition with_promise (p : js nat) (x : obj) : obj :=
  Obj (o_dsp x) (o_cb x) (o_scope x) (o_type x) (o_pending x) p
      (o_status x) (o_response x) (o_error x).
Definition with_status (st : option status) (x : obj) : obj :=
  Obj (o_dsp x) (o_cb x) (o_scope x) (o_type x) (o_pending x) (o_promise x)
      st (o_response x) (o_error x).
Definition with_response (v : value) (x : obj) : obj :=
  Obj (o_dsp x) (o_cb x) (o_scope x) (o_type x) (o_pending x) (o_promise x)
      (o_status x) v (o_error x).
Definition with_error (e : option bool) (x : obj) : obj :=
  Obj (o_dsp x) (o_cb x) (o_scope x) (o_type x) (o_pending x) (o_promise x)
      (o_status x) (o_response x) e.

(** ** Synchronous code: state, exceptions and fuel *)

Inductive res :=
  | Normal
  | Throw (e : value)
  | OutOfFuel.

Definition M : Type := world → res * world.

Definition ret : M := λ w, (Normal, w).

Definition seq (m k : M) : M := λ w,
  match m w with
  | (Normal, w') => k w'
  | r => r
  end.

Notation "m ;;; k" := (seq m k) (at level 100, k at level 200, right associativity).

(** [$decorate(_hooks, _fun)]: a function or a falsy [_hooks] becomes
    [$$dsp] as it is; a mapping is wrapped in a closure over the old
    dispatcher.  The [finally] puts the old dispatcher back whatever
    [_fun] did. *)
Definition new_dispatcher (hk : hooks) (old : option override) : option override :=
  match hk with
  | HFalsy => None
  | HFun d => Some d
  | HMap m => Some (DMap old m)
  end.

Definition decorate (o : nat) (hk : hooks) (body : M) : M := λ w,
  let oldDispatcher := o_dsp (get w o) in
  let '(r, w') := body (upd o (with_dsp (new_dispatcher hk oldDispatcher)) w) in
  (r, upd o (with_dsp oldDispatcher) w').

(** [$dispatcher()] *)
Definition dispatcher (w : world) (o : nat) : option override := o_dsp (get w o).

(** [$$cb] and the mapping given to [$decorate] are plain objects, read
    with [obj[name]]: a name that is not an own property is looked up in
    [Object.prototype], whose properties are those of the language
    standard.  What is found there is the accessor [__proto__],
    whose value is [Object.prototype] itself, an object that cannot be
    called; the functions [__defineGetter__] and [__defineSetter__], which
    throw a TypeError unless their second argument is callable; or a
    function that returns without any effect on the store. *)
Inductive member :=
  | MObject
  | MDefine
  | MPure.

Definition Object_prototype : gmap string member :=
  list_to_map
    [("__proto__", MObject);
     ("__defineGetter__", MDefine); ("__defineSetter__", MDefine);
     ("constructor", MPure); ("hasOwnProperty", MPure); ("isPrototypeOf", MPure);
     ("propertyIsEnumerable", MPure); ("toString", MPure); ("toLocaleString", MPure);
     ("valueOf", MPure); ("__lookupGetter__", MPure); ("__lookupSetter__", MPure)].

Definition inherited (h : string) : option member := Object_prototype !! h.

(** [$on(_hook, _fun)].  [$$cb] is created when it is absent.  The list
    for the hook is [$$cb[_hook]] when that is truthy, an own list or
    what the name inherits; only otherwise is a new list stored.  What a
    name inherits has no [push], and the call of [hooks.push] throws a
    TypeError. *)
Definition on (o : nat) (h : string) (f : callback) : M := λ w,
  let cb := default ∅ (o_cb (get w o)) in
  match cb !! h, inherited h with
  | Some hooks, _ => (Normal, upd o (with_cb (Some (<[h := hooks ++ [f]]> cb))) w)
  | None, Some _ => (Throw VTypeError, upd o (with_cb (Some cb)) w)
  | None, None => (Normal, upd o (with_cb (Some (<[h := [f]]> cb))) w)
  end.

(** The interpreter.  Every call spends one unit of fuel, so that the
    recursion through callbacks that dispatch again and through the
    scope and type references is structural.

    [dispatch] is [$dispatch(_hook, _args, _ctx)]; [invoke] is the call
    [dsp(_hook, _args, _ctx)] of an override; [call_all] is the loop over
    the callbacks registered for the hook (every entry is a function, so
    the loop, which stops at the first falsy entry, goes through all of
    them); [call] is [cb.apply(this, args)]; [exec] runs the body of a
    function.

    In [dispatch], [$$cb[_hook]] for a name that is not an own property
    of [$$cb] is undefined or what the name inherits, a function or an
    object without an element at index 0: the loop calls nothing.  In the
    closure that [$decorate] builds, [_hooks[_hook]] for such a name is
    applied when it is truthy: the object under [__proto__] cannot be
    applied, [__defineGetter__] and [__defineSetter__] throw since no
    argument is callable, and the other inherited functions return. *)
Fixpoint dispatch (n : nat) (o : nat) (h : string) (args : list value)
    (ctx : option nat) (w : world) {struct n} : res * world :=
  match n with
  | 0 => (OutOfFuel, w)
  | S k =>
    let d := o_dsp (get w o) in
    let c := default o ctx in
    ((* context callbacks *)
     match d with
     | Some f => λ w, invoke k f h args c (upd o (with_dsp None) w)
     | None => ret
     end ;;;
     (* instance callbacks *)
     (λ w, match o_cb (get w o) ≫= (.!! h) with
           | Some cbs => call_all k cbs c args w
           | None => (Normal, w)
           end) ;;;
     (* bubble up the object scope, to the type only without a viable scope *)
     (λ w, match o_scope (get w o) with
           | PApi sc => dispatch k sc h args (Some c) w
           | _ =>
             match o_type (get w o) with
             | PApi t => dispatch k t h args (Some c) w
             | PPlain => (Throw VTypeError, w)
             | PNone => (Normal, w)
             end
           end) ;;;
     (* reenable dsp *)
     (λ w, (Normal, upd o (with_dsp d) w))) w
  end

with invoke (n : nat) (d : override) (h : string) (args : list value)
    (ctx : nat) (w : world) {struct n} : res * world :=
  match n with
  | 0 => (OutOfFuel, w)
  | S k =>
    match d with
    | DUser f => call k f None args w
    | DMap old m =>
      (match old with
       | Some od => invoke k od h args ctx
       | None => ret
       end ;;;
       match m !! h with
       | Some extraCb => call k extraCb (Some ctx) args
       | None =>
         match inherited h with
         | Some MObject | Some MDefine => λ w, (Throw VTypeError, w)
         | Some MPure | None => ret
         end
       end) w
    end
  end

with call_all (n : nat) (cbs : list callback) (ctx : nat) (args : list value)
    (w : world) {struct n} : res * world :=
  match n with
  | 0 => (OutOfFuel, w)
  | S k =>
    match cbs with
    | [] => (Normal, w)
    | c :: rest => (call k c (Some ctx) args ;;; call_all k rest ctx args) w
    end
  end

with call (n : nat) (c : callback) (this : option nat) (args : list value)
    (w : world) {struct n} : res * world :=
  match n with
  | 0 => (OutOfFuel, w)
  | S k => exec k (cb_body c) this (emit (ECall (cb_name c) this args) w)
  end

with exec (n : nat) (body : list action) (this : option nat)
    (w : world) {struct n} : res * world :=
  match n with
  | 0 => (OutOfFuel, w)
  | S k =>
    match body with
    | [] => (Normal, w)
    | a :: rest =>
      ((λ w, match a, this with
             | AThrow e, _ => (Throw e, w)
             | _, None => (Throw VTypeError, w)
             | AObserve, Some o =>
               let x := get w o in
               (Normal, emit (EObs o (o_status x) (o_response x) (o_error x)) w)
             | ADispatch h args, Some o => dispatch k o h args None w
             | ADecorate hk b, Some o => decorate o hk (exec k b (Some o)) w
             end) ;;;
       exec k rest this) w
    end
  end.

(** ** Promises, the job queue and the transport *)

(** What [performRequest] closes over: the object ([self]), the request
    configuration, the override captured by [$send], and the two
    optional synchronous callbacks. *)
Record closure := Closure {
  c_self : nat;
  c_req : nat;
  c_dsp : option override;
  c_succ : option callback;
  c_err : option callback
}.

(** The functions this API attaches to promises. *)
Inductive handler :=
  | HNone                      (* no handler: the outcome passes through *)
  | HPerform (c : closure)     (* performRequest *)
  | HHttpOk (c : closure)      (* the first function given to $http(..).then *)
  | HHttpErr (c : closure)     (* the second one *)
  | HUser (f : callback)       (* a caller's $then callback *)
  | HFinally (f : callback).   (* a caller's $finally callback *)

Record reaction := Reaction {
  on_ok : handler;
  on_err : handler;
  target : nat
}.

Inductive outcome :=
  | Fulfilled (v : value)
  | Rejected (v : value).

Inductive pstate :=
  | Pending (rs : list reaction)
  | Settled (out : outcome).

Record state := State {
  st_world : world;
  canceled : gset nat;                 (* configurations whose canceled flag is set *)
  proms : list pstate;                 (* the promises, by identity *)
  jobs : list (reaction * outcome);    (* the promise jobs still to run *)
  inflight : list (nat * nat)          (* transport promises not yet settled, each with its configuration *)
}.

Definition with_world (w : world) (s : state) : state :=
  State w (canceled s) (proms s) (jobs s) (inflight s).

Definition on_self (o : nat) (f : obj → obj) (s : state) : state :=
  with_world (upd o f (st_world s)) s.

(** A new promise. *)
Definition alloc (p : pstate) (s : state) : nat * state :=
  (length (proms s),
   State (st_world s) (canceled s) (proms s ++ [p]) (jobs s) (inflight s)).

(** Attaching a reaction: kept by a pending promise, queued at once for
    a settled one. *)
Definition subscribe (p : nat) (r : reaction) (s : state) : state :=
  match proms s !! p with
  | Some (Pending rs) =>
    State (st_world s) (canceled s) (<[p := Pending (rs ++ [r])]> (proms s))
          (jobs s) (inflight s)
  | Some (Settled out) =>
    State (st_world s) (canceled s) (proms s) (jobs s ++ [(r, out)]) (inflight s)
  | None => s
  end.

(** Settling a pending promise queues its reactions in order. *)
Definition settle (p : nat) (out : outcome) (s : state) : state :=
  match proms s !! p with
  | Some (Pending rs) =>
    State (st_world s) (canceled s) (<[p := Settled out]> (proms s))
          (jobs s ++ map (λ r, (r, out)) rs) (inflight s)
  | _ => s
  end.

(** [p.then(f, g)] *)
Definition then_ (p : nat) (f g : handler) (s : state) : nat * state :=
  let '(d, s1) := alloc (Pending []) s in
  (d, subscribe p (Reaction f g d) s1).

(** [$http(_options)]: the transport is called and answers with a promise
    that the environment settles later. *)
Definition http (r : nat) (s : state) : nat * state :=
  let '(t, s1) := alloc (Pending []) s in
  (t, State (emit (EHttp r) (st_world s1)) (canceled s1) (proms s1) (jobs s1)
            (inflight s1 ++ [(t, r)])).

(** What a handler gives back to the promise machinery. *)
Inductive hret :=
  | RValue (v : value)
  | RPromise (p : nat)
  | RThrow (e : value)
  | RFuel.

Definition lift (m : M) (s : state) : res * state :=
  let '(r, w) := m (st_world s) in (r, with_world w s).

Definition as_hooks (d : option override) : hooks :=
  match d with
  | Some f => HFun f
  | None => HFalsy
  end.

(** [Array.prototype.indexOf], -1 when absent. *)
Fixpoint indexOf (l : list nat) (x : nat) : Z :=
  match l with
  | [] => -1
  | y :: l' =>
    if decide (y = x) then 0
    else let i := indexOf l' x in if decide (i = -1)%Z then (-1)%Z else (i + 1)%Z
  end.

(** [l.splice(start, 1)]: a negative start counts from the end. *)
Definition splice1 (l : list nat) (start : Z) : list nat :=
  let len := Z.of_nat (length l) in
  let i := if decide (start < 0)%Z then Z.max (len + start) 0 else Z.min start len in
  take (Z.to_nat i) l ++ drop (S (Z.to_nat i)) l.

(** The first statements of the two decorated bodies that follow a
    transport answer: the configuration leaves [$pending], which is reset
    when it becomes empty. *)
Definition unpend (o r : nat) (reset : js (list nat)) : M := λ w,
  match o_pending (get w o) with
  | Val l =>
    let l' := splice1 l (indexOf l r) in
    (Normal, upd o (with_pending (if decide (length l' = 0) then reset else Val l')) w)
  | _ => (Throw VTypeError, w)
  end.

Definition opt_call (n : nat) (c : option callback) (this : nat) (args : list value) : M :=
  match c with
  | Some f => call n f (Some this) args
  | None => ret
  end.

(** The function given to [$http(_options).then] for a resolved transport. *)
Definition httpOk (n : nat) (c : closure) (v : value) (s : state) : hret * state :=
  let self := c_self c in
  if decide (c_req c ∈ canceled s) then
    (RValue (VObj self), on_self self (with_status (Some StCanceled)) s)
  else
    match lift (decorate self (as_hooks (c_dsp c))
                  (unpend self (c_req c) Undefined ;;;
                   (λ w, (Normal, upd self (with_response v)
                                    (upd self (with_status (Some StOk)) w))) ;;;
                   dispatch n self "after-request" [v] None ;;;
                   opt_call n (c_succ c) self [v])) s with
    | (Normal, s') => (RValue (VObj self), s')
    | (Throw e, s') => (RThrow e, s')
    | (OutOfFuel, s') => (RFuel, s')
    end.

(** The function given to [$http(_options).then] for a rejected transport. *)
Definition httpErr (n : nat) (c : closure) (v : value) (s : state) : hret * state :=
  let self := c_self c in
  if decide (c_req c ∈ canceled s) then
    (RValue (VObj self), on_self self (with_status (Some StCanceled)) s)
  else
    match lift (decorate self (as_hooks (c_dsp c))
                  (unpend self (c_req c) Null ;;;
                   (λ w, (Normal, upd self (with_response v)
                                    (upd self (with_status (Some StError)) w))) ;;;
                   dispatch n self "after-request-error" [v] None ;;;
                   opt_call n (c_err c) self [v])) s with
    | (Normal, s') =>
      (* $q.reject(self) *)
      let '(p, s'') := alloc (Settled (Rejected (VObj self))) s' in
      (RPromise p, s'')
    | (Throw e, s') => (RThrow e, s')
    | (OutOfFuel, s') => (RFuel, s')
    end.

(** [performRequest], the function [$send] defines and chains. *)
Definition performRequest (n : nat) (c : closure) (s : state) : hret * state :=
  let self := c_self c in
  if decide (c_req c ∈ canceled s) then
    (* $q.when(self) *)
    let '(p, s') := alloc (Settled (Fulfilled (VObj self)))
                          (on_self self (with_status (Some StCanceled)) s) in
    (RPromise p, s')
  else
    match lift (decorate self (as_hooks (c_dsp c))
                  ((λ w, (Normal, upd self (with_error (Some false))
                                    (upd self (with_response VNull) w))) ;;;
                   dispatch n self "before-request" [VReq (c_req c)] None)) s with
    | (Normal, s1) =>
      let '(t, s2) := http (c_req c) s1 in
      let '(d, s3) := then_ t (HHttpOk c) (HHttpErr c) s2 in
      (RPromise d, s3)
    | (Throw e, s1) => (RThrow e, s1)
    | (OutOfFuel, s1) => (RFuel, s1)
    end.

(** ** The request API *)

(** [$send(_options, _success, _error)].  [performRequest] gives back a
    promise or throws; in the latter case [$send] throws after the push
    to [$pending] and before [$promise] is assigned. *)
Definition send (n : nat) (o r : nat) (succ err : option callback) (s : state)
    : res * state :=
  let c := Closure o r (dispatcher (st_world s) o) succ err in
  let l := match o_pending (get (st_world s) o) with Val l => l | _ => [] end in
  let s1 := on_self o (with_pending (Val (l ++ [r]))) s in
  match o_promise (get (st_world s1) o) with
  | Val p =>
    let '(d, s2) := then_ p (HPerform c) (HPerform c) s1 in
    (Normal, on_self o (with_promise (Val d)) s2)
  | _ =>
    match performRequest n c s1 with
    | (RPromise p, s2) => (Normal, on_self o (with_promise (Val p)) s2)
    | (RValue _, s2) => (Normal, s2)
    | (RThrow e, s2) => (Throw e, s2)
    | (RFuel, s2) => (OutOfFuel, s2)
    end
  end.

(** [$cancel()] *)
Definition cancel (o : nat) (s : state) : state :=
  let s1 :=
    match o_pending (get (st_world s) o) with
    | Val l => State (st_world s) (canceled s ∪ list_to_set l) (proms s) (jobs s) (inflight s)
    | _ => s
    end in
  on_self o (with_promise Null) s1.

(** [$then(_success, _error)] *)
Definition user (f : option callback) : handler :=
  match f with
  | Some c => HUser c
  | None => HNone
  end.

Definition then' (o : nat) (f g : option callback) (s : state) : res * state :=
  match o_promise (get (st_world s) o) with
  | Val p =>
    let '(d, s1) := then_ p (user f) (user g) s in
    (Normal, on_self o (with_promise (Val d)) s1)
  | _ => (Throw VTypeError, s)
  end.

(** [$finally(_cb)] *)
Definition finally (o : nat) (f : callback) (s : state) : res * state :=
  match o_promise (get (st_world s) o) with
  | Val p =>
    let '(d, s1) := then_ p (HFinally f) (HFinally f) s in
    (Normal, on_self o (with_promise (Val d)) s1)
  | _ => (Throw VTypeError, s)
  end.

(** ** Running the queue *)

Definition pass (out : outcome) : hret :=
  match out with
  | Fulfilled v => RValue v
  | Rejected e => RThrow e
  end.

Definition payload (out : outcome) : value :=
  match out with
  | Fulfilled v => v
  | Rejected v => v
  end.

Definition of_res (r : res) (ok : hret) : hret :=
  match r with
  | Normal => ok
  | Throw e => RThrow e
  | OutOfFuel => RFuel
  end.

Definition run_handler (n : nat) (h : handler) (out : outcome) (s : state)
    : hret * state :=
  match h with
  | HNone => (pass out, s)
  | HPerform c => performRequest n c s
  | HHttpOk c => httpOk n c (payload out) s
  | HHttpErr c => httpErr n c (payload out) s
  | HUser f =>
    let '(r, s') := lift (call n f None [payload out]) s in
    (of_res r (RValue VUndef), s')
  | HFinally f =>
    let '(r, s') := lift (call n f None []) s in
    (of_res r (pass out), s')
  end.

(** What a handler gave back decides the promise derived by [then]: a
    value fulfils it, an exception rejects it, a promise is followed. *)
Definition resolve_with (d : nat) (r : hret) (s : state) : state :=
  match r with
  | RValue v => settle d (Fulfilled v) s
  | RThrow e => settle d (Rejected e) s
  | RPromise q => subscribe q (Reaction HNone HNone d) s
  | RFuel => s
  end.

Definition pick (r : reaction) (out : outcome) : handler :=
  match out with
  | Fulfilled _ => on_ok r
  | Rejected _ => on_err r
  end.

(** One promise job. *)
Definition tick (n : nat) (s : state) : res * state :=
  match jobs s with
  | [] => (Normal, s)
  | (r, out) :: js =>
    let s0 := State (st_world s) (canceled s) (proms s) js (inflight s) in
    let '(x, s1) := run_handler n (pick r out) out s0 in
    (match x with RFuel => OutOfFuel | _ => Normal end, resolve_with (target r) x s1)
  end.

(** The transport answers the call behind promise [t]. *)
Definition answer (t : nat) (out : outcome) (s : state) : state :=
  if decide (t ∈ (inflight s).*1) then
    settle t out
      (State (st_world s) (canceled s) (proms s) (jobs s)
             (filter (λ x, x.1 ≠ t) (inflight s)))
  else s.

(** What can happen to an object: calls of its API, a promise job, an
    answer of the transport. *)
Inductive input :=
  | ISend (r : nat) (succ err : option callback)
  | ICancel
  | IThen (f g : option callback)
  | IFinally (f : callback)
  | ITick
  | IAnswer (t : nat) (out : outcome).

Definition step (n : nat) (o : nat) (i : input) (s : state) : res * state :=
  match i with
  | ISend r succ err => send n o r succ err s
  | ICancel => (Normal, cancel o s)
  | IThen f g => then' o f g s
  | IFinally f => finally o f s
  | ITick => tick n s
  | IAnswer t out => (Normal, answer t out s)
  end.

(** A run goes on after an API call that threw (the caller saw the
    exception); it stops only where the fuel did not suffice. *)
Fixpoint run (n : nat) (o : nat) (ins : list input) (s : state) : option state :=
  match ins with
  | [] => Some s
  | i :: rest =>
    match step n o i s with
    | (OutOfFuel, _) => None
    | (_, s1) => run n o rest s1
    end
  end.

Definition init (w : world) : state := State w ∅ [] [] [].

(** ** What the hook system promises, in the words of its description *)

(** A callback that returns at once. *)
Definition quiet (c : callback) : bool :=
  match cb_body c with
  | [] => true
  | _ => false
  end.

Fixpoint quiet_dsp (d : override) : bool :=
  match d with
  | DUser f => quiet f
  | DMap old m =>
    match old with Some od => quiet_dsp od | None => true end
    && bool_decide (map_Forall (λ _ c, quiet c = true) m)
  end.

Definition quiet_obj (x : obj) : bool :=
  from_option quiet_dsp true (o_dsp x)
  && from_option
       (λ m, bool_decide (map_Forall (λ _ cbs, forallb quiet cbs = true) m))
       true (o_cb x).

Definition quiet_world (w : world) : Prop :=
  map_Forall (λ _ x, quiet_obj x = true) (objs w).

(** The chain of back-references from [o] ends within [k] objects, all
    of them objects of this API found in the store. *)
Fixpoint chain_ok (k : nat) (w : world) (o : nat) : bool :=
  match k with
  | 0 => false
  | S k' =>
    bool_decide (is_Some (objs w !! o))
    && match o_scope (get w o) with
       | PApi sc => chain_ok k' w sc
       | _ =>
         match o_type (get w o) with
         | PApi t => chain_ok k' w t
         | PPlain => false
         | PNone => true
         end
       end
  end.

Definition entry (m : gmap string callback) (h : string) (c : nat)
    (args : list value) : list event :=
  match m !! h with
  | Some f => [ECall (cb_name f) (Some c) args]
  | None => []
  end.

(** An override visits the override it was composed with first, then
    its own entry for the hook. *)
Fixpoint ovisits (d : override) (h : string) (args : list value) (c : nat)
    : list event :=
  match d with
  | DUser f => [ECall (cb_name f) None args]
  | DMap old m =>
    match old with Some od => ovisits od h args c | None => [] end
    ++ entry m h c args
  end.

Definition registered (x : obj) (h : string) : list callback :=
  default [] (o_cb x ≫= (.!! h)).

(** The store once [f] has joined the callbacks registered on [o] for
    [h]. *)
Definition pushed (o : nat) (h : string) (f : callback) (w : world) : world :=
  upd o (with_cb (Some (<[h := registered (get w o) h ++ [f]]>
                          (default ∅ (o_cb (get w o)))))) w.

(** The visits of one dispatch, following the description of the hook
    system: the active override if present, the registered callbacks in
    registration order, then the scope if it can dispatch, otherwise the
    type if present. *)
Fixpoint visits (k : nat) (w : world) (o : nat) (h : string)
    (args : list value) (c : nat) : list event :=
  match k with
  | 0 => []
  | S k' =>
    from_option (λ d, ovisits d h args c) [] (o_dsp (get w o))
    ++ map (λ f, ECall (cb_name f) (Some c) args) (registered (get w o) h)
    ++ match o_scope (get w o) with
       | PApi sc => visits k' w sc h args c
       | _ =>
         match o_type (get w o) with
         | PApi t => visits k' w t h args c
         | _ => []
         end
       end
  end.

(** Fuel that suffices for a dispatch among quiet callbacks. *)
Fixpoint ocost (d : override) : nat :=
  match d with
  | DUser _ => 3
  | DMap old _ => 3 + match old with Some od => ocost od | None => 0 end
  end.

Fixpoint cost (k : nat) (w : world) (o : nat) (h : string) : nat :=
  match k with
  | 0 => 0
  | S k' =>
    3 + from_option ocost 0 (o_dsp (get w o))
    + length (registered (get w o) h)
    + match o_scope (get w o) with
      | PApi sc => cost k' w sc h
      | _ =>
        match o_type (get w o) with
        | PApi t => cost k' w t h
        | _ => 0
        end
      end
  end.

Definition emits (l : list event) (w : world) : world :=
  World (objs w) (log w ++ l).

(** ** What synchronous code leaves alone *)

(** Two stores that differ at most in the [$$dsp] of their objects. *)
Definition same_but_dsp (w w' : world) : Prop :=
  ∀ x, with_dsp None (get w' x) = with_dsp None (get w x).

(** An event the hook system can record in store [w]: a callback
    invocation, or a read of what an object holds in [w]; never a
    transport call. *)
Definition sync_event (w : world) (e : event) : Prop :=
  match e with
  | ECall _ _ _ => True
  | EObs x st resp err =>
    st = o_status (get w x) ∧ resp = o_response (get w x) ∧ err = o_error (get w x)
  | EHttp _ => False
  end.

Definition frame (w w' : world) : Prop :=
  same_but_dsp w w' ∧ ∃ l, log w' = log w ++ l ∧ Forall (sync_event w) l.

Definition framed (m : M) : Prop := ∀ w r w', m w = (r, w') → frame w w'.

(** Updates that leave the back-references, respectively the whole hook
    configuration, of an object alone. *)
Definition keeps_links (f : obj → obj) : Prop :=
  ∀ x, o_scope (f x) = o_scope x ∧ o_type (f x) = o_type x.

Definition keeps_hooks (f : obj → obj) : Prop :=
  ∀ x, o_dsp (f x) = o_dsp x ∧ o_cb (f x) = o_cb x
       ∧ o_scope (f x) = o_scope x ∧ o_type (f x) = o_type x.

(** Synchronous code that, when it completes, leaves every object as it
    found it. *)
Definition restoring (m : M) : Prop :=
  ∀ w w', m w = (Normal, w') → ∀ x, get w' x = get w x.


(** ** Example stores *)

Definition plain (d : option override) (m : option (gmap string (list callback)))
    (sc ty : parent) : obj :=
  Obj d m sc ty Undefined Undefined None VUndef None.

(** A record (0) built from a collection (1) of a model (2); the record
    also names a second model (3) as its type. *)
Definition family : world :=
  World
    {[ 0 := plain (Some (DMap None {[ "save" := Callback 10 [] ]}))
                  (Some {[ "save" := [Callback 11 []; Callback 12 []] ]})
                  (PApi 1) (PApi 3);
       1 := plain None (Some {[ "save" := [Callback 13 []] ]}) PNone (PApi 2);
       2 := plain None (Some {[ "save" := [Callback 14 []] ]}) PNone PNone;
       3 := plain None (Some {[ "save" := [Callback 15 []] ]}) PNone PNone ]}
    [].

(** An object whose active override throws. *)
Definition thrower : override := DMap None {[ "save" := Callback 1 [AThrow (VData 7)] ]}.

Definition throwing : world :=
  World {[ 0 := plain (Some thrower) None PNone PNone ]} [].

(** An object whose active override dispatches the hook it is invoked
    for once more; one callback is registered on the object. *)
Definition again : override := DMap None {[ "save" := Callback 1 [ADispatch "save" []] ]}.

Definition echoing : world :=
  World {[ 0 := plain (Some again) (Some {[ "save" := [Callback 2 []] ]}) PNone PNone ]} [].

(** An object with an active override made of one quiet callback. *)
Definition outer : override := DMap None {[ "save" := Callback 1 [] ]}.
Definition inner : override := DMap None {[ "save" := Callback 2 [] ]}.

Definition decorated : world :=
  World {[ 0 := plain (Some outer) None PNone PNone ]} [].

(** An object that holds the answer of an earlier request, with a
    [before-request] callback that reads the object. *)
Definition answered : world :=
  World
    {[ 0 := Obj None (Some {[ "before-request" := [Callback 1 [AObserve]] ]}) PNone PNone
                Undefined Undefined (Some StOk) (VData 9) (Some false) ]}
    [].

(** A fresh object, alone in its store. *)
Definition lone : world := World {[ 0 := fresh_obj ]} [].

(** An object (0) inside a decorated context opened with a mapping,
    whose scope (1) is inside a decorated context opened with a
    function. *)
Definition scoped : world :=
  World {[ 0 := plain (Some outer) None (PApi 1) PNone;
           1 := plain (Some (DUser (Callback 9 []))) None PNone PNone ]} [].

(** Two stores with the same hook configuration. *)
Definition hooks_eq (w w' : world) : Prop :=
  ∀ x, o_dsp (get w x) = o_dsp (get w' x) ∧ o_cb (get w x) = o_cb (get w' x)
       ∧ o_scope (get w x) = o_scope (get w' x) ∧ o_type (get w x) = o_type (get w' x).

(** The visits of a dispatch on [o] made while [d] is its override. *)
Definition fired (k : nat) (w : world) (o : nat) (d : option override)
    (h : string) (args : list value) : list event :=
  from_option (λ f, ovisits f h args o) [] d
  ++ visits k (upd o (with_dsp None) w) o h args o.

Definition called (cb : option callback) (o : nat) (args : list value) : list event :=
  from_option (λ c, [ECall (cb_name c) (Some o) args]) [] cb.

(** What the three functions of [performRequest] write to the object
    before they dispatch. *)
Definition started (x : obj) : obj := with_error (Some false) (with_response VNull x).

Definition unpended (l : list nat) (r : nat) (reset : js (list nat)) : js (list nat) :=
  let l' := splice1 l (indexOf l r) in
  if decide (length l' = 0) then reset else Val l'.

Definition answered_ok (l : list nat) (r : nat) (v : value) (x : obj) : obj :=
  with_response v (with_status (Some StOk) (with_pending (unpended l r Undefined) x)).

Definition answered_err (l : list nat) (r : nat) (v : value) (x : obj) : obj :=
  with_response v (with_status (Some StError) (with_pending (unpended l r Null) x)).

(** What a dispatch of [h] on [o] under override [d] needs to go through
    in store [w] with fuel [n]. *)
Definition ready (k n : nat) (w : world) (o : nat) (d : option override)
    (h : string) : Prop :=
  quiet_world (upd o (with_dsp d) w) ∧ chain_ok k w o = true
  ∧ cost k (upd o (with_dsp d) w) o h ≤ n.

(** An object inside a decorated context whose mapping has an entry for
    [before-request], with an operation chain whose tail is pending. *)
Definition pin : override := DMap None {[ "before-request" := Callback 1 [] ]}.

Definition pinned : state :=
  State (World {[ 0 := Obj (Some pin) None PNone PNone Undefined (Val 0) None VUndef None ]} [])
        ∅ [Pending []] [] [].

(** ** The shape of the promise store while operations are queued *)

(** The transport calls a run has made, in order. *)
Definition issued (l : list event) : list nat :=
  omap (λ e, match e with EHttp r => Some r | _ => None end) l.

(** The configurations a run has submitted, in order. *)
Definition sent (ins : list input) : list nat :=
  omap (λ i, match i with ISend r _ _ => Some r | _ => None end) ins.

Definition no_cancel (ins : list input) : Prop := Forall (λ i, i ≠ ICancel) ins.

Definition no_perform (h : handler) : Prop :=
  match h with
  | HNone | HUser _ | HFinally _ => True
  | _ => False
  end.

(** A reaction that [$send], [$then], [$finally] or the following of a
    promise attaches: for [$send] both branches are the same
    [performRequest]. *)
Definition is_link (r : reaction) : Prop :=
  (∃ c, on_ok r = HPerform c ∧ on_err r = HPerform c)
  ∨ (no_perform (on_ok r) ∧ no_perform (on_err r)).

Definition is_http (r : reaction) : Prop :=
  ∃ c, on_ok r = HHttpOk c ∧ on_err r = HHttpErr c.

Definition link_reqs (r : reaction) : list nat :=
  match on_ok r with
  | HPerform c => [c_req c]
  | _ => []
  end.

Definition reqs (ch : list reaction) : list nat := concat (map link_reqs ch).

Definition nodes (p : nat) (ch : list reaction) : list nat := p :: map target ch.

(** From promise [p] a line of pending promises, each with exactly one
    reaction whose target is the next, leads to the tail [tl], which has
    no reaction yet. *)
Fixpoint chain (ps : list pstate) (tl p : nat) (ch : list reaction) : Prop :=
  match ch with
  | [] => ps !! p = Some (Pending []) ∧ p = tl
  | r :: ch' => ps !! p = Some (Pending [r]) ∧ is_link r ∧ chain ps tl (target r) ch'
  end.

(** The three shapes of the store of an object that is never canceled:
    nothing to do; one transport call in flight, the line of waiting
    operations behind it; one promise job, the line behind it.  The
    index is the list of configurations still waiting for their turn. *)
Inductive shape (s : state) (tail : js nat) : list nat → Prop :=
  | Idle :
      jobs s = [] → inflight s = [] →
      (∀ p, tail = Val p → ∃ out, proms s !! p = Some (Settled out)) →
      shape s tail []
  | Flight t r rx tl ch :
      jobs s = [] → inflight s = [(t, r)] →
      proms s !! t = Some (Pending [rx]) → is_http rx →
      tail = Val tl → chain (proms s) tl (target rx) ch →
      NoDup (t :: nodes (target rx) ch) →
      shape s tail (reqs ch)
  | Job rx out tl ch :
      jobs s = [(rx, out)] → inflight s = [] →
      is_link rx ∨ is_http rx →
      tail = Val tl → chain (proms s) tl (target rx) ch →
      NoDup (nodes (target rx) ch) →
      shape s tail (link_reqs rx ++ reqs ch).

(** The invariant of a run on object [o] that has submitted [sub] since a
    store whose log showed the transport calls [i0]. *)
Definition inv (o : nat) (i0 sub : list nat) (s : state) : Prop :=
  ∃ q dn, shape s (o_promise (get (st_world s) o)) q
          ∧ issued (log (st_world s)) = i0 ++ dn
          ∧ (dn ++ q) `sublist_of` sub.

(** Synchronous code of the request API: it calls no transport and
    leaves every [$promise] alone. *)
Definition tame (w w' : world) : Prop :=
  (∀ x, o_promise (get w' x) = o_promise (get w x))
  ∧ issued (log w') = issued (log w).

Definition calm (m : M) : Prop := ∀ w r w', m w = (r, w') → tame w w'.

(** What running a handler does to the promise store: it gives back a
    value or an exception and allocates nothing; or it gives back a new
    settled promise; or, for [performRequest] only, it calls the
    transport and gives back the promise derived from the call. *)
Definition handled (h : handler) (s : state) (x : hret) (s1 : state) : Prop :=
  jobs s1 = jobs s
  ∧ (∀ y, o_promise (get (st_world s1) y) = o_promise (get (st_world s) y))
  ∧ (((∃ v, x = RValue v ∨ x = RThrow v)
      ∧ proms s1 = proms s ∧ inflight s1 = inflight s
      ∧ issued (log (st_world s1)) = issued (log (st_world s)))
     ∨ ((∃ out, x = RPromise (length (proms s))
                ∧ proms s1 = proms s ++ [Settled out])
        ∧ inflight s1 = inflight s
        ∧ issued (log (st_world s1)) = issued (log (st_world s)))
     ∨ (∃ c, h = HPerform c
             ∧ x = RPromise (S (length (proms s)))
             ∧ proms s1 = proms s ++ [Pending [Reaction (HHttpOk c) (HHttpErr c)
                                                  (S (length (proms s)))];
                                      Pending []]
             ∧ inflight s1 = inflight s ++ [(length (proms s), c_req c)]
             ∧ issued (log (st_world s1)) = issued (log (st_world s)) ++ [c_req c])).

(** A later store of the same objects with the same hook configuration. *)
Definition evolves (w w' : world) : Prop :=
  hooks_eq w w' ∧ ∀ x, is_Some (objs w !! x) → is_Some (objs w' !! x).

(** The list [$send] pushes to: [this.$pending || []]. *)
Definition pending_of (w : world) (o : nat) : list nat :=
  match o_pending (get w o) with
  | Val l => l
  | _ => []
  end.

(** An object with one callback registered for [after-request-error],
    after two requests were submitted back to back, the first with an
    error callback. *)
Definition erring : world :=
  World {[ 0 := plain None (Some {[ "after-request-error" := [Callback 1 []] ]}) PNone PNone ]} [].

Definition two_queued : state :=
  (send 10 0 8 None None (send 10 0 7 None (Some (Callback 2 [])) (init erring)).2).2.

(** ** One dispatch, object by object *)

(** The visits a dispatch makes on the object itself: the active
    override, then the callbacks registered for the hook. *)
Definition own_visits (w : world) (o : nat) (h : string) (args : list value)
    (c : nat) : list event :=
  from_option (λ d, ovisits d h args c) [] (o_dsp (get w o))
  ++ map (λ f, ECall (cb_name f) (Some c) args) (registered (get w o) h).

(** The visits made by bubbling from [o]. *)
Definition bubbled (k : nat) (w : world) (o : nat) (h : string) (args : list value)
    (c : nat) : list event :=
  match o_scope (get w o) with
  | PApi sc => visits k w sc h args c
  | _ =>
    match o_type (get w o) with
    | PApi t => visits k w t h args c
    | _ => []
    end
  end.

(** The store once a dispatch on [o] has cleared the override, if there
    was one. *)
Definition cleared (o : nat) (w : world) : world :=
  match o_dsp (get w o) with
  | Some _ => upd o (with_dsp None) w
  | None => w
  end.

(** An object created outside of a model: its scope and its type are
    plain objects. *)
Definition orphan : world :=
  World {[ 0 := plain (Some outer) (Some {[ "save" := [Callback 3 []] ]}) PPlain PPlain ]} [].

(** A record in a collection; the second of the three callbacks
    registered on the record throws. *)
Definition halting : world :=
  World
    {[ 0 := plain (Some outer)
                  (Some {[ "save" := [Callback 3 []; Callback 4 [AThrow (VData 7)];
                                      Callback 5 []] ]})
                  (PApi 1) PNone;
       1 := plain None (Some {[ "save" := [Callback 6 []] ]}) PNone PNone ]}
    [].

(** ** What the request code does to [$pending] *)

(** A property of stores that only looks at the [$pending] of their
    objects. *)
Definition pending_only (P : world → Prop) : Prop :=
  ∀ w w', (∀ x, o_pending (get w' x) = o_pending (get w x)) → P w → P w'.

(** Synchronous code that maintains [P]. *)
Definition keeps (P : world → Prop) (m : M) : Prop :=
  ∀ w r w', m w = (r, w') → P w → P w'.

(** No [$pending] is an empty array. *)
Definition tidy (w : world) : Prop := ∀ x, o_pending (get w x) ≠ Val [].

(** An object whose [before-request] callback throws. *)
Definition refusing : world :=
  World {[ 0 := plain None (Some {[ "before-request" := [Callback 1 [AThrow (VData 3)]] ]})
                      PNone PNone ]} [].

(** A fresh object after one request was submitted. *)
Definition one_sent : state := (send 10 0 7 None None (init lone)).2.

(** [l] without the first occurrence of [r]. *)
Fixpoint remove_first (r : nat) (l : list nat) : list nat :=
  match l with
  | [] => []
  | y :: l' => if decide (y = r) then l' else y :: remove_first r l'
  end.

(** An object with four configurations pending, one of them twice. *)
Definition queued : world :=
  World {[ 0 := Obj None None PNone PNone (Val [5; 7; 9; 7]) Undefined None VUndef None ]} [].

(** ** Callbacks on the chain *)

(** The callback of a [$then] that applies to an outcome. *)
Definition chosen (f g : option callback) (out : outcome) : option callback :=
  match out with
  | Fulfilled _ => f
  | Rejected _ => g
  end.

(** What the promise derived by [$then] settles with when the callback,
    if there is one, has returned. *)
Definition derived (cb : option callback) (out : outcome) : outcome :=
  match cb with
  | Some _ => Fulfilled VUndef
  | None => out
  end.

Definition noted (cb : option callback) (args : list value) : list event :=
  from_option (λ c, [ECall (cb_name c) None args]) [] cb.

(** A fresh object after its only request was answered with an error. *)
Definition failed : state :=
  default (init lone)
    (run 10 0 [ISend 7 None None; IAnswer 0 (Rejected (VData 4)); ITick; ITick] (init lone)).

(** ** Basic facts about the store *)

Lemma get_upd_eq o f w : get (upd o f w) o = f (get w o).
Proof. unfold get, upd; simpl. by rewrite lookup_insert_eq. Qed.

Lemma get_upd_ne o o' f w : o ≠ o' → get (upd o f w) o' = get w o'.
Proof. intros H. unfold get, upd; simpl. by rewrite lookup_insert_ne. Qed.

Lemma get_emit e w o : get (emit e w) o = get w o.
Proof. reflexivity. Qed.

Lemma get_emits l w o : get (emits l w) o = get w o.
Proof. reflexivity. Qed.

Lemma upd_upd o f g w : upd o f (upd o g w) = upd o (λ x, f (g x)) w.
Proof.
  unfold upd at 1 3. rewrite get_upd_eq. simpl. by rewrite insert_insert_eq.
Qed.

Lemma upd_same o f w :
  is_Some (objs w !! o) → f (get w o) = get w o → upd o f w = w.
Proof.
  intros [x Hx] Hf. unfold upd. rewrite Hf. unfold get. rewrite Hx. simpl.
  rewrite insert_id; [by destruct w | done].
Qed.

Lemma upd_emits o f l w : upd o f (emits l w) = emits l (upd o f w).
Proof. reflexivity. Qed.

Lemma emits_emits l1 l2 w : emits l2 (emits l1 w) = emits (l1 ++ l2) w.
Proof. unfold emits; simpl. by rewrite app_assoc. Qed.

Lemma emits_nil w : emits [] w = w.
Proof. unfold emits. rewrite app_nil_r. by destruct w. Qed.

Lemma emit_emits e w : emit e w = emits [e] w.
Proof. reflexivity. Qed.

Lemma with_dsp_get x : with_dsp (o_dsp x) x = x.
Proof. by destruct x. Qed.

(** The equations of the interpreter. *)
Lemma dispatch_S k o h args ctx w :
  dispatch (S k) o h args ctx w =
  (match o_dsp (get w o) with
   | Some f => λ w, invoke k f h args (default o ctx) (upd o (with_dsp None) w)
   | None => ret
   end ;;;
   (λ w, match o_cb (get w o) ≫= (.!! h) with
         | Some cbs => call_all k cbs (default o ctx) args w
         | None => (Normal, w)
         end) ;;;
   (λ w, match o_scope (get w o) with
         | PApi sc => dispatch k sc h args (Some (default o ctx)) w
         | _ =>
           match o_type (get w o) with
           | PApi t => dispatch k t h args (Some (default o ctx)) w
           | PPlain => (Throw VTypeError, w)
           | PNone => (Normal, w)
           end
         end) ;;;
   (λ w', (Normal, upd o (with_dsp (o_dsp (get w o))) w'))) w.
Proof. reflexivity. Qed.

Lemma invoke_S k d h args ctx w :
  invoke (S k) d h args ctx w =
  match d with
  | DUser f => call k f None args w
  | DMap old m =>
    (match old with
     | Some od => invoke k od h args ctx
     | None => ret
     end ;;;
     match m !! h with
     | Some extraCb => call k extraCb (Some ctx) args
     | None =>
       match inherited h with
       | Some MObject | Some MDefine => λ w, (Throw VTypeError, w)
       | Some MPure | None => ret
       end
     end) w
  end.
Proof. reflexivity. Qed.

Lemma call_all_S k cbs ctx args w :
  call_all (S k) cbs ctx args w =
  match cbs with
  | [] => (Normal, w)
  | c :: rest => (call k c (Some ctx) args ;;; call_all k rest ctx args) w
  end.
Proof. reflexivity. Qed.

Lemma call_S k c this args w :
  call (S k) c this args w =
  exec k (cb_body c) this (emit (ECall (cb_name c) this args) w).
Proof. reflexivity. Qed.

Lemma exec_S k body this w :
  exec (S k) body this w =
  match body with
  | [] => (Normal, w)
  | a :: rest =>
    ((λ w, match a, this with
           | AThrow e, _ => (Throw e, w)
           | _, None => (Throw VTypeError, w)
           | AObserve, Some o =>
             let x := get w o in
             (Normal, emit (EObs o (o_status x) (o_response x) (o_error x)) w)
           | ADispatch h args, Some o => dispatch k o h args None w
           | ADecorate hk b, Some o => decorate o hk (exec k b (Some o)) w
           end) ;;;
     exec k rest this) w
  end.
Proof. reflexivity. Qed.

Lemma seq_normal (m k : M) w w1 : m w = (Normal, w1) → (m ;;; k) w = k w1.
Proof. intros H. unfold seq. by rewrite H. Qed.

Lemma seq_ret (k : M) w : (ret ;;; k) w = k w.
Proof. reflexivity. Qed.

(** ** Dispatch among quiet callbacks *)

Lemma override_old_ind (P : override → Prop) :
  (∀ f, P (DUser f)) →
  (∀ m, P (DMap None m)) →
  (∀ od m, P od → P (DMap (Some od) m)) →
  ∀ d, P d.
Proof.
  intros Hu Hn Hs. fix IH 1. intros [f | [od|] m].
  - apply Hu.
  - apply Hs, IH.
  - apply Hn.
Qed.

Lemma call_quiet n c this args w :
  quiet c = true → 2 ≤ n →
  call n c this args w = (Normal, emits [ECall (cb_name c) this args] w).
Proof.
  intros Hq Hn. destruct n as [|[|n]]; [lia | lia |].
  rewrite call_S, exec_S. unfold quiet in Hq.
  destruct (cb_body c); [done | discriminate].
Qed.

Lemma entry_quiet n m h c args w :
  map_Forall (λ _ f, quiet f = true) m → 2 ≤ n → inherited h = None →
  match m !! h with
  | Some extraCb => call n extraCb (Some c) args
  | None =>
    match inherited h with
    | Some MObject | Some MDefine => λ w, (Throw VTypeError, w)
    | Some MPure | None => ret
    end
  end w = (Normal, emits (entry m h c args) w).
Proof.
  intros Hm Hn Hh. unfold entry. rewrite Hh. destruct (m !! h) as [f|] eqn:E.
  - apply call_quiet; [by eapply Hm | done].
  - unfold ret. by rewrite emits_nil.
Qed.

Lemma invoke_quiet d h args c :
  quiet_dsp d = true → inherited h = None →
  ∀ n w, ocost d ≤ n →
  invoke n d h args c w = (Normal, emits (ovisits d h args c) w).
Proof.
  induction d as [f | m | od m IH] using override_old_ind;
    simpl; intros Hq Hh n w Hn.
  - destruct n; [lia|]. rewrite invoke_S. apply call_quiet; [done | lia].
  - destruct n; [lia|]. rewrite invoke_S, seq_ret.
    apply bool_decide_eq_true in Hq. apply entry_quiet; [done | lia | done].
  - destruct n; [lia|]. rewrite invoke_S.
    apply andb_true_iff in Hq as [Hq1 Hq2]. apply bool_decide_eq_true in Hq2.
    erewrite seq_normal by (apply IH; [done | done | lia]).
    rewrite entry_quiet by (done || lia). by rewrite emits_emits.
Qed.

Lemma call_all_quiet cbs c args :
  forallb quiet cbs = true →
  ∀ n w, length cbs + 2 ≤ n →
  call_all n cbs c args w =
  (Normal, emits (map (λ f, ECall (cb_name f) (Some c) args) cbs) w).
Proof.
  induction cbs as [|f cbs IH]; simpl; intros Hq n w Hn.
  - destruct n; [lia|]. by rewrite call_all_S, emits_nil.
  - destruct n; [lia|]. rewrite call_all_S.
    apply andb_true_iff in Hq as [Hq1 Hq2].
    erewrite seq_normal by (apply call_quiet; [done | lia]).
    rewrite IH by (done || lia). by rewrite emits_emits.
Qed.

Lemma keeps_hooks_links f : keeps_hooks f → keeps_links f.
Proof. intros H x. destruct (H x) as (_ & _ & ? & ?). done. Qed.

Lemma keeps_links_dsp d : keeps_links (with_dsp d).
Proof. by intros []. Qed.

Lemma chain_ok_objs k w w' o : objs w = objs w' → chain_ok k w o = chain_ok k w' o.
Proof.
  intros E. revert o. induction k as [|k IH]; intros o; [done|].
  cbn [chain_ok]. unfold get. rewrite E. f_equal. repeat case_match; auto.
Qed.

Lemma visits_objs k w w' o h args c :
  objs w = objs w' → visits k w o h args c = visits k w' o h args c.
Proof.
  intros E. revert o. induction k as [|k IH]; intros o; [done|].
  cbn [visits]. unfold get. rewrite E. do 2 f_equal. repeat case_match; auto.
Qed.

Lemma cost_objs k w w' o h : objs w = objs w' → cost k w o h = cost k w' o h.
Proof.
  intros E. revert o. induction k as [|k IH]; intros o; [done|].
  cbn [cost]. unfold get. rewrite E. f_equal. repeat case_match; auto.
Qed.

Lemma chain_ok_emits k l w o : chain_ok k (emits l w) o = chain_ok k w o.
Proof. by apply chain_ok_objs. Qed.

Lemma visits_emits k l w o h args c :
  visits k (emits l w) o h args c = visits k w o h args c.
Proof. by apply visits_objs. Qed.

Lemma cost_emits k l w o h : cost k (emits l w) o h = cost k w o h.
Proof. by apply cost_objs. Qed.

Lemma alloc_upd o f w x :
  is_Some (objs w !! o) →
  bool_decide (is_Some (objs (upd o f w) !! x)) = bool_decide (is_Some (objs w !! x)).
Proof.
  intros Ho. apply bool_decide_ext. unfold upd; simpl.
  destruct (decide (o = x)) as [->|Hne].
  - rewrite lookup_insert_eq. split; [done | by eauto].
  - by rewrite lookup_insert_ne.
Qed.

Lemma links_upd o f w x :
  keeps_links f →
  o_scope (get (upd o f w) x) = o_scope (get w x)
  ∧ o_type (get (upd o f w) x) = o_type (get w x).
Proof.
  intros Hf. destruct (decide (o = x)) as [->|Hne].
  - rewrite get_upd_eq. apply Hf.
  - by rewrite get_upd_ne.
Qed.

Lemma chain_ok_upd k o f w x :
  keeps_links f → is_Some (objs w !! o) →
  chain_ok k (upd o f w) x = chain_ok k w x.
Proof.
  intros Hf Ho. revert x. induction k as [|k IH]; intros x; [done|].
  cbn [chain_ok]. rewrite alloc_upd by done.
  destruct (links_upd o f w x Hf) as [-> ->]. f_equal. repeat case_match; auto.
Qed.

Lemma chain_ok_mono k w o : chain_ok k w o = true → chain_ok (S k) w o = true.
Proof.
  revert o. induction k as [|k IH]; intros o; [done|].
  intros H. cbn [chain_ok] in H. apply andb_true_iff in H as [Ha H].
  remember (S k) as k1. cbn [chain_ok]. rewrite Ha. cbn [andb].
  repeat case_match; auto.
Qed.

Lemma chain_ok_le k k' w o : chain_ok k w o = true → k ≤ k' → chain_ok k' w o = true.
Proof. intros H Hle. induction Hle; [done | by apply chain_ok_mono]. Qed.

Lemma chain_ok_min k w o :
  chain_ok k w o = true →
  ∃ k0, k0 ≤ k ∧ chain_ok k0 w o = true ∧ ∀ j, j < k0 → chain_ok j w o = false.
Proof.
  induction k as [|k IH]; [done|]. intros H.
  destruct (chain_ok k w o) eqn:E.
  - destruct (IH eq_refl) as (k0 & ? & ? & ?). exists k0. split_and!; [lia | done..].
  - exists (S k). split_and!; [done.. |]. intros j Hj.
    destruct (chain_ok j w o) eqn:E'; [|done].
    apply (chain_ok_le j k) in E'; [congruence | lia].
Qed.

Lemma visits_stable k0 : ∀ k w o h args c,
  chain_ok k0 w o = true → k0 ≤ k →
  visits k w o h args c = visits k0 w o h args c ∧ cost k w o h = cost k0 w o h.
Proof.
  induction k0 as [|k0 IH]; [done|]. intros [|k] w o h args c H Hle; [lia|].
  simpl in H. apply andb_true_iff in H as [_ H]. simpl.
  destruct (o_scope (get w o)) as [| |sc]; [destruct (o_type (get w o)) as [| |t] ..|];
    try done.
  - destruct (IH k w t h args c H) as [-> ->]; [lia | done].
  - destruct (IH k w t h args c H) as [-> ->]; [lia | done].
  - destruct (IH k w sc h args c H) as [-> ->]; [lia | done].
Qed.

(** An object is not among those its own dispatch bubbles to. *)
Lemma visits_upd_off k : ∀ o f w p h args c,
  keeps_links f → is_Some (objs w !! o) →
  chain_ok k w p = true → (∀ j, j ≤ k → chain_ok j w o = false) →
  visits k (upd o f w) p h args c = visits k w p h args c
  ∧ cost k (upd o f w) p h = cost k w p h.
Proof.
  induction k as [|k IH]; [done|]. intros o f w p h args c Hf Ho Hp Hmin.
  assert (o ≠ p) as Hne.
  { intros ->. rewrite Hmin in Hp; [done | lia]. }
  simpl in Hp. apply andb_true_iff in Hp as [_ Hp]. simpl.
  rewrite !get_upd_ne by done.
  assert (∀ j, j ≤ k → chain_ok j w o = false) as Hmin' by (intros; apply Hmin; lia).
  destruct (o_scope (get w p)) as [| |sc]; [destruct (o_type (get w p)) as [| |t] ..|];
    try done.
  - destruct (IH o f w t h args c) as [-> ->]; done.
  - destruct (IH o f w t h args c) as [-> ->]; done.
  - destruct (IH o f w sc h args c) as [-> ->]; done.
Qed.

Lemma visits_upd_keep k : ∀ o f w p h args c,
  keeps_hooks f →
  visits k (upd o f w) p h args c = visits k w p h args c
  ∧ cost k (upd o f w) p h = cost k w p h.
Proof.
  induction k as [|k IH]; [done|]. intros o f w p h args c Hf. simpl.
  assert (o_dsp (get (upd o f w) p) = o_dsp (get w p)
          ∧ o_cb (get (upd o f w) p) = o_cb (get w p)
          ∧ o_scope (get (upd o f w) p) = o_scope (get w p)
          ∧ o_type (get (upd o f w) p) = o_type (get w p)) as (E1 & E2 & E3 & E4).
  { destruct (decide (o = p)) as [->|Hne].
    - rewrite get_upd_eq. apply Hf.
    - by rewrite get_upd_ne. }
  unfold registered. rewrite E1, E2, E3, E4.
  destruct (o_scope (get w p)) as [| |sc]; [destruct (o_type (get w p)) as [| |t] ..|];
    try done.
  - destruct (IH o f w t h args c Hf) as [-> ->]. done.
  - destruct (IH o f w t h args c Hf) as [-> ->]. done.
  - destruct (IH o f w sc h args c Hf) as [-> ->]. done.
Qed.

Lemma quiet_world_emits l w : quiet_world w → quiet_world (emits l w).
Proof. done. Qed.

Lemma quiet_world_upd o f w :
  quiet_world w → quiet_obj (f (get w o)) = true → quiet_world (upd o f w).
Proof. intros Hw Hf. unfold quiet_world, upd; simpl. by apply map_Forall_insert_2. Qed.

Lemma quiet_world_get w o : quiet_world w → quiet_obj (get w o) = true.
Proof.
  intros Hw. unfold get. destruct (objs w !! o) as [x|] eqn:E; simpl; [|done].
  by apply (Hw o).
Qed.

Lemma quiet_obj_inv x :
  quiet_obj x = true →
  (∀ d, o_dsp x = Some d → quiet_dsp d = true)
  ∧ ∀ h, forallb quiet (registered x h) = true.
Proof.
  intros H. apply andb_true_iff in H as [H1 H2]. split.
  - intros d Hd. by rewrite Hd in H1.
  - intros h. unfold registered. destruct (o_cb x) as [m|]; simpl; [|done].
    apply bool_decide_eq_true in H2.
    destruct (m !! h) as [cbs|] eqn:E; simpl; [|done]. by apply (H2 h).
Qed.

Lemma quiet_obj_clear x : quiet_obj x = true → quiet_obj (with_dsp None x) = true.
Proof. intros H. apply andb_true_iff in H as [_ H]. done. Qed.

Lemma dispatch_quiet_min k : ∀ w o h args ctx n,
  quiet_world w → chain_ok k w o = true →
  (∀ j, j < k → chain_ok j w o = false) →
  cost k w o h ≤ n → inherited h = None →
  dispatch n o h args ctx w
  = (Normal, emits (visits k w o h args (default o ctx)) w).
Proof.
  induction k as [|k IH]; [done|]. intros w o h args ctx n Hq Hok Hmin Hn Hh.
  pose proof Hok as Hok'.
  cbn [chain_ok] in Hok. apply andb_true_iff in Hok as [Ha Hok].
  apply bool_decide_eq_true in Ha.
  cbn [cost] in Hn. cbn [visits].
  destruct n as [|n]; [lia|]. rewrite dispatch_S.
  set (c := default o ctx).
  destruct (quiet_obj_inv _ (quiet_world_get w o Hq)) as [Hd Hr].
  set (w0 := upd o (with_dsp None) w).
  set (ov := from_option (λ d, ovisits d h args c) [] (o_dsp (get w o))).
  set (cv := map (λ f, ECall (cb_name f) (Some c) args) (registered (get w o) h)).
  assert (get w0 o = with_dsp None (get w o)) as Hget by apply get_upd_eq.
  assert (quiet_world w0) as Hq0.
  { apply quiet_world_upd; [done|]. apply quiet_obj_clear. by apply quiet_world_get. }
  (* the override *)
  erewrite seq_normal; cycle 1.
  { instantiate (1 := emits ov w0). subst ov.
    destruct (o_dsp (get w o)) as [d|] eqn:E; simpl.
    - simpl in Hn. apply invoke_quiet; [by apply Hd | done | lia].
    - unfold ret, w0. rewrite emits_nil, upd_same; [done | done |].
      rewrite <- E. apply with_dsp_get. }
  (* the registered callbacks *)
  erewrite seq_normal; cycle 1.
  { instantiate (1 := emits (ov ++ cv) w0). rewrite get_emits, Hget.
    change (o_cb (with_dsp None (get w o))) with (o_cb (get w o)).
    specialize (Hr h). subst cv. unfold registered in *.
    destruct (o_cb (get w o) ≫= (.!! h)) as [cbs|]; simpl in *.
    - rewrite call_all_quiet, emits_emits; [done.. | lia].
    - by rewrite app_nil_r. }
  (* the scope, else the type *)
  set (pv := match o_scope (get w o) with
             | PApi sc => visits k w sc h args c
             | _ => match o_type (get w o) with
                    | PApi t => visits k w t h args c
                    | _ => []
                    end
             end).
  assert (∀ p, chain_ok k w p = true →
            (o_scope (get w o) = PApi p
             ∨ o_scope (get w o) ≠ PApi p ∧ (∀ q, o_scope (get w o) ≠ PApi q)
               ∧ o_type (get w o) = PApi p) →
            cost k w p h ≤ n →
            dispatch n p h args (Some c) (emits (ov ++ cv) w0)
            = (Normal, emits (visits k w p h args c) (emits (ov ++ cv) w0))) as Hp.
  { intros p Hpok Hpar Hcost.
    assert (∀ j, j ≤ k → chain_ok j w o = false) as Hoff by (intros; apply Hmin; lia).
    destruct (visits_upd_off k o (with_dsp None) w p h args c
                (keeps_links_dsp None) Ha Hpok Hoff) as [Ev Ec].
    rewrite (IH (emits (ov ++ cv) w0) p h args (Some c) n); [| | | | | done].
    - rewrite visits_emits. unfold w0.
      change (default p (Some c)) with c. by rewrite Ev.
    - by apply quiet_world_emits.
    - rewrite chain_ok_emits. unfold w0.
      by rewrite chain_ok_upd by (apply keeps_links_dsp || done).
    - intros j Hj. rewrite chain_ok_emits. unfold w0.
      rewrite chain_ok_upd by (apply keeps_links_dsp || done).
      destruct (chain_ok j w p) eqn:Ej; [|done].
      assert (chain_ok (S j) w o = true) as Hbad.
      { cbn [chain_ok]. rewrite bool_decide_eq_true_2 by done. cbn [andb].
        destruct Hpar as [->|(_ & Hns & Ht)]; [done|].
        rewrite Ht. destruct (o_scope (get w o)); [done | done | by destruct (Hns o0)]. }
      rewrite Hmin in Hbad; [done | lia].
    - rewrite cost_emits. unfold w0. by rewrite Ec. }
  erewrite seq_normal; cycle 1.
  { instantiate (1 := emits ((ov ++ cv) ++ pv) w0).
    rewrite get_emits, Hget.
    change (o_scope (with_dsp None (get w o))) with (o_scope (get w o)).
    change (o_type (with_dsp None (get w o))) with (o_type (get w o)).
    subst pv.
    destruct (o_scope (get w o)) as [| |sc] eqn:Es;
      [destruct (o_type (get w o)) as [| |t] eqn:Et ..|].
    - by rewrite app_nil_r.
    - done.
    - rewrite Hp, emits_emits; [done | done | | lia].
      right. split_and!; [done | done | done].
    - by rewrite app_nil_r.
    - done.
    - rewrite Hp, emits_emits; [done | done | | lia].
      right. split_and!; [done | done | done].
    - rewrite Hp, emits_emits; [done | done | by left | lia]. }
  (* the override is put back *)
  f_equal. unfold w0. rewrite upd_emits, upd_upd, upd_same.
  - subst ov cv pv. by rewrite <- !app_assoc.
  - done.
  - by destruct (get w o).
Qed.

Lemma dispatch_quiet k w o h args ctx n :
  quiet_world w → chain_ok k w o = true → cost k w o h ≤ n → inherited h = None →
  dispatch n o h args ctx w
  = (Normal, emits (visits k w o h args (default o ctx)) w).
Proof.
  intros Hq Hok Hn Hh.
  destruct (chain_ok_min k w o Hok) as (k0 & Hle & Hok0 & Hmin).
  destruct (visits_stable k0 k w o h args (default o ctx) Hok0 Hle) as [-> Ec].
  apply dispatch_quiet_min; [done | done | done | lia | done].
Qed.

(** ** The frame of the hook system *)

Lemma frame_refl w : frame w w.
Proof. split; [done|]. exists []. by rewrite app_nil_r. Qed.

Lemma sync_event_same w w' e : same_but_dsp w w' → sync_event w' e → sync_event w e.
Proof.
  intros H. destruct e as [| x st resp err |]; simpl; [done | | done].
  specialize (H x). intros (-> & -> & ->).
  split_and!.
  - apply (f_equal o_status) in H. done.
  - apply (f_equal o_response) in H. done.
  - apply (f_equal o_error) in H. done.
Qed.

Lemma frame_trans w1 w2 w3 : frame w1 w2 → frame w2 w3 → frame w1 w3.
Proof.
  intros [H1 (l1 & E1 & F1)] [H2 (l2 & E2 & F2)]. split.
  - intros x. by rewrite H2, H1.
  - exists (l1 ++ l2). split; [by rewrite E2, E1, app_assoc|].
    apply Forall_app. split; [done|].
    eapply Forall_impl; [exact F2|]. intros e. by apply sync_event_same.
Qed.

Lemma frame_upd_dsp o d w : frame w (upd o (with_dsp d) w).
Proof.
  split.
  - intros x. destruct (decide (o = x)) as [->|Hne].
    + by rewrite get_upd_eq.
    + by rewrite get_upd_ne.
  - exists []. by rewrite app_nil_r.
Qed.

Lemma frame_emit e w : sync_event w e → frame w (emit e w).
Proof. intros He. split; [done|]. exists [e]. split; [done|]. by constructor. Qed.

Lemma framed_ret : framed ret.
Proof. intros w r w' [= <- <-]. apply frame_refl. Qed.

Lemma framed_seq m k : framed m → framed k → framed (m ;;; k).
Proof.
  intros Hm Hk w r w'. unfold seq. destruct (m w) as [r1 w1] eqn:E.
  specialize (Hm _ _ _ E).
  destruct r1; intros H.
  - eapply frame_trans; [exact Hm|]. by eapply Hk.
  - by injection H as <- <-.
  - by injection H as <- <-.
Qed.

Lemma framed_decorate o hk body : framed body → framed (decorate o hk body).
Proof.
  intros Hb w r w'. unfold decorate.
  destruct (body _) as [r1 w1] eqn:E. intros [= <- <-].
  eapply frame_trans; [apply frame_upd_dsp|].
  eapply frame_trans; [by eapply Hb|]. apply frame_upd_dsp.
Qed.

Lemma framed_pre (f : world → world) (m : M) :
  (∀ w, frame w (f w)) → framed m → framed (λ w, m (f w)).
Proof. intros Hf Hm w r w' E. eapply frame_trans; [apply Hf|]. by eapply Hm. Qed.

Lemma framed_const r : framed (λ w, (r, w)).
Proof. intros w r' w' [= <- <-]. apply frame_refl. Qed.

Lemma framed_post (f : world → world) r :
  (∀ w, frame w (f w)) → framed (λ w, (r, f w)).
Proof. intros Hf w r' w' [= <- <-]. apply Hf. Qed.

Lemma interpreter_framed n :
  (∀ o h args ctx, framed (dispatch n o h args ctx))
  ∧ (∀ d h args ctx, framed (invoke n d h args ctx))
  ∧ (∀ cbs ctx args, framed (call_all n cbs ctx args))
  ∧ (∀ c this args, framed (call n c this args))
  ∧ (∀ body this, framed (exec n body this)).
Proof.
  induction n as [|n (IHd & IHi & IHa & IHc & IHe)].
  { split_and!; intros; apply framed_const. }
  split_and!.
  - intros o h args ctx w. revert w.
    change (framed (dispatch (S n) o h args ctx)).
    intros w. rewrite dispatch_S. revert w.
    assert (∀ d, framed
      (match d with
       | Some f => λ w, invoke n f h args (default o ctx) (upd o (with_dsp None) w)
       | None => ret
       end ;;;
       (λ w, match o_cb (get w o) ≫= (.!! h) with
             | Some cbs => call_all n cbs (default o ctx) args w
             | None => (Normal, w)
             end) ;;;
       (λ w, match o_scope (get w o) with
             | PApi sc => dispatch n sc h args (Some (default o ctx)) w
             | _ =>
               match o_type (get w o) with
               | PApi t => dispatch n t h args (Some (default o ctx)) w
               | PPlain => (Throw VTypeError, w)
               | PNone => (Normal, w)
               end
             end) ;;;
       (λ w', (Normal, upd o (with_dsp d) w')))) as H.
    { intros d. repeat apply framed_seq.
      - destruct d; [|apply framed_ret].
        apply (framed_pre (upd o (with_dsp None))); [apply frame_upd_dsp | apply IHi].
      - intros w r w'. destruct (o_cb (get w o) ≫= (.!! h)).
        + apply IHa.
        + apply framed_const.
      - intros w r w'. destruct (o_scope (get w o)); [destruct (o_type (get w o)) ..|];
          (apply IHd || apply framed_const).
      - apply framed_post. intros. apply frame_upd_dsp. }
    intros w. apply H.
  - intros d h args ctx w. rewrite invoke_S. revert w.
    destruct d as [f|old m]; [apply IHc|].
    change (framed (match old with
                    | Some od => invoke n od h args ctx
                    | None => ret
                    end ;;;
                    match m !! h with
                    | Some extraCb => call n extraCb (Some ctx) args
                    | None =>
                      match inherited h with
                      | Some MObject | Some MDefine => λ w, (Throw VTypeError, w)
                      | Some MPure | None => ret
                      end
                    end)).
    apply framed_seq.
    + destruct old; [apply IHi | apply framed_ret].
    + destruct (m !! h); [apply IHc|].
      destruct (inherited h) as [[]|]; (apply framed_ret || apply framed_const).
  - intros cbs ctx args w. rewrite call_all_S. revert w.
    destruct cbs as [|c rest]; [apply framed_const|].
    change (framed (call n c (Some ctx) args ;;; call_all n rest ctx args)).
    apply framed_seq; [apply IHc | apply IHa].
  - intros c this args w. rewrite call_S. revert w.
    apply (framed_pre (emit (ECall (cb_name c) this args))); [|apply IHe].
    intros w. by apply frame_emit.
  - intros body this w. rewrite exec_S. revert w.
    destruct body as [|a rest]; [apply framed_const|].
    match goal with |- ∀ w, ∀ r w', (?m ;;; ?k) w = _ → _ => change (framed (m ;;; k)) end.
    apply framed_seq; [|apply IHe].
    destruct a as [|h args|hk b|e], this as [o|]; try apply framed_const.
    + apply framed_post. intros w0. apply frame_emit. simpl. auto.
    + apply IHd.
    + apply framed_decorate, IHe.
Qed.

Lemma dispatch_framed n o h args ctx : framed (dispatch n o h args ctx).
Proof. apply interpreter_framed. Qed.

Lemma call_framed n c this args : framed (call n c this args).
Proof. apply interpreter_framed. Qed.

Lemma exec_framed n body this : framed (exec n body this).
Proof. apply interpreter_framed. Qed.

(** ** Synchronous code that completes puts every override back *)

Lemma restoring_ret : restoring ret.
Proof. by intros w w' [= <-]. Qed.

Lemma restoring_seq m k : restoring m → restoring k → restoring (m ;;; k).
Proof.
  intros Hm Hk w w'. unfold seq. destruct (m w) as [[] w1] eqn:E; try done.
  intros H x. rewrite (Hk _ _ H). by apply Hm.
Qed.

Lemma with_dsp_with_dsp d d' x : with_dsp d (with_dsp d' x) = with_dsp d x.
Proof. done. Qed.

Lemma restoring_scoped o d (m : M) :
  restoring m →
  ∀ w w1, m (upd o (with_dsp d) w) = (Normal, w1) →
  ∀ x, get (upd o (with_dsp (o_dsp (get w o))) w1) x = get w x.
Proof.
  intros Hm w w1 E x. specialize (Hm _ _ E).
  destruct (decide (o = x)) as [->|Hne].
  - rewrite get_upd_eq, Hm, get_upd_eq, with_dsp_with_dsp. apply with_dsp_get.
  - rewrite get_upd_ne, Hm, get_upd_ne; done.
Qed.

Lemma restoring_decorate o hk body : restoring body → restoring (decorate o hk body).
Proof.
  intros Hb w w'. unfold decorate.
  destruct (body _) as [r1 w1] eqn:E. intros [= -> <-].
  by eapply restoring_scoped.
Qed.

Lemma interpreter_restoring n :
  (∀ o h args ctx, restoring (dispatch n o h args ctx))
  ∧ (∀ d h args ctx, restoring (invoke n d h args ctx))
  ∧ (∀ cbs ctx args, restoring (call_all n cbs ctx args))
  ∧ (∀ c this args, restoring (call n c this args))
  ∧ (∀ body this, restoring (exec n body this)).
Proof.
  induction n as [|n (IHd & IHi & IHa & IHc & IHe)].
  { split_and!; by intros. }
  split_and!.
  - intros o h args ctx w w'. rewrite dispatch_S.
    assert (restoring
      (λ w, match o_cb (get w o) ≫= (.!! h) with
            | Some cbs => call_all n cbs (default o ctx) args w
            | None => (Normal, w)
            end)) as H2.
    { intros w0 w0'. destruct (o_cb (get w0 o) ≫= (.!! h)); [apply IHa | by intros [= <-]]. }
    assert (restoring
      (λ w, match o_scope (get w o) with
            | PApi sc => dispatch n sc h args (Some (default o ctx)) w
            | _ =>
              match o_type (get w o) with
              | PApi t => dispatch n t h args (Some (default o ctx)) w
              | PPlain => (Throw VTypeError, w)
              | PNone => (Normal, w)
              end
            end)) as H3.
    { intros w0 w0'.
      destruct (o_scope (get w0 o)); [destruct (o_type (get w0 o)) ..|];
        try apply IHd; try done; by intros [= <-]. }
    unfold seq.
    destruct (o_dsp (get w o)) as [d|] eqn:Ed.
    + destruct (invoke n d h args (default o ctx) (upd o (with_dsp None) w))
        as [[] w1] eqn:E1; try done.
      destruct (match o_cb (get w1 o) ≫= _ with Some _ => _ | None => _ end)
        as [[] w2] eqn:E2; try done.
      destruct (match o_scope (get w2 o) with PApi _ => _ | _ => _ end)
        as [[] w3] eqn:E3; try done.
      intros [= <-] x.
      assert (get w3 x = get (upd o (with_dsp None) w) x) as Hg.
      { rewrite (H3 _ _ E3), (H2 _ _ E2). by apply (IHi _ _ _ _ _ _ E1). }
      destruct (decide (o = x)) as [->|Hne].
      * rewrite get_upd_eq, Hg, get_upd_eq, with_dsp_with_dsp, <- Ed. apply with_dsp_get.
      * rewrite get_upd_ne, Hg, get_upd_ne; done.
    + unfold ret.
      destruct (match o_cb (get w o) ≫= _ with Some _ => _ | None => _ end)
        as [[] w2] eqn:E2; try done.
      destruct (match o_scope (get w2 o) with PApi _ => _ | _ => _ end)
        as [[] w3] eqn:E3; try done.
      intros [= <-] x.
      assert (get w3 x = get w x) as Hg by (by rewrite (H3 _ _ E3), (H2 _ _ E2)).
      destruct (decide (o = x)) as [->|Hne].
      * rewrite get_upd_eq, Hg, <- Ed. apply with_dsp_get.
      * by rewrite get_upd_ne, Hg.
  - intros d h args ctx w w'. rewrite invoke_S.
    destruct d as [f|old m]; [apply IHc|].
    apply (restoring_seq
             (match old with Some od => invoke n od h args ctx | None => ret end)
             (match m !! h with
              | Some extraCb => call n extraCb (Some ctx) args
              | None =>
                match inherited h with
                | Some MObject | Some MDefine => λ w, (Throw VTypeError, w)
                | Some MPure | None => ret
                end
              end)).
    + destruct old; [apply IHi | apply restoring_ret].
    + destruct (m !! h); [apply IHc|].
      destruct (inherited h) as [[]|]; (apply restoring_ret || by intros w0 w0').
  - intros cbs ctx args w w'. rewrite call_all_S.
    destruct cbs as [|c rest]; [by intros [= <-]|].
    apply (restoring_seq (call n c (Some ctx) args) (call_all n rest ctx args));
      [apply IHc | apply IHa].
  - intros c this args w w'. rewrite call_S. intros H x.
    by rewrite (IHe _ _ _ _ H).
  - intros body this w w'. rewrite exec_S.
    destruct body as [|a rest]; [by intros [= <-]|].
    match goal with |- (?m ;;; ?k) w = _ → _ => apply (restoring_seq m k) end;
      [|apply IHe].
    destruct a as [|h args|hk b|e], this as [o|]; try done.
    + by intros w0 w0' [= <-].
    + apply restoring_decorate, IHe.
Qed.

Lemma dispatch_restoring n o h args ctx : restoring (dispatch n o h args ctx).
Proof. apply interpreter_restoring. Qed.

Lemma invoke_restoring n d h args ctx : restoring (invoke n d h args ctx).
Proof. apply interpreter_restoring. Qed.

(** ** The order of a dispatch *)

Lemma on_normal o h f w :
  inherited h = None → on o h f w = (Normal, pushed o h f w).
Proof.
  intros Hh. unfold on, pushed, registered. rewrite Hh.
  destruct (o_cb (get w o)) as [m|]; simpl.
  - by destruct (m !! h).
  - by rewrite lookup_empty.
Qed.

Lemma on_inherited o h f w x :
  o_cb (get w o) ≫= (.!! h) = None → inherited h = Some x →
  on o h f w = (Throw VTypeError, upd o (with_cb (Some (default ∅ (o_cb (get w o))))) w).
Proof.
  intros Hn Hh. unfold on. rewrite Hh.
  destruct (o_cb (get w o)) as [m|]; simpl in *.
  - by rewrite Hn.
  - by rewrite lookup_empty.
Qed.

Lemma registered_pushed o h f w :
  registered (get (pushed o h f w) o) h = registered (get w o) h ++ [f].
Proof.
  unfold pushed. rewrite get_upd_eq. unfold registered at 1. simpl.
  by rewrite lookup_insert_eq.
Qed.

(** A hook name under which every plain object inherits a property, on
    the store [scoped].  Registering a callback under [toString] throws a
    TypeError and registers nothing.  A dispatch of [__proto__] on an
    object inside a decorated context opened with a mapping that has no
    such entry throws a TypeError in the override: nothing bubbles to the
    scope, whose override a dispatch of any other hook would visit. *)
Lemma dispatch_inherited_hook_name :
  quiet_world scoped ∧ chain_ok 2 scoped 0 = true ∧ cost 2 scoped 0 "__proto__" ≤ 20
  ∧ visits 2 scoped 0 "__proto__" [] 0 = [ECall 9 None []]
  ∧ dispatch 20 0 "__proto__" [] None scoped
    = (Throw VTypeError, upd 0 (with_dsp None) scoped)
  ∧ dispatch 20 0 "load" [] None scoped = (Normal, emits [ECall 9 None []] scoped)
  ∧ on 0 "toString" (Callback 2 []) scoped
    = (Throw VTypeError, upd 0 (with_cb (Some ∅)) scoped)
  ∧ registered (get (on 0 "toString" (Callback 2 []) scoped).2 0) "toString" = [].
Proof.
  split_and!; try (vm_compute; reflexivity).
  - unfold quiet_world. apply (bool_decide_unpack _). vm_compute. exact I.
  - vm_compute. lia.
Qed.

(** C4, for the hook names under which a plain object inherits nothing:
    a dispatch visits the active override if there is one, then the
    callbacks registered on the object for that hook in the order of
    their registration, then bubbles to the scope if it can dispatch and
    otherwise to the type if there is one, never to both; without
    override and without callbacks it still bubbles, and does nothing
    when there is nowhere to bubble to.  ([visits] spells this order out;
    the callbacks return at once, and the chain of scopes and types
    ends.)  A registration joins the callback to the end of the list. *)
Theorem dispatch_visits_in_order k w o h args ctx n :
  inherited h = None →
  quiet_world w → chain_ok k w o = true → cost k w o h ≤ n →
  dispatch n o h args ctx w
  = (Normal, emits (visits k w o h args (default o ctx)) w)
  ∧ ∀ f, on o h f w = (Normal, pushed o h f w)
         ∧ registered (get (pushed o h f w) o) h = registered (get w o) h ++ [f].
Proof.
  intros Hh Hq Hok Hn. split.
  - by apply dispatch_quiet.
  - intros f. split; [by apply on_normal | apply registered_pushed].
Qed.

Lemma dispatch_visits_in_order_witness :
  inherited "save" = None
  ∧ quiet_world family ∧ chain_ok 3 family 0 = true ∧ cost 3 family 0 "save" ≤ 30
  ∧ log (dispatch 30 0 "save" [VData 1] None family).2
    = [ECall 10 (Some 0) [VData 1]; ECall 11 (Some 0) [VData 1];
       ECall 12 (Some 0) [VData 1]; ECall 13 (Some 0) [VData 1];
       ECall 14 (Some 0) [VData 1]]
  ∧ registered (get (on 0 "save" (Callback 16 []) family).2 0) "save"
    = [Callback 11 []; Callback 12 []; Callback 16 []].
Proof.
  assert (inherited "save" = None) as Hh by (vm_compute; reflexivity).
  assert (quiet_world family) as Hq.
  { unfold quiet_world. apply (bool_decide_unpack _). vm_compute. exact I. }
  assert (chain_ok 3 family 0 = true) as Hok by (vm_compute; reflexivity).
  assert (cost 3 family 0 "save" ≤ 30) as Hn by (vm_compute; lia).
  destruct (dispatch_visits_in_order 3 family 0 "save" [VData 1] None 30 Hh Hq Hok Hn)
    as [Hd Ho].
  split_and!; [done..| |].
  - rewrite Hd. vm_compute. reflexivity.
  - destruct (Ho (Callback 16 [])) as [E1 E2]. rewrite E1.
    etrans; [exact E2|]. vm_compute. reflexivity.
Defined.

(** ** The override during a dispatch *)

Lemma upd_ext o f g w : f (get w o) = g (get w o) → upd o f w = upd o g w.
Proof. intros H. unfold upd. by rewrite H. Qed.

(** An override that throws: the dispatch ends with the exception, and
    [$$dsp], which held the override, is left cleared. *)
Lemma dispatch_throw_keeps_cleared :
  (dispatch 10 0 "save" [] None throwing).1 = Throw (VData 7)
  ∧ o_dsp (get throwing 0) = Some thrower
  ∧ o_dsp (get (dispatch 10 0 "save" [] None throwing).2 0) = None.
Proof. vm_compute. done. Qed.

(** C5, as the code has it: an active override is cleared before it is
    invoked, so that a dispatch from within the override finds no
    override; it stays cleared while the registered callbacks run and
    the hook bubbles, and it is put back when the dispatch completes.
    When the override does not complete, the dispatch ends there and
    puts nothing back. *)
Theorem dispatch_override_discipline n o h args ctx w d :
  o_dsp (get w o) = Some d →
  o_dsp (get (upd o (with_dsp None) w) o) = None
  ∧ (∀ w1, invoke n d h args (default o ctx) (upd o (with_dsp None) w) = (Normal, w1) →
       o_dsp (get w1 o) = None
       ∧ dispatch (S n) o h args ctx w
         = (let '(r, w2) := dispatch (S n) o h args ctx w1 in
            (r, match r with Normal => upd o (with_dsp (Some d)) w2 | _ => w2 end)))
  ∧ (∀ r1 w1, invoke n d h args (default o ctx) (upd o (with_dsp None) w) = (r1, w1) →
       r1 ≠ Normal → dispatch (S n) o h args ctx w = (r1, w1))
  ∧ (∀ w', dispatch (S n) o h args ctx w = (Normal, w') → o_dsp (get w' o) = Some d).
Proof.
  intros Hd. split_and!.
  - by rewrite get_upd_eq.
  - intros w1 E1.
    assert (o_dsp (get w1 o) = None) as Hn.
    { rewrite (invoke_restoring _ _ _ _ _ _ _ E1). by rewrite get_upd_eq. }
    split; [done|].
    rewrite !dispatch_S, Hd, Hn.
    erewrite seq_normal by exact E1. rewrite seq_ret.
    unfold seq.
    destruct (match o_cb (get w1 o) ≫= _ with Some _ => _ | None => _ end)
      as [[] w2]; try done.
    destruct (match o_scope (get w2 o) with PApi _ => _ | _ => _ end)
      as [[] w3]; try done.
    by rewrite upd_upd.
  - intros r1 w1 E1 Hr. rewrite dispatch_S, Hd. unfold seq at 1. rewrite E1.
    by destruct r1.
  - intros w' E. rewrite (dispatch_restoring _ _ _ _ _ _ _ E). done.
Qed.

Lemma dispatch_override_discipline_witness :
  o_dsp (get echoing 0) = Some again
  ∧ log (dispatch 10 0 "save" [] None echoing).2
    = [ECall 1 (Some 0) []; ECall 2 (Some 0) []; ECall 2 (Some 0) []]
  ∧ o_dsp (get (dispatch 10 0 "save" [] None echoing).2 0) = Some again.
Proof.
  split; [reflexivity|]. split; [vm_compute; reflexivity|].
  apply (dispatch_override_discipline 9 0 "save" [] None echoing again eq_refl).
  vm_compute. reflexivity.
Defined.

(** ** The decorated context *)

Lemma visits_dsp k w o d h args c :
  chain_ok k w o = true →
  visits k (upd o (with_dsp d) w) o h args c
  = from_option (λ f, ovisits f h args c) [] d
    ++ visits k (upd o (with_dsp None) w) o h args c.
Proof.
  intros Hok.
  destruct (chain_ok_min k w o Hok) as (k0 & Hle & Hok0 & Hmin).
  assert (is_Some (objs w !! o)) as Ha.
  { destruct k0; [done|]. cbn [chain_ok] in Hok0.
    apply andb_true_iff in Hok0 as [Ha _]. by apply bool_decide_eq_true in Ha. }
  assert (∀ d', visits k (upd o (with_dsp d') w) o h args c
                = visits k0 (upd o (with_dsp d') w) o h args c) as Hst.
  { intros d'. apply visits_stable; [|done].
    by rewrite chain_ok_upd by (apply keeps_links_dsp || done). }
  rewrite !Hst. destruct k0 as [|k0]; [done|].
  cbn [visits]. rewrite !get_upd_eq. simpl.
  f_equal. f_equal.
  assert (∀ j, j ≤ k0 → chain_ok j w o = false) as Hoff by (intros; apply Hmin; lia).
  cbn [chain_ok] in Hok0. apply andb_true_iff in Hok0 as [_ Hp].
  change (o_scope (with_dsp d (get w o))) with (o_scope (get w o)).
  change (o_type (with_dsp d (get w o))) with (o_type (get w o)).
  destruct (o_scope (get w o)) as [| |sc]; [destruct (o_type (get w o)) as [| |t] ..|];
    try done.
  - destruct (visits_upd_off k0 o (with_dsp d) w t h args c) as [-> _];
      [apply keeps_links_dsp | done..|].
    by destruct (visits_upd_off k0 o (with_dsp None) w t h args c) as [-> _];
      [apply keeps_links_dsp | done..|].
  - destruct (visits_upd_off k0 o (with_dsp d) w t h args c) as [-> _];
      [apply keeps_links_dsp | done..|].
    by destruct (visits_upd_off k0 o (with_dsp None) w t h args c) as [-> _];
      [apply keeps_links_dsp | done..|].
  - destruct (visits_upd_off k0 o (with_dsp d) w sc h args c) as [-> _];
      [apply keeps_links_dsp | done..|].
    by destruct (visits_upd_off k0 o (with_dsp None) w sc h args c) as [-> _];
      [apply keeps_links_dsp | done..|].
Qed.

Lemma chain_ok_alloc k w o : chain_ok k w o = true → is_Some (objs w !! o).
Proof.
  destruct k; [done|]. cbn [chain_ok]. intros H.
  apply andb_true_iff in H as [Ha _]. by apply bool_decide_eq_true in Ha.
Qed.

(** A dispatcher function given to [$decorate] while an override is
    active: a dispatch in the body invokes the function only.  And a
    mapping given to [$decorate] on an object without override: a
    dispatch of [__proto__], for which the mapping has no entry, throws a
    TypeError all the same. *)
Lemma decorate_function_replaces :
  o_dsp (get decorated 0) = Some outer
  ∧ decorate 0 (HFun inner) (dispatch 10 0 "save" [] None) decorated
    = (Normal, emits [ECall 2 (Some 0) []] decorated)
  ∧ o_dsp (get lone 0) = None
  ∧ ({[ "save" := Callback 2 [] ]} : gmap string callback) !! "__proto__" = None
  ∧ decorate 0 (HMap {[ "save" := Callback 2 [] ]}) (dispatch 10 0 "__proto__" [] None) lone
    = (Throw VTypeError, lone).
Proof. vm_compute. done. Qed.

(** C6, as the code has it: for the time of the body the override is the
    one given; a mapping is composed with the override that was active
    (which is invoked first, then the mapping's entry for the hook, if
    there is one, for the hook names under which a plain object inherits
    nothing), while an override function or a falsy value takes the
    place of the active override; the override that was active is back
    when the body has completed or thrown. *)
Theorem decorate_scoped :
  (∀ o hk body w r w',
     decorate o hk body w = (r, w') → o_dsp (get w' o) = o_dsp (get w o))
  ∧ (∀ k o hk h args n w,
       inherited h = None →
       quiet_world (upd o (with_dsp (new_dispatcher hk (o_dsp (get w o)))) w) →
       chain_ok k w o = true →
       cost k (upd o (with_dsp (new_dispatcher hk (o_dsp (get w o)))) w) o h ≤ n →
       decorate o hk (dispatch n o h args None) w
       = (Normal,
          emits (match hk with
                 | HMap m =>
                   from_option (λ d, ovisits d h args o) [] (o_dsp (get w o))
                   ++ entry m h o args
                 | HFun d => ovisits d h args o
                 | HFalsy => []
                 end ++ visits k (upd o (with_dsp None) w) o h args o) w)).
Proof.
  split.
  - intros o hk body w r w'. unfold decorate.
    destruct (body _) as [r1 w1]. intros [= _ <-]. by rewrite get_upd_eq.
  - intros k o hk h args n w Hh Hq Hok Hn.
    pose proof (chain_ok_alloc _ _ _ Hok) as Ha.
    unfold decorate. rewrite (dispatch_quiet k); [| done | | done | done].
    + rewrite upd_emits, upd_upd.
      rewrite (upd_same o (λ x, with_dsp (o_dsp (get w o)) (with_dsp _ x)) w);
        [| done | cbv beta; rewrite with_dsp_with_dsp; apply with_dsp_get].
      rewrite visits_dsp by done.
      do 2 f_equal. by destruct hk as [|d|m].
    + by rewrite chain_ok_upd by (apply keeps_links_dsp || done).
Qed.

Lemma decorate_scoped_witness :
  o_dsp (get (decorate 0 (HMap {[ "save" := Callback 2 [] ]})
                (exec 10 [ADispatch "save" []; AThrow VNull] (Some 0)) decorated).2 0)
  = Some outer
  ∧ inherited "save" = None
  ∧ decorate 0 (HMap {[ "save" := Callback 2 [] ]}) (dispatch 10 0 "save" [] None) decorated
    = (Normal, emits [ECall 1 (Some 0) []; ECall 2 (Some 0) []] decorated).
Proof.
  split; [|split; [vm_compute; reflexivity|]].
  - apply (proj1 decorate_scoped 0 (HMap {[ "save" := Callback 2 [] ]})
             (exec 10 [ADispatch "save" []; AThrow VNull] (Some 0)) decorated
             (Throw VNull)).
    vm_compute. reflexivity.
  - rewrite (proj2 decorate_scoped 1 0 (HMap {[ "save" := Callback 2 [] ]}) "save" [] 10).
    + vm_compute. reflexivity.
    + vm_compute. reflexivity.
    + unfold quiet_world. apply (bool_decide_unpack _). vm_compute. exact I.
    + vm_compute. reflexivity.
    + vm_compute. lia.
Defined.

(** ** Chaining on an object without a chain *)

Lemma performRequest_no_value n c s v s' : performRequest n c s ≠ (RValue v, s').
Proof.
  unfold performRequest. case_decide; [done|].
  destruct (lift _ s) as [[] s0]; [|done..].
  by destruct (http _ _) as [t s2], (then_ _ _ _ _) as [d s3].
Qed.

(** C9: [$then] and [$finally] call a method of [$promise].  On an object
    whose [$promise] is absent they throw a TypeError and change nothing,
    while on an object whose [$promise] holds a promise they complete
    and move [$promise] on.  After [$cancel], which resets [$promise],
    they throw whether or not the object had a chain, until a [$send]
    that completes has given the object a chain again. *)
Theorem chaining_needs_a_chain o f g c s :
  (truthy (o_promise (get (st_world s) o)) = false →
   then' o f g s = (Throw VTypeError, s) ∧ finally o c s = (Throw VTypeError, s))
  ∧ (∀ p, o_promise (get (st_world s) o) = Val p →
       (∃ s1, then' o f g s = (Normal, s1)
              ∧ o_promise (get (st_world s1) o) = Val (length (proms s)))
       ∧ (∃ s1, finally o c s = (Normal, s1)
                ∧ o_promise (get (st_world s1) o) = Val (length (proms s))))
  ∧ then' o f g (cancel o s) = (Throw VTypeError, cancel o s)
  ∧ finally o c (cancel o s) = (Throw VTypeError, cancel o s)
  ∧ (∀ n r succ err s2,
       send n o r succ err (cancel o s) = (Normal, s2) →
       truthy (o_promise (get (st_world s2) o)) = true).
Proof.
  assert (o_promise (get (st_world (cancel o s)) o) = Null) as Hc.
  { unfold cancel, on_self. simpl. by rewrite get_upd_eq. }
  split_and!.
  - intros H. unfold then', finally. by destruct (o_promise (get (st_world s) o)).
  - intros p Hp. unfold then', finally. rewrite Hp. split.
    + destruct (then_ p (user f) (user g) s) as [d s1] eqn:E.
      eexists. split; [reflexivity|]. unfold on_self. simpl. rewrite get_upd_eq. simpl.
      unfold then_ in E. simpl in E. by injection E as <- _.
    + destruct (then_ p (HFinally c) (HFinally c) s) as [d s1] eqn:E.
      eexists. split; [reflexivity|]. unfold on_self. simpl. rewrite get_upd_eq. simpl.
      unfold then_ in E. simpl in E. by injection E as <- _.
  - unfold then'. by rewrite Hc.
  - unfold finally. by rewrite Hc.
  - intros n r succ err s2. unfold send.
    set (s0 := on_self o _ (cancel o s)).
    assert (o_promise (get (st_world s0) o) = Null) as ->.
    { unfold s0, on_self. simpl. rewrite get_upd_eq. simpl. exact Hc. }
    destruct (performRequest n _ s0) as [x s1] eqn:E.
    destruct x as [v|p|e|]; intros [= <-].
    + by destruct (performRequest_no_value _ _ _ _ _ E).
    + unfold on_self. simpl. by rewrite get_upd_eq.
Qed.

Lemma chaining_needs_a_chain_witness :
  truthy (o_promise (get (st_world (init family)) 0)) = false
  ∧ then' 0 (Some (Callback 1 [])) None (init family) = (Throw VTypeError, init family)
  ∧ o_promise (get (st_world two_queued) 0) = Val 2
  ∧ (∃ s1, then' 0 (Some (Callback 1 [])) None two_queued = (Normal, s1)
           ∧ o_promise (get (st_world s1) 0) = Val 3)
  ∧ then' 0 (Some (Callback 1 [])) None (cancel 0 two_queued)
    = (Throw VTypeError, cancel 0 two_queued)
  ∧ finally 0 (Callback 1 []) (cancel 0 two_queued)
    = (Throw VTypeError, cancel 0 two_queued).
Proof.
  destruct (chaining_needs_a_chain 0 (Some (Callback 1 [])) None (Callback 1 [])
              (init family)) as (H1 & _).
  destruct (chaining_needs_a_chain 0 (Some (Callback 1 [])) None (Callback 1 [])
              two_queued) as (_ & H2 & H3 & H4 & _).
  split; [reflexivity|]. split; [exact (proj1 (H1 eq_refl))|].
  split; [vm_compute; reflexivity|].
  split; [exact (proj1 (H2 2 ltac:(vm_compute; reflexivity)))|].
  split; [exact H3 | exact H4].
Defined.

(** ** Basic facts about the promise store *)

Lemma subscribe_fields p r s :
  st_world (subscribe p r s) = st_world s
  ∧ canceled (subscribe p r s) = canceled s
  ∧ inflight (subscribe p r s) = inflight s.
Proof. unfold subscribe. by destruct (proms s !! p) as [[]|]. Qed.

Lemma settle_fields p out s :
  st_world (settle p out s) = st_world s
  ∧ canceled (settle p out s) = canceled s
  ∧ inflight (settle p out s) = inflight s.
Proof. unfold settle. by destruct (proms s !! p) as [[]|]. Qed.

Lemma st_world_subscribe p r s : st_world (subscribe p r s) = st_world s.
Proof. apply subscribe_fields. Qed.

Lemma st_world_settle p out s : st_world (settle p out s) = st_world s.
Proof. apply settle_fields. Qed.

(** ** What a [before-request] hook can see *)

Lemma log_upd o f w : log (upd o f w) = log w.
Proof. reflexivity. Qed.

(** C10: when an operation that is not canceled starts, [$response] is
    reset to null and [$error] to false before [before-request] is
    dispatched: whatever a callback reads of the object during that
    dispatch, it is not the answer of an earlier operation. *)
Theorem before_request_sees_no_response n c s x s' :
  c_req c ∉ canceled s →
  performRequest n c s = (x, s') →
  ∃ l, log (st_world s') = log (st_world s) ++ l
       ∧ ∀ st resp err, EObs (c_self c) st resp err ∈ l → resp = VNull ∧ err = Some false.
Proof.
  intros Hc. unfold performRequest. rewrite decide_False by done.
  unfold lift, decorate.
  set (w0 := upd (c_self c) (with_dsp _) (st_world s)).
  erewrite seq_normal by reflexivity.
  set (w1 := upd (c_self c) (with_error (Some false)) (upd (c_self c) (with_response VNull) w0)).
  destruct (dispatch n (c_self c) "before-request" [VReq (c_req c)] None w1)
    as [r w2] eqn:E.
  destruct (dispatch_framed _ _ _ _ _ _ _ _ E) as [_ (l & El & Fl)].
  assert (∀ st resp err, EObs (c_self c) st resp err ∈ l → resp = VNull ∧ err = Some false)
    as Hobs.
  { intros st resp err Hin. rewrite Forall_forall in Fl.
    destruct (Fl _ Hin) as (_ & -> & ->). unfold w1. by rewrite !get_upd_eq. }
  destruct r; intros [= <- <-]; simpl.
  - exists (l ++ [EHttp (c_req c)]). split.
    + rewrite st_world_subscribe. simpl. rewrite El. unfold w1, w0. simpl.
      by rewrite app_assoc.
    + intros st resp err Hin. apply elem_of_app in Hin as [Hin|Hin]; [by eapply Hobs|].
      by apply list_elem_of_singleton in Hin.
  - exists l. by rewrite El.
  - exists l. by rewrite El.
Qed.

Lemma before_request_sees_no_response_witness :
  (5 ∉ canceled (init answered))
  ∧ o_response (get answered 0) = VData 9
  ∧ log (st_world (performRequest 10 (Closure 0 5 None None None) (init answered)).2)
    = [ECall 1 (Some 0) [VReq 5]; EObs 0 (Some StOk) VNull (Some false); EHttp 5]
  ∧ ∃ l, log (st_world (performRequest 10 (Closure 0 5 None None None) (init answered)).2)
         = log (st_world (init answered)) ++ l
         ∧ ∀ st resp err, EObs 0 st resp err ∈ l → resp = VNull ∧ err = Some false.
Proof.
  assert (5 ∉ canceled (init answered)) as Hc by set_solver.
  split_and!; [done | reflexivity | vm_compute; reflexivity |].
  apply (before_request_sees_no_response 10 (Closure 0 5 None None None) (init answered)
           (performRequest 10 (Closure 0 5 None None None) (init answered)).1 _ Hc).
  by destruct (performRequest _ _ _).
Defined.

(** ** Cancellation *)

Lemma canceled_subscribe p r s : canceled (subscribe p r s) = canceled s.
Proof. apply subscribe_fields. Qed.

Lemma canceled_settle p out s : canceled (settle p out s) = canceled s.
Proof. apply settle_fields. Qed.

Lemma lift_fields m s r s' :
  lift m s = (r, s') →
  canceled s' = canceled s ∧ proms s' = proms s ∧ jobs s' = jobs s
  ∧ inflight s' = inflight s ∧ m (st_world s) = (r, st_world s').
Proof.
  unfold lift. destruct (m (st_world s)) as [r1 w1]. by intros [= <- <-].
Qed.

Lemma performRequest_canceled n c s x s' :
  performRequest n c s = (x, s') → canceled s' = canceled s.
Proof.
  unfold performRequest. case_decide.
  - by intros [= _ <-].
  - destruct (lift _ s) as [r s1] eqn:E. apply lift_fields in E as (Ec & _).
    destruct r; intros [= _ <-]; simpl; by rewrite ?canceled_subscribe.
Qed.

Lemma httpOk_canceled n c v s x s' :
  httpOk n c v s = (x, s') → canceled s' = canceled s.
Proof.
  unfold httpOk. case_decide.
  - by intros [= _ <-].
  - destruct (lift _ s) as [r s1] eqn:E. apply lift_fields in E as (Ec & _).
    by destruct r; intros [= _ <-].
Qed.

Lemma httpErr_canceled n c v s x s' :
  httpErr n c v s = (x, s') → canceled s' = canceled s.
Proof.
  unfold httpErr. case_decide.
  - by intros [= _ <-].
  - destruct (lift _ s) as [r s1] eqn:E. apply lift_fields in E as (Ec & _).
    by destruct r; intros [= _ <-].
Qed.

Lemma run_handler_canceled n h out s x s' :
  run_handler n h out s = (x, s') → canceled s' = canceled s.
Proof.
  destruct h; simpl.
  - by intros [= _ <-].
  - apply performRequest_canceled.
  - apply httpOk_canceled.
  - apply httpErr_canceled.
  - destruct (lift _ s) as [r s1] eqn:E. apply lift_fields in E as (Ec & _).
    by intros [= _ <-].
  - destruct (lift _ s) as [r s1] eqn:E. apply lift_fields in E as (Ec & _).
    by intros [= _ <-].
Qed.

Lemma resolve_with_canceled d x s : canceled (resolve_with d x s) = canceled s.
Proof. destruct x; simpl; by rewrite ?canceled_settle, ?canceled_subscribe. Qed.

Lemma step_canceled n o i s r s' :
  step n o i s = (r, s') → canceled s ⊆ canceled s'.
Proof.
  destruct i; simpl.
  - unfold send.
    destruct (o_promise _) as [| |p].
    + destruct (performRequest _ _ _) as [x s2] eqn:E.
      apply performRequest_canceled in E.
      destruct x; intros [= _ <-]; simpl; by rewrite E.
    + destruct (performRequest _ _ _) as [x s2] eqn:E.
      apply performRequest_canceled in E.
      destruct x; intros [= _ <-]; simpl; by rewrite E.
    + intros [= _ <-]. simpl. by rewrite canceled_subscribe.
  - intros [= _ <-]. unfold cancel. simpl.
    destruct (o_pending _); simpl; set_solver.
  - unfold then'. destruct (o_promise _); intros [= _ <-]; try done.
    simpl. by rewrite canceled_subscribe.
  - unfold finally. destruct (o_promise _); intros [= _ <-]; try done.
    simpl. by rewrite canceled_subscribe.
  - unfold tick. destruct (jobs s) as [|[rx out] js]; [by intros [= _ <-]|].
    destruct (run_handler _ _ _ _) as [x s1] eqn:E.
    apply run_handler_canceled in E. intros [= _ <-].
    by rewrite resolve_with_canceled, E.
  - intros [= _ <-]. unfold answer. case_decide; [|done].
    by rewrite canceled_settle.
Qed.

Lemma run_canceled n o ins : ∀ s s',
  run n o ins s = Some s' → canceled s ⊆ canceled s'.
Proof.
  induction ins as [|i ins IH]; intros s s'; simpl.
  - by intros [= <-].
  - destruct (step n o i s) as [r s1] eqn:E. apply step_canceled in E.
    destruct r; try done; intros H; apply IH in H; set_solver.
Qed.

Lemma settle_pending d rs out s :
  proms s !! d = Some (Pending rs) →
  proms (settle d out s) !! d = Some (Settled out).
Proof.
  intros H. unfold settle. rewrite H. simpl.
  apply list_lookup_insert_eq. by eapply lookup_lt_Some.
Qed.

(** C2: [$cancel] marks every configuration in [$pending]; a marked
    configuration stays marked; and whatever the transport answers for a
    marked configuration, fulfilled or rejected, the job that handles the
    answer records nothing (no hook, no callback), sets the status to
    canceled and fulfils the promise of the operation with the object.
    An operation that was still waiting for its turn does the same
    without calling the transport. *)
Theorem cancel_settles_as_canceled o s l r :
  o_pending (get (st_world s) o) = Val l → r ∈ l →
  r ∈ canceled (cancel o s)
  ∧ (∀ n o' ins s2 s3, r ∈ canceled s2 → run n o' ins s2 = Some s3 → r ∈ canceled s3)
  ∧ (∀ n c d out js rs s2,
       c_req c = r → r ∈ canceled s2 →
       jobs s2 = (Reaction (HHttpOk c) (HHttpErr c) d, out) :: js →
       proms s2 !! d = Some (Pending rs) →
       ∃ s3, tick n s2 = (Normal, s3)
             ∧ log (st_world s3) = log (st_world s2)
             ∧ o_status (get (st_world s3) (c_self c)) = Some StCanceled
             ∧ proms s3 !! d = Some (Settled (Fulfilled (VObj (c_self c)))))
  ∧ (∀ n c d out js s2,
       c_req c = r → r ∈ canceled s2 →
       jobs s2 = (Reaction (HPerform c) (HPerform c) d, out) :: js →
       ∃ s3, tick n s2 = (Normal, s3)
             ∧ log (st_world s3) = log (st_world s2)
             ∧ inflight s3 = inflight s2
             ∧ o_status (get (st_world s3) (c_self c)) = Some StCanceled
             ∧ jobs s3 = js ++ [(Reaction HNone HNone d, Fulfilled (VObj (c_self c)))]).
Proof.
  intros Hl Hr. split_and!.
  - unfold cancel. rewrite Hl. simpl. set_solver.
  - intros n o' ins s2 s3 H2 Hrun. apply run_canceled in Hrun. set_solver.
  - intros n c d out js rs s2 <- Hc Hj Hd. unfold tick. rewrite Hj.
    assert (run_handler n (pick (Reaction (HHttpOk c) (HHttpErr c) d) out) out
              (State (st_world s2) (canceled s2) (proms s2) js (inflight s2))
            = (RValue (VObj (c_self c)),
               on_self (c_self c) (with_status (Some StCanceled))
                 (State (st_world s2) (canceled s2) (proms s2) js (inflight s2)))) as E.
    { destruct out; simpl; unfold httpOk, httpErr; simpl;
        by rewrite decide_True by done. }
    rewrite E. eexists. split; [reflexivity|]. simpl.
    rewrite st_world_settle. simpl. split_and!; [done | by rewrite get_upd_eq |].
    by eapply settle_pending.
  - intros n c d out js s2 <- Hc Hj. unfold tick. rewrite Hj.
    assert (pick (Reaction (HPerform c) (HPerform c) d) out = HPerform c) as ->
      by by destruct out.
    simpl. unfold performRequest. simpl. rewrite decide_True by done. simpl.
    eexists. split; [reflexivity|].
    unfold subscribe. simpl.
    rewrite lookup_app_r by done. rewrite Nat.sub_diag. simpl.
    split_and!; [done | done | by rewrite get_upd_eq | done].
Qed.

Lemma cancel_settles_as_canceled_witness :
  let s := (send 10 0 7 None None (init lone)).2 in
  o_pending (get (st_world s) 0) = Val [7]
  ∧ 7 ∈ canceled (cancel 0 s)
  ∧ ∃ s3, tick 10 (answer 0 (Rejected (VData 4)) (cancel 0 s)) = (Normal, s3)
          ∧ log (st_world s3) = log (st_world (answer 0 (Rejected (VData 4)) (cancel 0 s)))
          ∧ o_status (get (st_world s3) 0) = Some StCanceled
          ∧ proms s3 !! 1 = Some (Settled (Fulfilled (VObj 0))).
Proof.
  intros s.
  assert (o_pending (get (st_world s) 0) = Val [7]) as Hp by (vm_compute; reflexivity).
  assert (7 ∈ [7]) as Hin by set_solver.
  destruct (cancel_settles_as_canceled 0 s [7] 7 Hp Hin) as (H1 & _ & H3 & _).
  split_and!; [done | done |].
  apply (H3 10 (Closure 0 7 None None None) 1 (Rejected (VData 4)) [] []
           (answer 0 (Rejected (VData 4)) (cancel 0 s))).
  - reflexivity.
  - vm_compute. set_solver.
  - vm_compute. reflexivity.
  - vm_compute. reflexivity.
Defined.

(** ** The three functions of [performRequest] among quiet callbacks *)

Lemma visits_hooks_eq k : ∀ w w' o h args c,
  hooks_eq w w' →
  visits k w o h args c = visits k w' o h args c ∧ cost k w o h = cost k w' o h.
Proof.
  induction k as [|k IH]; [done|]. intros w w' o h args c H.
  cbn [visits cost]. unfold registered.
  destruct (H o) as (-> & -> & -> & ->).
  destruct (o_scope (get w' o)) as [| |sc]; [destruct (o_type (get w' o)) as [| |t] ..|];
    try done.
  - destruct (IH w w' t h args c H) as [-> ->]. done.
  - destruct (IH w w' t h args c H) as [-> ->]. done.
  - destruct (IH w w' sc h args c H) as [-> ->]. done.
Qed.

Lemma hooks_eq_clear o f w :
  keeps_hooks f →
  hooks_eq (upd o (with_dsp None) (upd o f w)) (upd o (with_dsp None) w).
Proof.
  intros Hf x. destruct (decide (o = x)) as [->|Hne].
  - rewrite !get_upd_eq. destruct (Hf (get w x)) as (_ & ? & ? & ?). done.
  - by rewrite !get_upd_ne.
Qed.

Lemma fired_upd k o f w d h args :
  keeps_hooks f → fired k (upd o f w) o d h args = fired k w o d h args.
Proof.
  intros Hf. unfold fired. f_equal.
  by apply visits_hooks_eq, hooks_eq_clear.
Qed.

Lemma fired_upd_dsp k o d' w d h args :
  fired k (upd o (with_dsp d') w) o d h args = fired k w o d h args.
Proof. unfold fired. by rewrite upd_upd. Qed.

Lemma fired_emits k l w o d h args : fired k (emits l w) o d h args = fired k w o d h args.
Proof. unfold fired. f_equal. by apply visits_objs. Qed.

Lemma quiet_obj_keeps f x : keeps_hooks f → quiet_obj (f x) = quiet_obj x.
Proof. intros Hf. unfold quiet_obj. by destruct (Hf x) as (-> & -> & _). Qed.

Lemma alloc_upd_same o f w : is_Some (objs (upd o f w) !! o).
Proof. unfold upd; simpl. rewrite lookup_insert_eq. eauto. Qed.

(** A dispatch followed by an optional callback, on an object whose
    override is [d]. *)
Lemma hooks_quiet k n o h args cb args2 w :
  quiet_world w → chain_ok k w o = true → cost k w o h ≤ n →
  from_option quiet true cb = true → inherited h = None →
  (dispatch n o h args None ;;; opt_call n cb o args2) w
  = (Normal, emits (fired k w o (o_dsp (get w o)) h args ++ called cb o args2) w).
Proof.
  intros Hq Hok Hn Hcb Hh.
  erewrite seq_normal by (by apply (dispatch_quiet k)).
  assert (2 ≤ n) as H2.
  { destruct k; [done|]. cbn [cost] in Hn. lia. }
  assert (visits k w o h args (default o None) = fired k w o (o_dsp (get w o)) h args) as ->.
  { unfold fired. rewrite <- visits_dsp by done.
    rewrite upd_same; [done | by eapply chain_ok_alloc | apply with_dsp_get]. }
  destruct cb as [f|]; simpl in *.
  - rewrite call_quiet by done. by rewrite emits_emits.
  - unfold ret, called. simpl. by rewrite app_nil_r.
Qed.

(** The decorated context around a body that writes [f] to the object
    and records [l]. *)
Lemma decorate_as_hooks o d f l (body : M) w :
  (∀ d' x, f (with_dsp d' x) = with_dsp d' (f x)) →
  body (upd o (with_dsp d) w) = (Normal, emits l (upd o f (upd o (with_dsp d) w))) →
  decorate o (as_hooks d) body w = (Normal, emits l (upd o f w)).
Proof.
  intros Hf Hb. unfold decorate.
  assert (new_dispatcher (as_hooks d) (o_dsp (get w o)) = d) as -> by by destruct d.
  rewrite Hb. f_equal. rewrite upd_emits, !upd_upd. f_equal.
  apply upd_ext. rewrite Hf, with_dsp_with_dsp, <- Hf. f_equal. apply with_dsp_get.
Qed.

Lemma hooked_quiet k n o d f h args cb args2 w :
  keeps_hooks f → (∀ d' x, f (with_dsp d' x) = with_dsp d' (f x)) →
  quiet_world (upd o (with_dsp d) w) → chain_ok k w o = true →
  cost k (upd o (with_dsp d) w) o h ≤ n → from_option quiet true cb = true →
  inherited h = None →
  (dispatch n o h args None ;;; opt_call n cb o args2) (upd o f (upd o (with_dsp d) w))
  = (Normal, emits (fired k w o d h args ++ called cb o args2)
               (upd o f (upd o (with_dsp d) w))).
Proof.
  intros Hf Hcomm Hq Hok Hn Hcb Hh.
  pose proof (chain_ok_alloc _ _ _ Hok) as Ha.
  rewrite (hooks_quiet k); [| | | | done | done].
  - rewrite get_upd_eq. destruct (Hf (get (upd o (with_dsp d) w) o)) as (-> & _).
    rewrite get_upd_eq. simpl. rewrite fired_upd by done.
    by rewrite fired_upd_dsp.
  - apply quiet_world_upd; [done|]. rewrite quiet_obj_keeps by done.
    by apply quiet_world_get.
  - rewrite chain_ok_upd; [| by apply keeps_hooks_links | apply alloc_upd_same].
    by rewrite chain_ok_upd by (apply keeps_links_dsp || done).
  - by destruct (visits_upd_keep k o f (upd o (with_dsp d) w) o h [] 0 Hf) as [_ ->].
Qed.

Lemma started_keeps : keeps_hooks started.
Proof. by intros []. Qed.

Lemma answered_ok_keeps l r v : keeps_hooks (answered_ok l r v).
Proof. by intros []. Qed.

Lemma answered_err_keeps l r v : keeps_hooks (answered_err l r v).
Proof. by intros []. Qed.

Lemma insert_fresh_pair {A} (l : list A) (a b x : A) :
  <[length l := x]> ((l ++ [a]) ++ [b]) = l ++ [x; b].
Proof.
  rewrite <- app_assoc. simpl.
  rewrite insert_app_r_alt by done. by rewrite Nat.sub_diag.
Qed.

Lemma performRequest_quiet k n c s :
  let w := st_world s in
  let self := c_self c in
  c_req c ∉ canceled s →
  ready k n w self (c_dsp c) "before-request" →
  performRequest n c s
  = (RPromise (S (length (proms s))),
     State (emits (fired k w self (c_dsp c) "before-request" [VReq (c_req c)]
                   ++ [EHttp (c_req c)]) (upd self started w))
           (canceled s)
           (proms s ++ [Pending [Reaction (HHttpOk c) (HHttpErr c) (S (length (proms s)))];
                        Pending []])
           (jobs s)
           (inflight s ++ [(length (proms s), c_req c)])).
Proof.
  intros w self Hc (Hq & Hok & Hn). unfold performRequest. rewrite decide_False by done.
  unfold lift. fold self. fold w.
  rewrite (decorate_as_hooks self (c_dsp c) started
             (fired k w self (c_dsp c) "before-request" [VReq (c_req c)])).
  - unfold then_, http, alloc, subscribe. simpl.
    rewrite length_app. simpl. rewrite Nat.add_1_r.
    rewrite lookup_app_l by (rewrite length_app; simpl; lia).
    rewrite lookup_app_r by done. rewrite Nat.sub_diag. simpl.
    rewrite insert_fresh_pair. f_equal. f_equal.
    unfold emit, emits. simpl. by rewrite app_assoc.
  - by intros d' [].
  - erewrite seq_normal by reflexivity. rewrite upd_upd.
    change (λ x, with_error (Some false) (with_response VNull x)) with started.
    pose proof (hooked_quiet k n self (c_dsp c) started "before-request"
                  [VReq (c_req c)] None [] w started_keeps) as H.
    unfold opt_call, called in H. simpl in H.
    unfold seq in H. unfold ret in H.
    specialize (H ltac:(by intros d' []) Hq Hok Hn eq_refl eq_refl).
    destruct (dispatch n self "before-request" [VReq (c_req c)] None _) as [[] w1];
      try done.
    by rewrite app_nil_r in H.
Qed.

Lemma unpend_val o r reset l w :
  o_pending (get w o) = Val l →
  unpend o r reset w = (Normal, upd o (with_pending (unpended l r reset)) w).
Proof. intros H. unfold unpend. by rewrite H. Qed.

Lemma answered_ok_upd o l r v w :
  upd o (with_response v)
    (upd o (with_status (Some StOk)) (upd o (with_pending (unpended l r Undefined)) w))
  = upd o (answered_ok l r v) w.
Proof. by rewrite !upd_upd. Qed.

Lemma answered_err_upd o l r v w :
  upd o (with_response v)
    (upd o (with_status (Some StError)) (upd o (with_pending (unpended l r Null)) w))
  = upd o (answered_err l r v) w.
Proof. by rewrite !upd_upd. Qed.

Lemma httpOk_quiet k n c v l s :
  let w := st_world s in
  let self := c_self c in
  c_req c ∉ canceled s →
  o_pending (get w self) = Val l →
  ready k n w self (c_dsp c) "after-request" →
  from_option quiet true (c_succ c) = true →
  httpOk n c v s
  = (RValue (VObj self),
     with_world (emits (fired k w self (c_dsp c) "after-request" [v]
                        ++ called (c_succ c) self [v])
                   (upd self (answered_ok l (c_req c) v) w)) s).
Proof.
  intros w self Hc Hl (Hq & Hok & Hn) Hcb. unfold httpOk. rewrite decide_False by done.
  unfold lift. fold self. fold w.
  rewrite (decorate_as_hooks self (c_dsp c) (answered_ok l (c_req c) v)
             (fired k w self (c_dsp c) "after-request" [v] ++ called (c_succ c) self [v])).
  - done.
  - by intros d' [].
  - erewrite seq_normal; cycle 1.
    { apply (unpend_val _ _ _ l). by rewrite get_upd_eq. }
    erewrite seq_normal by reflexivity. rewrite answered_ok_upd.
    apply (hooked_quiet k n self (c_dsp c) (answered_ok l (c_req c) v));
      try done; (apply answered_ok_keeps || by intros d' []).
Qed.

Lemma httpErr_quiet k n c v l s :
  let w := st_world s in
  let self := c_self c in
  c_req c ∉ canceled s →
  o_pending (get w self) = Val l →
  ready k n w self (c_dsp c) "after-request-error" →
  from_option quiet true (c_err c) = true →
  httpErr n c v s
  = (RPromise (length (proms s)),
     State (emits (fired k w self (c_dsp c) "after-request-error" [v]
                   ++ called (c_err c) self [v])
              (upd self (answered_err l (c_req c) v) w))
           (canceled s) (proms s ++ [Settled (Rejected (VObj self))])
           (jobs s) (inflight s)).
Proof.
  intros w self Hc Hl (Hq & Hok & Hn) Hcb. unfold httpErr. rewrite decide_False by done.
  unfold lift. fold self. fold w.
  rewrite (decorate_as_hooks self (c_dsp c) (answered_err l (c_req c) v)
             (fired k w self (c_dsp c) "after-request-error" [v]
              ++ called (c_err c) self [v])).
  - done.
  - by intros d' [].
  - erewrite seq_normal; cycle 1.
    { apply (unpend_val _ _ _ l). by rewrite get_upd_eq. }
    erewrite seq_normal by reflexivity. rewrite answered_err_upd.
    apply (hooked_quiet k n self (c_dsp c) (answered_err l (c_req c) v));
      try done; (apply answered_err_keeps || by intros d' []).
Qed.

(** ** The override an operation runs under *)

Lemma decorate_other_dsp o d d' body w :
  decorate o (as_hooks d) body (upd o (with_dsp d') w)
  = (let '(r, w1) := decorate o (as_hooks d) body w in (r, upd o (with_dsp d') w1)).
Proof.
  unfold decorate. rewrite get_upd_eq.
  assert (∀ old, new_dispatcher (as_hooks d) old = d) as E by (by destruct d).
  rewrite !E, upd_upd.
  change (λ x, with_dsp d (with_dsp d' x)) with (with_dsp d).
  destruct (body _) as [r w1]. by rewrite upd_upd.
Qed.

Lemma lift_decorate_other_dsp o d d' body s :
  lift (decorate o (as_hooks d) body) (on_self o (with_dsp d') s)
  = (let '(r, s1) := lift (decorate o (as_hooks d) body) s in
     (r, on_self o (with_dsp d') s1)).
Proof.
  unfold lift, on_self. simpl. rewrite decorate_other_dsp.
  by destruct (decorate _ _ _ _) as [r w1].
Qed.

Lemma performRequest_other_dsp n c d' s :
  performRequest n c (on_self (c_self c) (with_dsp d') s)
  = (let '(x, s') := performRequest n c s in (x, on_self (c_self c) (with_dsp d') s')).
Proof.
  unfold performRequest. simpl. case_decide.
  - unfold alloc, on_self, with_world. simpl. by rewrite !upd_upd.
  - rewrite lift_decorate_other_dsp.
    destruct (lift _ s) as [[] s1]; try done.
    unfold then_, http, alloc, subscribe, on_self, with_world. simpl.
    by destruct (_ !! _) as [[]|].
Qed.

Lemma httpOk_other_dsp n c v d' s :
  httpOk n c v (on_self (c_self c) (with_dsp d') s)
  = (let '(x, s') := httpOk n c v s in (x, on_self (c_self c) (with_dsp d') s')).
Proof.
  unfold httpOk. simpl. case_decide.
  - unfold on_self, with_world. simpl. by rewrite !upd_upd.
  - rewrite lift_decorate_other_dsp. by destruct (lift _ s) as [[] s1].
Qed.

Lemma httpErr_other_dsp n c v d' s :
  httpErr n c v (on_self (c_self c) (with_dsp d') s)
  = (let '(x, s') := httpErr n c v s in (x, on_self (c_self c) (with_dsp d') s')).
Proof.
  unfold httpErr. simpl. case_decide.
  - unfold on_self, with_world. simpl. by rewrite !upd_upd.
  - rewrite lift_decorate_other_dsp. by destruct (lift _ s) as [[] s1].
Qed.

(** C8: [$send] stores the override that is active when it is called in
    the operation it queues, firing no hook itself; when the operation
    runs, later, its three hooks are dispatched under that stored
    override, whatever override is active on the object by then, and the
    override active by then is left in place. *)
Theorem send_pins_override :
  (∀ n o r succ err s p rs,
     o_promise (get (st_world s) o) = Val p →
     proms s !! p = Some (Pending rs) →
     ∃ s', send n o r succ err s = (Normal, s')
           ∧ log (st_world s') = log (st_world s)
           ∧ proms s' !! p
             = Some (Pending
                 (rs ++ [Reaction
                           (HPerform (Closure o r (o_dsp (get (st_world s) o)) succ err))
                           (HPerform (Closure o r (o_dsp (get (st_world s) o)) succ err))
                           (length (proms s))])))
  ∧ (∀ n c d' out s h,
       h ∈ [HPerform c; HHttpOk c; HHttpErr c] →
       run_handler n h out (on_self (c_self c) (with_dsp d') s)
       = (let '(x, s') := run_handler n h out s in
          (x, on_self (c_self c) (with_dsp d') s')))
  ∧ (∀ k n c s,
       c_req c ∉ canceled s →
       ready k n (st_world s) (c_self c) (c_dsp c) "before-request" →
       log (st_world (performRequest n c s).2)
       = log (st_world s)
         ++ fired k (st_world s) (c_self c) (c_dsp c) "before-request" [VReq (c_req c)]
         ++ [EHttp (c_req c)])
  ∧ (∀ k n c v l s,
       c_req c ∉ canceled s →
       o_pending (get (st_world s) (c_self c)) = Val l →
       from_option quiet true (c_succ c) = true → from_option quiet true (c_err c) = true →
       (ready k n (st_world s) (c_self c) (c_dsp c) "after-request" →
        log (st_world (httpOk n c v s).2)
        = log (st_world s)
          ++ fired k (st_world s) (c_self c) (c_dsp c) "after-request" [v]
          ++ called (c_succ c) (c_self c) [v])
       ∧ (ready k n (st_world s) (c_self c) (c_dsp c) "after-request-error" →
          log (st_world (httpErr n c v s).2)
          = log (st_world s)
            ++ fired k (st_world s) (c_self c) (c_dsp c) "after-request-error" [v]
            ++ called (c_err c) (c_self c) [v])).
Proof.
  split_and!.
  - intros n o r succ err s p rs Hp Hrs. unfold send.
    assert (o_promise (get (st_world (on_self o
              (with_pending (Val (match o_pending (get (st_world s) o) with
                                  | Val l => l
                                  | _ => []
                                  end ++ [r]))) s)) o) = Val p) as ->.
    { unfold on_self. simpl. by rewrite get_upd_eq. }
    unfold then_, alloc, subscribe. simpl.
    rewrite lookup_app_l by (by eapply lookup_lt_Some). rewrite Hrs.
    eexists. split; [reflexivity|]. simpl. split; [done|].
    rewrite list_lookup_insert_eq; [done|].
    rewrite length_app. apply lookup_lt_Some in Hrs. lia.
  - intros n c d' out s h Hh.
    rewrite !elem_of_cons in Hh. destruct Hh as [->|[->|[->|Hh]]]; simpl.
    + apply performRequest_other_dsp.
    + apply httpOk_other_dsp.
    + apply httpErr_other_dsp.
    + by apply elem_of_nil in Hh.
  - intros k n c s Hc Hr. rewrite (performRequest_quiet k) by done.
    simpl. by rewrite app_assoc.
  - intros k n c v l s Hc Hl Hs He. split; intros Hr.
    + by rewrite (httpOk_quiet k n c v l).
    + by rewrite (httpErr_quiet k n c v l).
Qed.

Lemma send_pins_override_witness :
  ∃ s', send 10 0 7 None None pinned = (Normal, s')
        ∧ proms s' !! 0
          = Some (Pending [Reaction (HPerform (Closure 0 7 (Some pin) None None))
                                    (HPerform (Closure 0 7 (Some pin) None None)) 1])
        ∧ log (st_world (performRequest 10 (Closure 0 7 (Some pin) None None)
                           (on_self 0 (with_dsp None) s')).2)
          = [ECall 1 (Some 0) [VReq 7]; EHttp 7].
Proof.
  destruct (proj1 send_pins_override 10 0 7 None None pinned 0 [] eq_refl eq_refl)
    as (s' & E & _ & Hp).
  exists s'. split_and!; [done | done |].
  injection E as <-.
  destruct send_pins_override as (_ & _ & H3 & _).
  rewrite (H3 1 10).
  - vm_compute. reflexivity.
  - vm_compute. set_solver.
  - split_and!.
    + unfold quiet_world. apply (bool_decide_unpack _). vm_compute. exact I.
    + vm_compute. reflexivity.
    + vm_compute. lia.
Defined.

(** ** [$pending] after a cancellation *)

(** C3 fails on the code: a canceled configuration is never taken out of
    [$pending].  After a request was sent, canceled and answered, nothing
    is outstanding and [$pending] still holds it; it is still there when
    a later request has been sent and answered. *)
Theorem pending_outlives_cancel :
  ∃ s1 s2,
    run 10 0 [ISend 7 None None; ICancel; IAnswer 0 (Fulfilled (VData 5)); ITick]
        (init lone) = Some s1
    ∧ jobs s1 = [] ∧ inflight s1 = []
    ∧ proms s1 = [Settled (Fulfilled (VData 5)); Settled (Fulfilled (VObj 0))]
    ∧ o_status (get (st_world s1) 0) = Some StCanceled
    ∧ o_pending (get (st_world s1) 0) = Val [7]
    ∧ run 10 0 [ISend 8 None None; IAnswer 2 (Fulfilled (VData 6)); ITick] s1 = Some s2
    ∧ jobs s2 = [] ∧ inflight s2 = []
    ∧ o_status (get (st_world s2) 0) = Some StOk
    ∧ o_pending (get (st_world s2) 0) = Val [7].
Proof.
  eexists. eexists. split; [vm_compute; reflexivity|].
  split_and!; try (vm_compute; reflexivity).
Qed.

(** ** One operation at a time *)

Lemma issued_app l1 l2 : issued (l1 ++ l2) = issued l1 ++ issued l2.
Proof. apply omap_app. Qed.

Lemma issued_sync w l : Forall (sync_event w) l → issued l = [].
Proof.
  induction 1 as [|e l He _ IH]; [done|].
  change (e :: l) with ([e] ++ l). rewrite issued_app, IH.
  by destruct e.
Qed.

Lemma tame_refl w : tame w w.
Proof. done. Qed.

Lemma tame_trans w1 w2 w3 : tame w1 w2 → tame w2 w3 → tame w1 w3.
Proof.
  intros [H1 E1] [H2 E2]. split; [|congruence].
  intros x. by rewrite H2, H1.
Qed.

Lemma tame_frame w w' : frame w w' → tame w w'.
Proof.
  intros [H (l & El & Fl)]. split.
  - intros x. specialize (H x). by apply (f_equal o_promise) in H.
  - rewrite El, issued_app, (issued_sync w l) by done. by rewrite app_nil_r.
Qed.

Lemma tame_upd o f w : (∀ x, o_promise (f x) = o_promise x) → tame w (upd o f w).
Proof.
  intros Hf. split; [|done]. intros x.
  destruct (decide (o = x)) as [->|Hne].
  - by rewrite get_upd_eq.
  - by rewrite get_upd_ne.
Qed.

Lemma calm_framed m : framed m → calm m.
Proof. intros H w r w' E. apply tame_frame. by eapply H. Qed.

Lemma calm_seq m k : calm m → calm k → calm (m ;;; k).
Proof.
  intros Hm Hk w r w'. unfold seq. destruct (m w) as [r1 w1] eqn:E.
  specialize (Hm _ _ _ E).
  destruct r1; intros H.
  - eapply tame_trans; [exact Hm|]. by eapply Hk.
  - by injection H as <- <-.
  - by injection H as <- <-.
Qed.

Lemma calm_decorate o hk body : calm body → calm (decorate o hk body).
Proof.
  intros Hb w r w'. unfold decorate.
  destruct (body _) as [r1 w1] eqn:E. intros [= <- <-].
  eapply tame_trans; [|by apply tame_upd].
  eapply tame_trans; [|exact (Hb _ _ _ E)]. by apply tame_upd.
Qed.

Lemma calm_set o f : (∀ x, o_promise (f x) = o_promise x) → calm (λ w, (Normal, upd o f w)).
Proof. intros Hf w r w' [= <- <-]. by apply tame_upd. Qed.

Lemma calm_unpend o r reset : calm (unpend o r reset).
Proof.
  intros w x w'. unfold unpend. destruct (o_pending (get w o)); intros [= <- <-];
    try apply tame_refl.
  by apply tame_upd.
Qed.

Lemma calm_opt_call n cb o args : calm (opt_call n cb o args).
Proof.
  destruct cb; simpl.
  - apply calm_framed. intros w. apply call_framed.
  - by intros w r w' [= <- <-].
Qed.

Lemma calm_dispatch n o h args ctx : calm (dispatch n o h args ctx).
Proof. apply calm_framed. intros w. apply dispatch_framed. Qed.

Lemma lift_calm m s r s1 :
  calm m → lift m s = (r, s1) →
  jobs s1 = jobs s ∧ proms s1 = proms s ∧ inflight s1 = inflight s
  ∧ tame (st_world s) (st_world s1).
Proof.
  intros Hm E. apply lift_fields in E as (_ & ? & ? & ? & E).
  split_and!; try done. by eapply Hm.
Qed.

Lemma handled_value h s v s1 :
  jobs s1 = jobs s → proms s1 = proms s → inflight s1 = inflight s →
  tame (st_world s) (st_world s1) →
  (handled h s (RValue v) s1 ∧ handled h s (RThrow v) s1).
Proof.
  intros ? ? ? [? ?]. split; (split_and!; [done | done | left; eauto 10]).
Qed.

Lemma performRequest_handled n c s x s1 :
  performRequest n c s = (x, s1) → x ≠ RFuel → handled (HPerform c) s x s1.
Proof.
  unfold performRequest. case_decide.
  - intros [= <- <-] _. split_and!; [done | |].
    + intros y. simpl. by apply tame_upd.
    + right. left. simpl. eauto.
  - destruct (lift _ s) as [r s0] eqn:E.
    apply lift_calm in E as (Ej & Ep & Ei & [Ht Hi]); cycle 1.
    { apply calm_decorate, calm_seq; [|apply calm_dispatch].
      intros w r' w' [= <- <-]. eapply tame_trans; by apply tame_upd. }
    destruct r; intros [= <- <-] Hx; [| by eapply handled_value | done].
    split_and!.
    + unfold then_, http, alloc. simpl. by destruct (subscribe_fields
        (length (proms s0)) (Reaction (HHttpOk c) (HHttpErr c)
                               (length (proms s0 ++ [Pending []])))
        (State (emit (EHttp (c_req c)) (st_world s0)) (canceled s0)
               ((proms s0 ++ [Pending []]) ++ [Pending []]) (jobs s0)
               (inflight s0 ++ [(length (proms s0), c_req c)]))); unfold subscribe;
        simpl; rewrite lookup_app_l, lookup_app_r, Nat.sub_diag
          by (rewrite ?length_app; simpl; lia).
    + intros y. unfold then_, http, alloc. simpl. rewrite st_world_subscribe. simpl.
      apply Ht.
    + right. right. exists c. split; [done|].
      unfold then_, http, alloc, subscribe. simpl.
      rewrite lookup_app_l by (rewrite length_app; simpl; lia).
      rewrite lookup_app_r by done. rewrite Nat.sub_diag. simpl.
      rewrite insert_fresh_pair, length_app, Ep, Ei. simpl. rewrite Nat.add_1_r.
      split_and!; try done.
      unfold emit. simpl. rewrite issued_app, Hi. done.
Qed.

Lemma httpOk_handled n c v s x s1 :
  httpOk n c v s = (x, s1) → x ≠ RFuel → handled (HHttpOk c) s x s1.
Proof.
  unfold httpOk. case_decide.
  - intros [= <- <-] _.
    apply (handled_value _ _ (VObj (c_self c))); try done. by apply tame_upd.
  - destruct (lift _ s) as [r s0] eqn:E.
    apply lift_calm in E as (Ej & Ep & Ei & Ht); cycle 1.
    { apply calm_decorate. repeat apply calm_seq.
      - apply calm_unpend.
      - intros w r' w' [= <- <-].
        eapply tame_trans; by apply tame_upd.
      - apply calm_dispatch.
      - apply calm_opt_call. }
    destruct r; intros [= <- <-] Hx; [| | done]; by eapply handled_value.
Qed.

Lemma httpErr_handled n c v s x s1 :
  httpErr n c v s = (x, s1) → x ≠ RFuel → handled (HHttpErr c) s x s1.
Proof.
  unfold httpErr. case_decide.
  - intros [= <- <-] _.
    apply (handled_value _ _ (VObj (c_self c))); try done. by apply tame_upd.
  - destruct (lift _ s) as [r s0] eqn:E.
    apply lift_calm in E as (Ej & Ep & Ei & [Ht Hi]); cycle 1.
    { apply calm_decorate. repeat apply calm_seq.
      - apply calm_unpend.
      - intros w r' w' [= <- <-].
        eapply tame_trans; by apply tame_upd.
      - apply calm_dispatch.
      - apply calm_opt_call. }
    destruct r; intros [= <- <-] Hx; [| by eapply handled_value | done].
    split_and!; [done | done |]. right. left. rewrite Ep. simpl. eauto.
Qed.

Lemma run_handler_handled n h out s x s1 :
  run_handler n h out s = (x, s1) → x ≠ RFuel → handled h s x s1.
Proof.
  destruct h; simpl.
  - intros [= <- <-] _. destruct out; by eapply handled_value.
  - apply performRequest_handled.
  - intros E Hx. destruct (httpOk_handled _ _ _ _ _ _ E Hx) as (? & ? & [?|[?|(? & ? & _)]]);
      [split_and!; auto.. | done].
  - intros E Hx. destruct (httpErr_handled _ _ _ _ _ _ E Hx) as (? & ? & [?|[?|(? & ? & _)]]);
      [split_and!; auto.. | done].
  - destruct (lift _ s) as [r s0] eqn:E.
    apply lift_calm in E as (Ej & Ep & Ei & Ht);
      [| apply calm_framed; intros w; apply call_framed].
    destruct r; intros [= <- <-] Hx; [| | done]; by eapply handled_value.
  - destruct (lift _ s) as [r s0] eqn:E.
    apply lift_calm in E as (Ej & Ep & Ei & Ht);
      [| apply calm_framed; intros w; apply call_framed].
    destruct r; intros [= <- <-] Hx; [| by eapply handled_value | done].
    destruct out; by eapply handled_value.
Qed.

Lemma chain_lt ps tl p ch : chain ps tl p ch → Forall (λ x, x < length ps) (nodes p ch).
Proof.
  revert p. induction ch as [|r ch IH]; intros p; simpl.
  - intros [H _]. repeat constructor. by eapply lookup_lt_Some.
  - intros (H & _ & Hc). constructor; [by eapply lookup_lt_Some|]. by apply IH.
Qed.

Lemma chain_app ps l tl p ch : chain ps tl p ch → chain (ps ++ l) tl p ch.
Proof.
  revert p. induction ch as [|r ch IH]; intros p; simpl.
  - intros [H ->]. split; [|done]. by apply lookup_app_l_Some.
  - intros (H & Hl & Hc). split_and!; [by apply lookup_app_l_Some | done | by apply IH].
Qed.

Lemma chain_insert ps q x tl p ch :
  chain ps tl p ch → q ∉ nodes p ch → chain (<[q := x]> ps) tl p ch.
Proof.
  revert p. induction ch as [|r ch IH]; intros p; simpl.
  - intros [H ->] Hq. split; [|done].
    rewrite list_lookup_insert_ne; [done|]. intros ->. apply Hq. by left.
  - intros (H & Hl & Hc) Hq. unfold nodes in Hq. simpl in Hq.
    apply not_elem_of_cons in Hq as [Hq1 Hq2].
    split; [|split; [done | by apply IH]].
    by rewrite list_lookup_insert_ne.
Qed.

Lemma chain_tail ps tl p ch :
  chain ps tl p ch → tl ∈ nodes p ch ∧ ps !! tl = Some (Pending []).
Proof.
  revert p. induction ch as [|r ch IH]; intros p; simpl.
  - intros [H ->]. split; [by left | done].
  - intros (H & Hl & Hc). destruct (IH _ Hc) as [Hin Ht]. split; [|done].
    by right.
Qed.

Lemma chain_snoc ps tl p ch R :
  chain ps tl p ch → NoDup (nodes p ch) → is_link R → target R = length ps →
  chain (<[tl := Pending [R]]> (ps ++ [Pending []])) (length ps) p (ch ++ [R]).
Proof.
  intros Hc Hnd HR Ht. revert p Hc Hnd.
  induction ch as [|r ch IH]; intros p; simpl.
  - intros [H ->] _. pose proof (lookup_lt_Some _ _ _ H) as Hlt.
    split; [|split; [done|]].
    + rewrite list_lookup_insert_eq; [done|]. rewrite length_app. simpl. lia.
    + split; [|done]. rewrite Ht.
      rewrite list_lookup_insert_ne by lia.
      rewrite lookup_app_r by done. by rewrite Nat.sub_diag.
  - intros (H & Hl & Hc) Hnd. unfold nodes in Hnd. simpl in Hnd.
    apply NoDup_cons in Hnd as [Hp Hnd].
    destruct (chain_tail _ _ _ _ Hc) as [Hin _].
    split; [|split; [done | by apply IH]].
    rewrite list_lookup_insert_ne by (intros ->; done).
    by apply lookup_app_l_Some.
Qed.

Lemma reqs_snoc ch R : reqs (ch ++ [R]) = reqs ch ++ link_reqs R.
Proof. unfold reqs. rewrite map_app, concat_app. simpl. by rewrite app_nil_r. Qed.

Lemma nodes_snoc p ch R : nodes p (ch ++ [R]) = nodes p ch ++ [target R].
Proof. unfold nodes. by rewrite map_app. Qed.

Lemma NoDup_snoc_fresh (l : list nat) (x : nat) :
  NoDup l → Forall (λ y, y < x) l → NoDup (l ++ [x]).
Proof.
  intros Hl Hlt. apply NoDup_app. split_and!; [done | | apply NoDup_singleton].
  intros y Hy Hx. apply list_elem_of_singleton in Hx as ->.
  rewrite Forall_forall in Hlt. specialize (Hlt _ Hy). lia.
Qed.

Lemma is_link_reqs_http rx : is_http rx → link_reqs rx = [].
Proof. intros (c & H & _). unfold link_reqs. by rewrite H. Qed.

(** Attaching a link to the tail of the line. *)
Lemma shape_attach s p q R :
  shape s (Val p) q → is_link R → target R = length (proms s) →
  shape (subscribe p R (alloc (Pending []) s).2) (Val (length (proms s)))
        (q ++ link_reqs R).
Proof.
  intros Hs HR Ht. unfold alloc. simpl.
  inversion Hs as [Hj Hi Hp | t r rx tl ch Hj Hi Hpt Hh Htl Hc Hnd
                  | rx out tl ch Hj Hi Hf Htl Hc Hnd]; subst.
  - destruct (Hp p eq_refl) as [out Ho].
    unfold subscribe. simpl. rewrite (lookup_app_l_Some _ _ _ _ Ho). simpl.
    rewrite Hj. simpl.
    replace (link_reqs R) with (link_reqs R ++ reqs []) by apply app_nil_r.
    eapply (Job _ _ R out (length (proms s)) []); simpl; try done.
    + by left.
    + rewrite Ht. split; [|done]. rewrite lookup_app_r by done.
      by rewrite Nat.sub_diag.
    + unfold nodes. simpl. apply NoDup_singleton.
  - injection Htl as ->.
    destruct (chain_tail _ _ _ _ Hc) as [Hin Hpt'].
    unfold subscribe. simpl. rewrite (lookup_app_l_Some _ _ _ _ Hpt'). simpl.
    rewrite <- reqs_snoc.
    pose proof (chain_lt _ _ _ _ Hc) as Hlt.
    apply NoDup_cons in Hnd as [Hnt Hnd].
    eapply (Flight _ _ t r rx (length (proms s)) (ch ++ [R])); simpl; try done.
    + rewrite list_lookup_insert_ne by (intros ->; done).
      by apply lookup_app_l_Some.
    + by apply chain_snoc.
    + rewrite nodes_snoc. apply NoDup_cons. split.
      * rewrite elem_of_app, list_elem_of_singleton. intros [?|Hx]; [done|].
        apply lookup_lt_Some in Hpt. lia.
      * rewrite Ht. by apply NoDup_snoc_fresh.
  - injection Htl as ->.
    destruct (chain_tail _ _ _ _ Hc) as [Hin Hpt'].
    unfold subscribe. simpl. rewrite (lookup_app_l_Some _ _ _ _ Hpt'). simpl.
    rewrite <- app_assoc, <- reqs_snoc.
    pose proof (chain_lt _ _ _ _ Hc) as Hlt.
    eapply (Job _ _ rx out (length (proms s)) (ch ++ [R])); simpl; try done.
    + by apply chain_snoc.
    + rewrite nodes_snoc, Ht. by apply NoDup_snoc_fresh.
Qed.

Lemma shape_same s s' tail q :
  shape s tail q → jobs s' = jobs s → proms s' = proms s → inflight s' = inflight s →
  shape s' tail q.
Proof.
  intros Hs Ej Ep Ei.
  inversion Hs as [Hj Hi Hp | t r rx tl ch Hj Hi Hpt Hh Htl Hc Hnd
                  | rx out tl ch Hj Hi Hf Htl Hc Hnd]; subst.
  - apply Idle; [congruence.. |]. by rewrite Ep.
  - eapply (Flight _ _ t r rx tl ch); rewrite ?Ep; try done; congruence.
  - eapply (Job _ _ rx out tl ch); rewrite ?Ep; try done; congruence.
Qed.

(** The transport answers. *)
Lemma shape_answer s tail q t out :
  shape s tail q → shape (answer t out s) tail q.
Proof.
  intros Hs. unfold answer. case_decide as Hin; [|done].
  inversion Hs as [Hj Hi Hp | t' r rx tl ch Hj Hi Hpt Hh Htl Hc Hnd
                  | rx out' tl ch Hj Hi Hf Htl Hc Hnd]; subst.
  - rewrite Hi in Hin. by apply elem_of_nil in Hin.
  - rewrite Hi in Hin. simpl in Hin. apply list_elem_of_singleton in Hin as ->.
    unfold settle. simpl. rewrite Hpt, Hj, Hi. simpl.
    rewrite filter_cons_False by (simpl; intros H; by apply H).
    rewrite filter_nil.
    rewrite <- (app_nil_l (reqs ch)), <- (is_link_reqs_http rx Hh).
    apply NoDup_cons in Hnd as [Hnt Hnd].
    eapply (Job _ _ rx out tl ch); simpl; try done; [by right|].
    by apply chain_insert.
  - rewrite Hi in Hin. by apply elem_of_nil in Hin.
Qed.

Lemma pick_perform rx out c :
  is_link rx ∨ is_http rx → pick rx out = HPerform c → link_reqs rx = [c_req c].
Proof.
  unfold pick, link_reqs.
  intros [[(c' & E1 & E2)|[H1 H2]]|(c' & E1 & E2)] Hp.
  - rewrite E1. destruct out; rewrite ?E1, ?E2 in Hp; by injection Hp as ->.
  - destruct out; rewrite Hp in *; done.
  - destruct out; rewrite ?E1, ?E2 in Hp; done.
Qed.

Lemma settle_eq p rs out s :
  proms s !! p = Some (Pending rs) →
  settle p out s
  = State (st_world s) (canceled s) (<[p := Settled out]> (proms s))
          (jobs s ++ map (λ r, (r, out)) rs) (inflight s).
Proof. intros H. unfold settle. by rewrite H. Qed.

(** A value or an exception settles the head of the line. *)
Lemma shape_settle s tail rx tl ch out :
  jobs s = [] → inflight s = [] → tail = Val tl →
  chain (proms s) tl (target rx) ch → NoDup (nodes (target rx) ch) →
  shape (settle (target rx) out s) tail (reqs ch).
Proof.
  intros Hj Hi -> Hc Hnd. destruct ch as [|r ch]; simpl in Hc.
  - destruct Hc as [Hp Ht]. rewrite (settle_eq _ [] _ _ Hp), Hj. simpl.
    apply Idle; simpl; try done.
    intros p [= <-]. exists out. rewrite Ht.
    apply list_lookup_insert_eq. rewrite <- Ht. by eapply lookup_lt_Some.
  - destruct Hc as (Hp & Hl & Hc). rewrite (settle_eq _ [r] _ _ Hp), Hj. simpl.
    unfold nodes in Hnd. simpl in Hnd. apply NoDup_cons in Hnd as [Hn Hnd].
    eapply (Job _ _ r out tl ch); simpl; try done; [by left|].
    by apply chain_insert.
Qed.

(** One promise job. *)
Lemma shape_tick s tail q rx out js x s1 :
  shape s tail q → jobs s = (rx, out) :: js →
  handled (pick rx out) (State (st_world s) (canceled s) (proms s) js (inflight s)) x s1 →
  ∃ q' dn,
    shape (resolve_with (target rx) x s1) tail q'
    ∧ issued (log (st_world s1)) = issued (log (st_world s)) ++ dn
    ∧ dn ++ q' `sublist_of` q.
Proof.
  intros Hs Hjs (Ej0 & _ & Hh). simpl in *.
  inversion Hs as [Hj Hi Hp | t r rx' tl ch Hj Hi Hpt Hht Htl Hc Hnd
                  | rx' out' tl ch Hj Hi Hf Htl Hc Hnd]; subst;
    rewrite Hj in Hjs; try done.
  injection Hjs as -> -> Ej. symmetry in Ej.
  destruct Hh as [((v & Hx) & Ep & Ei & El)|[((o' & Hx & Ep) & Ei & El)
                 |(c & Hpk & Hx & Ep & Ei & El)]].
  - exists (reqs ch), []. rewrite El, app_nil_r. split_and!; [| done |].
    + destruct Hx as [->| ->]; simpl;
        (apply shape_settle with (tl := tl); [done | congruence | done | by rewrite Ep | done]).
    + simpl. by apply sublist_inserts_l.
  - exists (reqs ch), []. rewrite El, app_nil_r. split_and!; [| done |].
    + subst x. simpl. unfold subscribe. rewrite Ep.
      rewrite lookup_app_r by done. rewrite Nat.sub_diag. simpl. rewrite Ej. simpl.
      change (reqs ch) with (link_reqs (Reaction HNone HNone (target rx)) ++ reqs ch).
      apply (Job _ _ (Reaction HNone HNone (target rx)) o' tl ch); simpl; try done.
      * congruence.
      * left. by right.
      * by apply chain_app.
    + simpl. by apply sublist_inserts_l.
  - exists (reqs ch), [c_req c]. rewrite El. split_and!; [| done |].
    + subst x. simpl. unfold subscribe. rewrite Ep.
      replace ((proms s ++ [Pending [Reaction (HHttpOk c) (HHttpErr c) (S (length (proms s)))];
                            Pending []]) !! S (length (proms s)))
        with (Some (Pending [])); cycle 1.
      { rewrite lookup_app_r by lia. by replace (S (length (proms s)) - length (proms s)) with 1 by lia. }
      simpl.
      pose proof (chain_lt _ _ _ _ Hc) as Hlt.
      change (reqs ch) with (reqs (Reaction HNone HNone (target rx) :: ch)).
      apply (Flight _ _ (length (proms s)) (c_req c)
               (Reaction (HHttpOk c) (HHttpErr c) (S (length (proms s)))) tl
               (Reaction HNone HNone (target rx) :: ch)); simpl; try done.
      * by rewrite Ei, Hi.
      * rewrite list_lookup_insert_ne by lia.
        rewrite lookup_app_r by done. by rewrite Nat.sub_diag.
      * by exists c.
      * split_and!.
        -- rewrite list_lookup_insert_eq; [done|]. rewrite length_app. simpl. lia.
        -- right. done.
        -- apply chain_insert; [by apply chain_app|].
           intros Hin. rewrite Forall_forall in Hlt. specialize (Hlt _ Hin). lia.
      * apply NoDup_cons. split.
        { intros Hin. apply elem_of_cons in Hin as [?|Hin]; [lia|].
          rewrite Forall_forall in Hlt. specialize (Hlt _ Hin). lia. }
        apply NoDup_cons. split; [|done].
        intros Hin. rewrite Forall_forall in Hlt. specialize (Hlt _ Hin). lia.
    + by rewrite (pick_perform rx out c).
Qed.

Lemma then_eq p f g s :
  then_ p f g s
  = (length (proms s), subscribe p (Reaction f g (length (proms s))) (alloc (Pending []) s).2).
Proof. reflexivity. Qed.

Lemma inv_world o i0 sub s s' :
  inv o i0 sub s →
  jobs s' = jobs s → proms s' = proms s → inflight s' = inflight s →
  o_promise (get (st_world s') o) = o_promise (get (st_world s) o) →
  issued (log (st_world s')) = issued (log (st_world s)) →
  inv o i0 sub s'.
Proof.
  intros (q & dn & Hs & Hl & Hsub) Ej Ep Ei Eo El.
  exists q, dn. rewrite Eo, El. split_and!; try done. by eapply shape_same.
Qed.

(** Attaching a reaction to the chain of the object, as [$send], [$then]
    and [$finally] do when there is a chain. *)
Lemma inv_attach o i0 sub s p f g :
  inv o i0 sub s → o_promise (get (st_world s) o) = Val p →
  is_link (Reaction f g (length (proms s))) →
  inv o i0 (sub ++ link_reqs (Reaction f g (length (proms s))))
      (on_self o (with_promise (Val (then_ p f g s).1)) (then_ p f g s).2).
Proof.
  intros (q & dn & Hs & Hl & Hsub) Hp HR. rewrite then_eq. simpl.
  rewrite Hp in Hs.
  exists (q ++ link_reqs (Reaction f g (length (proms s)))), dn. split_and!.
  - simpl. rewrite get_upd_eq. simpl.
    eapply shape_same; [by apply (shape_attach s p q) | done..].
  - simpl. by rewrite st_world_subscribe.
  - rewrite app_assoc. by apply sublist_app.
Qed.

(** [performRequest] called by [$send] itself, on an object without a
    chain. *)
Lemma inv_start o i0 sub s c x s2 :
  inv o i0 sub s → truthy (o_promise (get (st_world s) o)) = false →
  handled (HPerform c) s x s2 →
  inv o i0 (sub ++ [c_req c])
      (match x with
       | RPromise p => on_self o (with_promise (Val p)) s2
       | _ => s2
       end).
Proof.
  intros (q & dn & Hs & Hl & Hsub) Hf (Ej & Eo & Hh).
  assert (q = [] ∧ jobs s = [] ∧ inflight s = []) as (-> & Hj & Hi).
  { inversion Hs as [Hj Hii Hp | ? ? ? ? ? ? ? ? ? Htl | ? ? ? ? ? ? ? Htl]; try done;
      by rewrite Htl in Hf. }
  rewrite app_nil_r in Hsub.
  destruct Hh as [((v & Hv) & Epr & Ei & El)|[((o' & -> & Epr) & Ei & El)
                 |(c' & [= <-] & -> & Epr & Ei & El)]].
  - exists [], dn. rewrite app_nil_r.
    assert (match x with
            | RPromise p => on_self o (with_promise (Val p)) s2
            | _ => s2
            end = s2) as -> by (by destruct Hv as [-> | ->]).
    rewrite Eo, El. split_and!; [| done | by apply sublist_inserts_r].
    apply Idle; [congruence | congruence |].
    intros p Hp. by rewrite Hp in Hf.
  - exists [], dn. rewrite app_nil_r. simpl. rewrite get_upd_eq. simpl.
    split_and!; [| by rewrite El | by apply sublist_inserts_r].
    apply Idle; simpl; [congruence | congruence |].
    intros p [= <-]. exists o'. rewrite Epr, lookup_app_r by done.
    by rewrite Nat.sub_diag.
  - exists [], (dn ++ [c_req c]). rewrite app_nil_r. simpl. rewrite get_upd_eq. simpl.
    split_and!; [| by rewrite El, Hl, app_assoc | by apply sublist_app].
    change (@nil nat) with (reqs []).
    apply (Flight _ _ (length (proms s)) (c_req c)
             (Reaction (HHttpOk c) (HHttpErr c) (S (length (proms s))))
             (S (length (proms s))) []); simpl.
    + congruence.
    + by rewrite Ei, Hi.
    + rewrite Epr, lookup_app_r by done. by rewrite Nat.sub_diag.
    + by exists c.
    + done.
    + split; [|done]. rewrite Epr. rewrite lookup_app_r by lia.
      by replace (S (length (proms s)) - length (proms s)) with 1 by lia.
    + unfold nodes. simpl. apply NoDup_cons. split; [|apply NoDup_singleton].
      intros Hin. apply list_elem_of_singleton in Hin. lia.
Qed.

Lemma inv_step n o i0 sub i s r s' :
  inv o i0 sub s → i ≠ ICancel → step n o i s = (r, s') → r ≠ OutOfFuel →
  inv o i0 (sub ++ sent [i]) s'.
Proof.
  intros Hinv Hi. destruct i as [rq succ err| |f g|f| |t out]; simpl; try done.
  - (* $send *)
    unfold send.
    set (c := Closure o rq (dispatcher (st_world s) o) succ err).
    set (s1 := on_self o (with_pending _) s).
    assert (inv o i0 sub s1) as Hinv1.
    { eapply inv_world; try done. unfold s1, on_self. simpl. by rewrite get_upd_eq. }
    destruct (o_promise (get (st_world s1) o)) as [| |p] eqn:Ep.
    1,2: destruct (performRequest n c s1) as [x s2] eqn:E;
      intros Hr Hx;
      assert (x ≠ RFuel) as Hx' by (intros ->; by injection Hr as <- _);
      pose proof (inv_start o i0 sub s1 c x s2 Hinv1) as H;
      rewrite Ep in H;
      specialize (H eq_refl (performRequest_handled _ _ _ _ _ E Hx'));
      destruct x; try done; by injection Hr as <- <-.
    intros [= <- <-] _.
    apply (inv_attach o i0 sub s1 p (HPerform c) (HPerform c)); [done | done |].
    left. by exists c.
  - (* $then *)
    unfold then'. destruct (o_promise (get (st_world s) o)) as [| |p] eqn:Ep;
      intros [= <- <-] _; rewrite ?app_nil_r; try done.
    pose proof (inv_attach o i0 sub s p (user f) (user g) Hinv Ep) as H.
    assert (is_link (Reaction (user f) (user g) (length (proms s)))) as HR.
    { right. by destruct f, g. }
    specialize (H HR).
    assert (link_reqs (Reaction (user f) (user g) (length (proms s))) = []) as E
      by by destruct f.
    by rewrite E, app_nil_r in H.
  - (* $finally *)
    unfold finally. destruct (o_promise (get (st_world s) o)) as [| |p] eqn:Ep;
      intros [= <- <-] _; rewrite ?app_nil_r; try done.
    pose proof (inv_attach o i0 sub s p (HFinally f) (HFinally f) Hinv Ep) as H.
    assert (is_link (Reaction (HFinally f) (HFinally f) (length (proms s)))) as HR
      by by right.
    specialize (H HR). by rewrite app_nil_r in H.
  - (* a promise job *)
    rewrite app_nil_r. unfold tick.
    destruct (jobs s) as [|[rx out] js] eqn:Ej; [by intros [= <- <-]|].
    destruct (run_handler _ _ _ _) as [x s1] eqn:E.
    intros [= <- <-] Hr.
    assert (x ≠ RFuel) as Hx by (by intros ->).
    pose proof (run_handler_handled _ _ _ _ _ _ E Hx) as Hh.
    destruct Hinv as (q & dn & Hs & Hl & Hsub).
    destruct (shape_tick s _ q rx out js x s1 Hs Ej Hh) as (q' & dn' & Hs' & Hl' & Hsub').
    destruct Hh as (_ & Eo & _). simpl in Eo.
    exists q', (dn ++ dn').
    assert (st_world (resolve_with (target rx) x s1) = st_world s1) as ->.
    { destruct x; simpl; by rewrite ?st_world_settle, ?st_world_subscribe. }
    rewrite Eo, Hl', Hl, <- !app_assoc. split_and!; [done | done |].
    etrans; [|exact Hsub]. by apply sublist_app.
  - (* an answer of the transport *)
    rewrite app_nil_r. intros [= <- <-] _.
    destruct Hinv as (q & dn & Hs & Hl & Hsub).
    exists q, dn.
    assert (st_world (answer t out s) = st_world s) as ->.
    { unfold answer. case_decide; [|done]. by rewrite st_world_settle. }
    split_and!; [|done..]. by apply shape_answer.
Qed.

Lemma sent_cons i ins : sent (i :: ins) = sent [i] ++ sent ins.
Proof. change (i :: ins) with ([i] ++ ins). apply omap_app. Qed.

Lemma inv_run n o i0 ins : ∀ sub s s',
  inv o i0 sub s → no_cancel ins → run n o ins s = Some s' →
  inv o i0 (sub ++ sent ins) s'.
Proof.
  induction ins as [|i ins IH]; intros sub s s' Hinv Hnc; cbn [run].
  - intros [= <-]. by rewrite app_nil_r.
  - apply Forall_cons in Hnc as [Hi Hnc].
    destruct (step n o i s) as [r s1] eqn:E.
    assert (r ≠ OutOfFuel → inv o i0 (sub ++ sent [i]) s1) as H1
      by (by eapply inv_step).
    rewrite sent_cons, app_assoc.
    destruct r; try done; intros Hrun; (eapply IH; [apply H1 | | ]; done).
Qed.

Lemma inv_init o w :
  truthy (o_promise (get w o)) = false → inv o (issued (log w)) [] (init w).
Proof.
  intros Hf. exists [], []. rewrite app_nil_r. split_and!; [| done | done].
  apply Idle; [done | done |]. simpl. intros p Hp. by rewrite Hp in Hf.
Qed.

Lemma inv_use o i0 sub s :
  inv o i0 sub s →
  length (inflight s) ≤ 1
  ∧ ∃ dn, issued (log (st_world s)) = i0 ++ dn ∧ dn `sublist_of` sub.
Proof.
  intros (q & dn & Hs & Hl & Hsub). split.
  - inversion Hs as [Hj Hi Hp | ? ? ? ? ? Hj Hi | ? ? ? ? Hj Hi]; rewrite Hi; simpl; lia.
  - exists dn. split; [done|]. etrans; [|exact Hsub]. by apply sublist_inserts_r.
Qed.

(** ** Stores that evolve *)

Lemma quiet_world_alt w : quiet_world w ↔ ∀ x, quiet_obj (get w x) = true.
Proof.
  split.
  - intros H x. by apply quiet_world_get.
  - intros H x y Hy. specialize (H x). unfold get in H. by rewrite Hy in H.
Qed.

Lemma evolves_refl w : evolves w w.
Proof. done. Qed.

Lemma evolves_trans w1 w2 w3 : evolves w1 w2 → evolves w2 w3 → evolves w1 w3.
Proof.
  intros [H1 A1] [H2 A2]. split; [|auto].
  intros x. destruct (H1 x) as (-> & -> & -> & ->). apply H2.
Qed.

Lemma evolves_upd o f w : keeps_hooks f → evolves w (upd o f w).
Proof.
  intros Hf. split.
  - intros x. destruct (decide (o = x)) as [->|Hne].
    + rewrite get_upd_eq. destruct (Hf (get w x)) as (-> & -> & -> & ->). done.
    + by rewrite get_upd_ne.
  - intros x Hx. unfold upd; simpl.
    destruct (decide (o = x)) as [->|Hne].
    + rewrite lookup_insert_eq. eauto.
    + by rewrite lookup_insert_ne.
Qed.

Lemma evolves_emits l w : evolves w (emits l w).
Proof. done. Qed.

Lemma evolves_dsp o d w w' :
  evolves w w' → evolves (upd o (with_dsp d) w) (upd o (with_dsp d) w').
Proof.
  intros [H A]. split.
  - intros x. destruct (decide (o = x)) as [->|Hne].
    + rewrite !get_upd_eq. simpl. destruct (H x) as (_ & ? & ? & ?). done.
    + rewrite !get_upd_ne by done. apply H.
  - intros x. unfold upd; simpl.
    destruct (decide (o = x)) as [->|Hne].
    + rewrite !lookup_insert_eq. eauto.
    + rewrite !lookup_insert_ne by done. apply A.
Qed.

Lemma chain_ok_evolves k w w' o :
  evolves w w' → chain_ok k w o = true → chain_ok k w' o = true.
Proof.
  intros [H A]. revert o. induction k as [|k IH]; intros o; [done|].
  cbn [chain_ok]. intros Hok. apply andb_true_iff in Hok as [Ha Hok].
  apply bool_decide_eq_true in Ha.
  rewrite bool_decide_eq_true_2 by auto. cbn [andb].
  destruct (H o) as (_ & _ & <- & <-).
  destruct (o_scope (get w o)); [destruct (o_type (get w o)) ..|]; auto.
Qed.

Lemma ready_evolves k n w w' o d h :
  evolves w w' → ready k n w o d h → ready k n w' o d h.
Proof.
  intros He (Hq & Hok & Hn). split_and!.
  - apply quiet_world_alt. intros x.
    rewrite quiet_world_alt in Hq. specialize (Hq x).
    destruct (evolves_dsp o d w w' He) as [H _].
    unfold quiet_obj in *. by destruct (H x) as (<- & <- & _).
  - by eapply chain_ok_evolves.
  - destruct (evolves_dsp o d w w' He) as [H _].
    by destruct (visits_hooks_eq k _ _ o h [] 0 H) as [_ <-].
Qed.

Lemma fired_evolves k w w' o d h args :
  evolves w w' → fired k w' o d h args = fired k w o d h args.
Proof.
  intros He. unfold fired. f_equal.
  destruct (evolves_dsp o None w w' He) as [H _].
  symmetry. by apply visits_hooks_eq.
Qed.

Lemma ready_same k n w o h :
  quiet_world w → chain_ok k w o = true → cost k w o h ≤ n →
  ready k n w o (o_dsp (get w o)) h.
Proof.
  intros Hq Hok Hn. unfold ready.
  rewrite upd_same; [done | by eapply chain_ok_alloc | apply with_dsp_get].
Qed.

Lemma issued_ovisits d h args c : issued (ovisits d h args c) = [].
Proof.
  induction d as [f | m | od m IH] using override_old_ind; simpl; try done.
  - unfold entry. by destruct (m !! h).
  - rewrite issued_app, IH. unfold entry. by destruct (m !! h).
Qed.

Lemma issued_calls (l : list callback) c args :
  issued (map (λ f, ECall (cb_name f) (Some c) args) l) = [].
Proof. by induction l. Qed.

Lemma issued_visits k : ∀ w o h args c, issued (visits k w o h args c) = [].
Proof.
  induction k as [|k IH]; [done|]. intros w o h args c. cbn [visits].
  rewrite !issued_app, issued_calls.
  assert (issued (from_option (λ d, ovisits d h args c) [] (o_dsp (get w o))) = []) as ->.
  { destruct (o_dsp (get w o)); [apply issued_ovisits | done]. }
  simpl. repeat case_match; auto.
Qed.

Lemma issued_fired k w o d h args : issued (fired k w o d h args) = [].
Proof.
  unfold fired. rewrite issued_app, issued_visits, app_nil_r.
  destruct d; [apply issued_ovisits | done].
Qed.

Lemma issued_called cb o args : issued (called cb o args) = [].
Proof. by destruct cb. Qed.

(** ** The steps of a run among quiet callbacks *)

Lemma ready_pending k n w o d h p :
  ready k n w o d h → ready k n (upd o (with_pending p) w) o d h.
Proof. apply ready_evolves, evolves_upd. by intros []. Qed.

Lemma send_first_quiet k n o r succ err s :
  let w := st_world s in
  let d := o_dsp (get w o) in
  let c := Closure o r d succ err in
  truthy (o_promise (get w o)) = false → r ∉ canceled s →
  ready k n w o d "before-request" →
  send n o r succ err s
  = (Normal,
     State (upd o (with_promise (Val (S (length (proms s)))))
              (emits (fired k w o d "before-request" [VReq r] ++ [EHttp r])
                 (upd o started (upd o (with_pending (Val (pending_of w o ++ [r]))) w))))
           (canceled s)
           (proms s ++ [Pending [Reaction (HHttpOk c) (HHttpErr c) (S (length (proms s)))];
                        Pending []])
           (jobs s)
           (inflight s ++ [(length (proms s), r)])).
Proof.
  intros w d c Hp Hc Hr. unfold send.
  fold w. unfold dispatcher. fold d. fold c.
  change (match o_pending (get w o) with Val l => l | _ => [] end) with (pending_of w o).
  set (s1 := on_self o (with_pending (Val (pending_of w o ++ [r]))) s).
  assert (o_promise (get (st_world s1) o) = o_promise (get w o)) as E.
  { unfold s1, on_self. simpl. by rewrite get_upd_eq. }
  rewrite E.
  rewrite (performRequest_quiet k n c s1) by (done || by apply ready_pending).
  simpl. rewrite fired_upd by (by intros []).
  by destruct (o_promise (get w o)).
Qed.

Lemma send_chained o n r succ err s p rs :
  let w := st_world s in
  let c := Closure o r (o_dsp (get w o)) succ err in
  o_promise (get w o) = Val p → proms s !! p = Some (Pending rs) →
  send n o r succ err s
  = (Normal,
     State (upd o (with_promise (Val (length (proms s))))
              (upd o (with_pending (Val (pending_of w o ++ [r]))) w))
           (canceled s)
           (<[p := Pending (rs ++ [Reaction (HPerform c) (HPerform c) (length (proms s))])]>
              (proms s ++ [Pending []]))
           (jobs s) (inflight s)).
Proof.
  intros w c Hp Hrs. unfold send. fold w. unfold dispatcher. fold c.
  change (match o_pending (get w o) with Val l => l | _ => [] end) with (pending_of w o).
  set (s1 := on_self o (with_pending (Val (pending_of w o ++ [r]))) s).
  assert (o_promise (get (st_world s1) o) = Val p) as ->.
  { unfold s1, on_self. simpl. by rewrite get_upd_eq. }
  unfold then_, alloc, subscribe. simpl.
  by rewrite (lookup_app_l_Some _ _ _ _ Hrs).
Qed.

Lemma tick_pass n d out js w cs ps fl :
  tick n (State w cs ps ((Reaction HNone HNone d, out) :: js) fl)
  = (Normal, settle d out (State w cs ps js fl)).
Proof. unfold tick. simpl. by destruct out. Qed.

Lemma tick_httpErr_quiet k n c d v l js w cs ps fl :
  c_req c ∉ cs → o_pending (get w (c_self c)) = Val l →
  ready k n w (c_self c) (c_dsp c) "after-request-error" →
  from_option quiet true (c_err c) = true →
  tick n (State w cs ps ((Reaction (HHttpOk c) (HHttpErr c) d, Rejected v) :: js) fl)
  = (Normal,
     State (emits (fired k w (c_self c) (c_dsp c) "after-request-error" [v]
                   ++ called (c_err c) (c_self c) [v])
              (upd (c_self c) (answered_err l (c_req c) v) w))
           cs (ps ++ [Settled (Rejected (VObj (c_self c)))])
           (js ++ [(Reaction HNone HNone d, Rejected (VObj (c_self c)))]) fl).
Proof.
  intros Hc Hl Hr Hq. unfold tick. simpl.
  rewrite (httpErr_quiet k n c v l) by done. simpl.
  unfold subscribe. simpl. rewrite lookup_app_r by done. by rewrite Nat.sub_diag.
Qed.

Lemma tick_httpOk_quiet k n c d v l js w cs ps fl :
  c_req c ∉ cs → o_pending (get w (c_self c)) = Val l →
  ready k n w (c_self c) (c_dsp c) "after-request" →
  from_option quiet true (c_succ c) = true →
  tick n (State w cs ps ((Reaction (HHttpOk c) (HHttpErr c) d, Fulfilled v) :: js) fl)
  = (Normal,
     settle d (Fulfilled (VObj (c_self c)))
       (State (emits (fired k w (c_self c) (c_dsp c) "after-request" [v]
                      ++ called (c_succ c) (c_self c) [v])
                 (upd (c_self c) (answered_ok l (c_req c) v) w))
              cs ps js fl)).
Proof.
  intros Hc Hl Hr Hq. unfold tick. simpl.
  by rewrite (httpOk_quiet k n c v l).
Qed.

Lemma tick_perform_quiet k n c d out js w cs ps fl :
  c_req c ∉ cs →
  ready k n w (c_self c) (c_dsp c) "before-request" →
  tick n (State w cs ps ((Reaction (HPerform c) (HPerform c) d, out) :: js) fl)
  = (Normal,
     State (emits (fired k w (c_self c) (c_dsp c) "before-request" [VReq (c_req c)]
                   ++ [EHttp (c_req c)])
              (upd (c_self c) started w))
           cs
           (ps ++ [Pending [Reaction (HHttpOk c) (HHttpErr c) (S (length ps))];
                   Pending [Reaction HNone HNone d]])
           js (fl ++ [(length ps, c_req c)])).
Proof.
  intros Hc Hr. unfold tick. simpl.
  assert (pick (Reaction (HPerform c) (HPerform c) d) out = HPerform c) as ->
    by by destruct out.
  simpl. rewrite (performRequest_quiet k) by done. simpl.
  unfold subscribe. simpl.
  rewrite lookup_app_r by lia.
  replace (S (length ps) - length ps) with 1 by lia. simpl.
  f_equal. f_equal.
  rewrite insert_app_r_alt by lia.
  by replace (S (length ps) - length ps) with 1 by lia.
Qed.

(** ** Two operations submitted back to back *)

Ltac norm_get :=
  repeat (rewrite get_upd_eq || rewrite get_emits);
  cbn [o_dsp o_cb o_scope o_type o_pending o_promise o_status o_response o_error
       with_dsp with_cb with_pending with_promise with_status with_response with_error
       started answered_ok answered_err].

Ltac solve_evolves :=
  repeat first
    [ apply evolves_refl
    | (eapply evolves_trans; [| apply evolves_emits])
    | (eapply evolves_trans; [| apply evolves_upd; by intros []]) ].

Ltac norm_state :=
  cbn [init st_world proms canceled jobs inflight length app map
       c_self c_req c_dsp c_succ c_err].

Section TwoSends.
Variables (k n : nat) (w : world) (o a b : nat) (sa ea sb eb : option callback).
Hypothesis Hq : quiet_world w.
Hypothesis Hok : chain_ok k w o = true.
Hypothesis Hbr : cost k w o "before-request" ≤ n.
Hypothesis Hp : truthy (o_promise (get w o)) = false.

Local Arguments fired : simpl never.
Local Arguments called : simpl never.
Local Arguments upd : simpl never.
Local Arguments emits : simpl never.
Local Arguments get : simpl never.

Lemma two_sends :
  ∃ s0,
    run n o [ISend a sa ea; ISend b sb eb] (init w) = Some s0
    ∧ canceled s0 = ∅
    ∧ proms s0
      = [Pending [Reaction (HHttpOk (Closure o a (o_dsp (get w o)) sa ea))
                           (HHttpErr (Closure o a (o_dsp (get w o)) sa ea)) 1];
         Pending [Reaction (HPerform (Closure o b (o_dsp (get w o)) sb eb))
                           (HPerform (Closure o b (o_dsp (get w o)) sb eb)) 2];
         Pending []]
    ∧ jobs s0 = []
    ∧ inflight s0 = [(0, a)]
    ∧ evolves w (st_world s0)
    ∧ o_pending (get (st_world s0) o) = Val ((pending_of w o ++ [a]) ++ [b])
    ∧ log (st_world s0)
      = log w ++ fired k w o (o_dsp (get w o)) "before-request" [VReq a] ++ [EHttp a].
Proof.
  cbn [run step].
  rewrite (send_first_quiet k); [| done | set_solver | by apply ready_same].
  norm_state.
  erewrite send_chained; cycle 1.
  { cbn [st_world]. rewrite get_upd_eq. reflexivity. }
  { reflexivity. }
  norm_state. unfold pending_of at 1. norm_get.
  eexists. split; [reflexivity|]. norm_state.
  split_and!; try reflexivity.
  - solve_evolves.
  - by norm_get.
Qed.
End TwoSends.

(** ** After the answer of the transport *)

Section Answer.
Local Arguments fired : simpl never.
Local Arguments called : simpl never.
Local Arguments upd : simpl never.
Local Arguments emits : simpl never.
Local Arguments get : simpl never.

Lemma log_emits l w : log (emits l w) = log w ++ l.
Proof. reflexivity. Qed.

Lemma answer_eq t out rs w cs ps fl :
  t ∈ fl.*1 → ps !! t = Some (Pending rs) →
  answer t out (State w cs ps [] fl)
  = State w cs (<[t := Settled out]> ps) (map (λ r, (r, out)) rs)
          (filter (λ x, x.1 ≠ t) fl).
Proof.
  intros Hin Ht. unfold answer. cbn [inflight]. rewrite decide_True by done.
  erewrite settle_eq by exact Ht. reflexivity.
Qed.

Lemma after_rejection k n s t d d' cA cB v l :
  let o := c_self cA in
  let W := st_world s in
  ready k n W o (c_dsp cA) "after-request-error" →
  ready k n W o (c_dsp cB) "before-request" →
  c_self cB = o → from_option quiet true (c_err cA) = true →
  c_req cA ∉ canceled s → c_req cB ∉ canceled s →
  jobs s = [] → t ∈ (inflight s).*1 →
  proms s !! t = Some (Pending [Reaction (HHttpOk cA) (HHttpErr cA) d]) →
  proms s !! d = Some (Pending [Reaction (HPerform cB) (HPerform cB) d']) →
  o_pending (get W o) = Val l →
  ∃ s1 s2 s3,
    run n o [IAnswer t (Rejected v); ITick] s = Some s1
    ∧ o_status (get (st_world s1) o) = Some StError
    ∧ o_response (get (st_world s1) o) = v
    ∧ o_pending (get (st_world s1) o) = unpended l (c_req cA) Null
    ∧ log (st_world s1)
      = log W ++ fired k W o (c_dsp cA) "after-request-error" [v]
        ++ called (c_err cA) o [v]
    ∧ run n o [ITick] s1 = Some s2
    ∧ proms s2 !! d = Some (Settled (Rejected (VObj o)))
    ∧ st_world s2 = st_world s1
    ∧ run n o [ITick] s2 = Some s3
    ∧ log (st_world s3)
      = log (st_world s1) ++ fired k W o (c_dsp cB) "before-request" [VReq (c_req cB)]
        ++ [EHttp (c_req cB)]
    ∧ inflight s3
      = filter (λ x, x.1 ≠ t) (inflight s) ++ [(S (length (proms s)), c_req cB)].
Proof.
  intros o W Hra Hrb HoB Hq HcA HcB Hj Hin Ht Hd Hl.
  destruct s as [w cs ps js fl]. simpl in *. subst js.
  assert (t ≠ d) as Hne. { intros E. rewrite E in Ht. congruence. }
  pose proof (lookup_lt_Some _ _ _ Ht) as Hlt.
  pose proof (lookup_lt_Some _ _ _ Hd) as Hld.
  cbn [run step].
  rewrite (answer_eq t _ _ _ _ _ _ Hin Ht). cbn [map].
  rewrite (tick_httpErr_quiet k n cA d v l) by done.
  eexists. eexists. eexists.
  split; [reflexivity|].
  cbn [st_world]. fold o.
  split; [by norm_get|]. split; [by norm_get|]. split; [by norm_get|].
  split; [done|].
  cbn [app]. rewrite tick_pass.
  erewrite settle_eq; cycle 1.
  { cbn [proms]. rewrite lookup_app_l by (by rewrite length_insert).
    rewrite list_lookup_insert_ne by done. exact Hd. }
  cbn [st_world proms canceled jobs inflight app map].
  split; [reflexivity|].
  split.
  { cbn [proms]. apply list_lookup_insert_eq. rewrite length_app, length_insert. lia. }
  split; [reflexivity|].
  cbn [st_world].
  rewrite (tick_perform_quiet k n cB d'); cycle 1.
  { done. }
  { rewrite HoB. eapply ready_evolves; [|exact Hrb]. solve_evolves. }
  split; [reflexivity|].
  cbn [st_world inflight].
  split.
  - rewrite HoB. fold o. rewrite fired_emits, !fired_upd by (by intros []).
    repeat (rewrite log_emits || rewrite log_upd). done.
  - rewrite length_insert, length_app, length_insert. simpl. by rewrite Nat.add_1_r.
Qed.

Lemma after_fulfilment k n s t d d' cA cB v l :
  let o := c_self cA in
  let W := st_world s in
  ready k n W o (c_dsp cA) "after-request" →
  ready k n W o (c_dsp cB) "before-request" →
  c_self cB = o → from_option quiet true (c_succ cA) = true →
  c_req cA ∉ canceled s → c_req cB ∉ canceled s →
  jobs s = [] → t ∈ (inflight s).*1 →
  proms s !! t = Some (Pending [Reaction (HHttpOk cA) (HHttpErr cA) d]) →
  proms s !! d = Some (Pending [Reaction (HPerform cB) (HPerform cB) d']) →
  o_pending (get W o) = Val l →
  ∃ s1 s2,
    run n o [IAnswer t (Fulfilled v); ITick] s = Some s1
    ∧ o_status (get (st_world s1) o) = Some StOk
    ∧ o_response (get (st_world s1) o) = v
    ∧ o_pending (get (st_world s1) o) = unpended l (c_req cA) Undefined
    ∧ log (st_world s1)
      = log W ++ fired k W o (c_dsp cA) "after-request" [v]
        ++ called (c_succ cA) o [v]
    ∧ proms s1 !! d = Some (Settled (Fulfilled (VObj o)))
    ∧ run n o [ITick] s1 = Some s2
    ∧ log (st_world s2)
      = log (st_world s1) ++ fired k W o (c_dsp cB) "before-request" [VReq (c_req cB)]
        ++ [EHttp (c_req cB)]
    ∧ jobs s2 = []
    ∧ inflight s2
      = filter (λ x, x.1 ≠ t) (inflight s) ++ [(length (proms s), c_req cB)].
Proof.
  intros o W Hra Hrb HoB Hq HcA HcB Hj Hin Ht Hd Hl.
  destruct s as [w cs ps js fl]. simpl in *. subst js.
  assert (t ≠ d) as Hne. { intros E. rewrite E in Ht. congruence. }
  pose proof (lookup_lt_Some _ _ _ Ht) as Hlt.
  pose proof (lookup_lt_Some _ _ _ Hd) as Hld.
  cbn [run step].
  rewrite (answer_eq t _ _ _ _ _ _ Hin Ht). cbn [map].
  rewrite (tick_httpOk_quiet k n cA d v l) by done.
  erewrite settle_eq; cycle 1.
  { cbn [proms]. rewrite list_lookup_insert_ne by done. exact Hd. }
  cbn [st_world proms canceled jobs inflight app map].
  eexists. eexists.
  split; [reflexivity|].
  cbn [st_world]. fold o.
  split; [by norm_get|]. split; [by norm_get|]. split; [by norm_get|].
  split; [done|].
  split.
  { cbn [proms]. apply list_lookup_insert_eq. rewrite length_insert. lia. }
  rewrite (tick_perform_quiet k n cB d'); cycle 1.
  { done. }
  { rewrite HoB. eapply ready_evolves; [|exact Hrb]. solve_evolves. }
  split; [reflexivity|].
  cbn [st_world inflight jobs].
  split_and!.
  - rewrite HoB. fold o. rewrite fired_emits, !fired_upd by (by intros []).
    repeat (rewrite log_emits || rewrite log_upd). done.
  - done.
  - by rewrite !length_insert.
Qed.
End Answer.

Lemma run_app n o l1 l2 s :
  run n o (l1 ++ l2) s = run n o l1 s ≫= run n o l2.
Proof.
  revert s. induction l1 as [|i l1 IH]; intros s; simpl; [done|].
  destruct (step n o i s) as [[] s1]; by rewrite ?IH.
Qed.

(** [$cancel] between two operations: the second is submitted to an
    object without chain and makes its transport call at once, while the
    call of the first is in flight and the promise of the first is
    pending. *)
Lemma cancel_allows_overlap :
  ∃ s', run 10 0 [ISend 7 None None; ICancel; ISend 8 None None] (init lone) = Some s'
        ∧ inflight s' = [(0, 7); (2, 8)]
        ∧ issued (log (st_world s')) = [7; 8]
        ∧ proms s' !! 1 = Some (Pending [])
        ∧ jobs s' = [].
Proof. eexists. split_and!; vm_compute; reflexivity. Qed.

(** C1, as the code has it: on an object on which [$cancel] is not
    called, and with callbacks that do not themselves call the request
    API, at most one transport call is in flight at any time, and the
    transport calls are made in the order in which the operations were
    submitted; of two operations submitted back to back only the first
    has its transport call in flight until that call is answered, and
    whether the answer fulfils or rejects, the jobs that follow make the
    transport call of the second. *)
Theorem one_operation_at_a_time :
  (∀ n o w ins s',
     truthy (o_promise (get w o)) = false → no_cancel ins →
     run n o ins (init w) = Some s' →
     length (inflight s') ≤ 1
     ∧ ∃ dn, issued (log (st_world s')) = issued (log w) ++ dn
             ∧ dn `sublist_of` sent ins)
  ∧ (∀ k n w o a b sa ea sb eb out,
       quiet_world w → chain_ok k w o = true →
       cost k w o "before-request" ≤ n → cost k w o "after-request" ≤ n →
       cost k w o "after-request-error" ≤ n →
       from_option quiet true sa = true → from_option quiet true ea = true →
       truthy (o_promise (get w o)) = false →
       ∃ s0 s',
         run n o [ISend a sa ea; ISend b sb eb] (init w) = Some s0
         ∧ inflight s0 = [(0, a)]
         ∧ issued (log (st_world s0)) = issued (log w) ++ [a]
         ∧ run n o [IAnswer 0 out; ITick; ITick; ITick] s0 = Some s'
         ∧ issued (log (st_world s')) = issued (log w) ++ [a; b]
         ∧ ∃ t, inflight s' = [(t, b)]).
Proof.
  split.
  - intros n o w ins s' Hp Hnc Hrun.
    apply (inv_use o (issued (log w)) ([] ++ sent ins)).
    eapply inv_run; [by apply inv_init | done | done].
  - intros k n w o a b sa ea sb eb out Hq Hok Hbr Har Hae Hsa Hea Hp.
    destruct (two_sends k n w o a b sa ea sb eb Hq Hok Hbr Hp)
      as (s0 & Hrun & Hc & Hps & Hj & Hi & Hev & Hpe & Hl).
    exists s0.
    assert (issued (log (st_world s0)) = issued (log w) ++ [a]) as Hi0.
    { rewrite Hl, !issued_app, issued_fired. done. }
    assert (∀ h, cost k w o h ≤ n →
                 ready k n (st_world s0) o (o_dsp (get w o)) h) as Hready.
    { intros h Hh. eapply ready_evolves; [exact Hev|]. by apply ready_same. }
    assert (0 ∈ (inflight s0).*1) as Hin by (rewrite Hi; by left).
    assert (∀ x : nat, x ∉ canceled s0) as Hnc.
    { intros x. rewrite Hc. apply not_elem_of_empty. }
    destruct out as [v|v].
    + pose proof (after_fulfilment k n s0 0 1 2
                    (Closure o a (o_dsp (get w o)) sa ea)
                    (Closure o b (o_dsp (get w o)) sb eb) v
                    ((pending_of w o ++ [a]) ++ [b])) as HF.
      cbn [c_self c_req c_dsp c_succ c_err] in HF. rewrite Hps in HF.
      destruct (HF (Hready _ Har) (Hready _ Hbr) eq_refl Hsa (Hnc _) (Hnc _) Hj Hin
                  eq_refl eq_refl Hpe)
        as (s1 & s2 & H1 & _ & _ & _ & Hl1 & _ & H2 & Hl2 & Hj2 & Hi2).
      exists s2. split_and!; try done.
      * change [IAnswer 0 (Fulfilled v); ITick; ITick; ITick]
          with ([IAnswer 0 (Fulfilled v); ITick] ++ [ITick] ++ [ITick]).
        rewrite run_app, H1. cbn [mbind option_bind].
        rewrite run_app, H2. cbn [mbind option_bind run step].
        unfold tick. by rewrite Hj2.
      * rewrite Hl2, Hl1, !issued_app, !issued_fired, issued_called, Hi0.
        simpl. by rewrite app_nil_r, <- app_assoc.
      * eexists. rewrite Hi2, Hi.
        rewrite filter_cons_False by (simpl; intros H; by apply H). done.
    + pose proof (after_rejection k n s0 0 1 2
                    (Closure o a (o_dsp (get w o)) sa ea)
                    (Closure o b (o_dsp (get w o)) sb eb) v
                    ((pending_of w o ++ [a]) ++ [b])) as HR.
      cbn [c_self c_req c_dsp c_succ c_err] in HR. rewrite Hps in HR.
      destruct (HR (Hready _ Hae) (Hready _ Hbr) eq_refl Hea (Hnc _) (Hnc _) Hj Hin
                  eq_refl eq_refl Hpe)
        as (s1 & s2 & s3 & H1 & _ & _ & _ & Hl1 & H2 & _ & Hw2 & H3 & Hl3 & Hi3).
      exists s3. split_and!; try done.
      * change [IAnswer 0 (Rejected v); ITick; ITick; ITick]
          with ([IAnswer 0 (Rejected v); ITick] ++ [ITick] ++ [ITick]).
        rewrite run_app, H1. cbn [mbind option_bind].
        rewrite run_app, H2. exact H3.
      * rewrite Hl3, Hl1, !issued_app, !issued_fired, issued_called, Hi0.
        simpl. by rewrite app_nil_r, <- app_assoc.
      * eexists. rewrite Hi3, Hi.
        rewrite filter_cons_False by (simpl; intros H; by apply H). done.
Qed.

Lemma one_operation_at_a_time_witness :
  ∃ s', run 10 0 [ISend 7 None None; ISend 8 None None; IAnswer 0 (Rejected (VData 4));
                  ITick; ITick; ITick] (init lone) = Some s'
        ∧ length (inflight s') ≤ 1
        ∧ issued (log (st_world s')) = [7; 8]
        ∧ inflight s' = [(4, 8)].
Proof.
  eexists. split; [vm_compute; reflexivity|].
  split.
  - apply (proj1 one_operation_at_a_time 10 0 lone
             [ISend 7 None None; ISend 8 None None; IAnswer 0 (Rejected (VData 4));
              ITick; ITick; ITick]).
    + reflexivity.
    + by repeat constructor.
    + vm_compute. reflexivity.
  - assert (quiet_world lone) as Hq.
    { unfold quiet_world. apply (bool_decide_unpack _). vm_compute. exact I. }
    destruct (proj2 one_operation_at_a_time 1 10 lone 0 7 8 None None None None
                (Rejected (VData 4)) Hq eq_refl) as (s0 & s' & H0 & _ & _ & H1 & _);
      try (vm_compute; lia); try reflexivity.
    split; vm_compute; reflexivity.
Defined.

(** ** A transport error *)

(** C7: the transport rejects the call of an operation that is not
    canceled, while a second operation waits behind the first one's
    promise.  The job that handles the answer sets the status to error
    and records the rejection value as the response, dispatches
    [after-request-error] with that value under the operation's override
    and calls the error callback; the next job rejects the promise of the
    operation with the object itself; and the job after that starts the
    waiting operation: [before-request], then its transport call.  (The
    callbacks return at once.) *)
Theorem transport_error_surfaces k n s t d d' cA cB v l :
  let o := c_self cA in
  let W := st_world s in
  ready k n W o (c_dsp cA) "after-request-error" →
  ready k n W o (c_dsp cB) "before-request" →
  c_self cB = o → from_option quiet true (c_err cA) = true →
  c_req cA ∉ canceled s → c_req cB ∉ canceled s →
  jobs s = [] → t ∈ (inflight s).*1 →
  proms s !! t = Some (Pending [Reaction (HHttpOk cA) (HHttpErr cA) d]) →
  proms s !! d = Some (Pending [Reaction (HPerform cB) (HPerform cB) d']) →
  o_pending (get W o) = Val l →
  ∃ s1 s2 s3,
    run n o [IAnswer t (Rejected v); ITick] s = Some s1
    ∧ o_status (get (st_world s1) o) = Some StError
    ∧ o_response (get (st_world s1) o) = v
    ∧ o_pending (get (st_world s1) o) = unpended l (c_req cA) Null
    ∧ log (st_world s1)
      = log W ++ fired k W o (c_dsp cA) "after-request-error" [v]
        ++ called (c_err cA) o [v]
    ∧ run n o [ITick] s1 = Some s2
    ∧ proms s2 !! d = Some (Settled (Rejected (VObj o)))
    ∧ st_world s2 = st_world s1
    ∧ run n o [ITick] s2 = Some s3
    ∧ log (st_world s3)
      = log (st_world s1) ++ fired k W o (c_dsp cB) "before-request" [VReq (c_req cB)]
        ++ [EHttp (c_req cB)]
    ∧ inflight s3
      = filter (λ x, x.1 ≠ t) (inflight s) ++ [(S (length (proms s)), c_req cB)].
Proof. apply after_rejection. Qed.

Lemma transport_error_surfaces_witness :
  ∃ s1 s2 s3,
    run 10 0 [IAnswer 0 (Rejected (VData 4)); ITick] two_queued = Some s1
    ∧ o_status (get (st_world s1) 0) = Some StError
    ∧ o_response (get (st_world s1) 0) = VData 4
    ∧ log (st_world s1)
      = [EHttp 7; ECall 1 (Some 0) [VData 4]; ECall 2 (Some 0) [VData 4]]
    ∧ run 10 0 [ITick] s1 = Some s2
    ∧ proms s2 !! 1 = Some (Settled (Rejected (VObj 0)))
    ∧ run 10 0 [ITick] s2 = Some s3
    ∧ log (st_world s3) = log (st_world s1) ++ [EHttp 8]
    ∧ inflight s3 = [(4, 8)].
Proof.
  assert (quiet_world (upd 0 (with_dsp None) (st_world two_queued))) as Hq.
  { unfold quiet_world. apply (bool_decide_unpack _). vm_compute. exact I. }
  assert (canceled two_queued = ∅) as Hc by (vm_compute; reflexivity).
  destruct (transport_error_surfaces 1 10 two_queued 0 1 2
              (Closure 0 7 None None (Some (Callback 2 [])))
              (Closure 0 8 None None None) (VData 4) [7; 8])
    as (s1 & s2 & s3 & H1 & H2 & H3 & _ & H5 & H6 & H7 & _ & H9 & H10 & H11).
  - split_and!; [exact Hq | vm_compute; reflexivity | vm_compute; lia].
  - split_and!; [exact Hq | vm_compute; reflexivity | vm_compute; lia].
  - reflexivity.
  - reflexivity.
  - cbn [c_req]. rewrite Hc. apply not_elem_of_empty.
  - cbn [c_req]. rewrite Hc. apply not_elem_of_empty.
  - vm_compute. reflexivity.
  - vm_compute. by left.
  - vm_compute. reflexivity.
  - vm_compute. reflexivity.
  - vm_compute. reflexivity.
  - exists s1, s2, s3. cbn [c_self] in *.
    split_and!; done.
Defined.

(** * Further properties of the hook system and of the request queue *)

(** ** Registration and dispatch *)

Lemma visits_S k w o h args c :
  visits (S k) w o h args c = own_visits w o h args c ++ bubbled k w o h args c.
Proof. cbn [visits]. unfold own_visits, bubbled. by rewrite app_assoc. Qed.

Lemma keeps_links_cb m : keeps_links (with_cb m).
Proof. by intros []. Qed.

Lemma quiet_obj_cb x m :
  quiet_obj x = true → map_Forall (λ _ cbs, forallb quiet cbs = true) m →
  quiet_obj (with_cb (Some m) x) = true.
Proof.
  unfold quiet_obj. intros Hq Hm. apply andb_true_iff in Hq as [Hd _].
  apply andb_true_iff. split; [done|]. simpl. by apply bool_decide_eq_true.
Qed.

Lemma quiet_cb w o :
  quiet_world w →
  map_Forall (λ _ cbs, forallb quiet cbs = true) (default ∅ (o_cb (get w o))).
Proof.
  intros Hw. pose proof (quiet_world_get w o Hw) as Hq. unfold quiet_obj in Hq.
  apply andb_true_iff in Hq as [_ Hc].
  destruct (o_cb (get w o)) as [m|]; simpl in *.
  - by apply bool_decide_eq_true in Hc.
  - apply map_Forall_empty.
Qed.

Lemma quiet_pushed o h f w :
  quiet_world w → quiet f = true → quiet_world (pushed o h f w).
Proof.
  intros Hw Hf. unfold pushed. apply quiet_world_upd; [done|].
  apply quiet_obj_cb; [by apply quiet_world_get|].
  apply map_Forall_insert_2; [|by apply quiet_cb].
  destruct (quiet_obj_inv _ (quiet_world_get w o Hw)) as [_ Hr].
  rewrite forallb_app, Hr. simpl. by rewrite Hf.
Qed.

Lemma own_visits_pushed o h f w args c :
  own_visits (pushed o h f w) o h args c
  = own_visits w o h args c ++ [ECall (cb_name f) (Some c) args].
Proof.
  unfold own_visits. rewrite registered_pushed, map_app, app_assoc. simpl.
  unfold pushed. by rewrite get_upd_eq.
Qed.

(** The objects a dispatch on [o] bubbles to are not affected by a change
    of [o] that keeps its scope and type. *)
Lemma bubbled_upd k o f w h args c :
  keeps_links f → chain_ok (S k) w o = true →
  bubbled k (upd o f w) o h args c = bubbled k w o h args c
  ∧ match o_scope (get w o) with
    | PApi sc => cost k (upd o f w) sc h = cost k w sc h
    | _ =>
      match o_type (get w o) with
      | PApi t => cost k (upd o f w) t h = cost k w t h
      | _ => True
      end
    end.
Proof.
  intros Hf Hok. pose proof (chain_ok_alloc _ _ _ Hok) as Ha.
  destruct (chain_ok_min _ _ _ Hok) as (k0 & Hle & Hok0 & Hmin).
  destruct k0 as [|k0]; [done|].
  assert (∀ j, j ≤ k0 → chain_ok j w o = false) as Hoff by (intros; apply Hmin; lia).
  assert (∀ p, chain_ok k0 w p = true →
               visits k (upd o f w) p h args c = visits k w p h args c
               ∧ cost k (upd o f w) p h = cost k w p h) as Hp.
  { intros p Hp.
    destruct (visits_stable k0 k (upd o f w) p h args c) as [-> ->];
      [by rewrite chain_ok_upd | lia |].
    destruct (visits_stable k0 k w p h args c) as [-> ->]; [done | lia |].
    by apply visits_upd_off. }
  cbn [chain_ok] in Hok0. apply andb_true_iff in Hok0 as [_ Hok0].
  unfold bubbled. rewrite get_upd_eq.
  destruct (Hf (get w o)) as [-> ->].
  destruct (o_scope (get w o)) as [| |sc]; [destruct (o_type (get w o)) as [| |t] ..|];
    try done; by apply Hp.
Qed.

Lemma visits_pushed k w o h f args c :
  chain_ok (S k) w o = true →
  visits (S k) (pushed o h f w) o h args c
  = own_visits w o h args c ++ [ECall (cb_name f) (Some c) args]
    ++ bubbled k w o h args c
  ∧ cost (S k) (pushed o h f w) o h = S (cost (S k) w o h).
Proof.
  intros Hok. split.
  - rewrite visits_S, own_visits_pushed, <- app_assoc. do 2 f_equal.
    unfold pushed. by apply bubbled_upd; [apply keeps_links_cb|].
  - cbn [cost]. rewrite registered_pushed, length_app. simpl.
    set (F := with_cb (Some (<[h := registered (get w o) h ++ [f]]>
                               (default ∅ (o_cb (get w o)))))).
    change (pushed o h f w) with (upd o F w). rewrite !get_upd_eq.
    destruct (bubbled_upd k o F w h args c (keeps_links_cb _) Hok) as [_ Hc].
    change (o_dsp (F (get w o))) with (o_dsp (get w o)).
    change (o_scope (F (get w o))) with (o_scope (get w o)).
    change (o_type (F (get w o))) with (o_type (get w o)).
    destruct (o_scope (get w o)) as [| |sc]; [destruct (o_type (get w o)) as [| |t] ..|];
      try rewrite Hc; lia.
Qed.

(** X1: for a hook name under which a plain object inherits nothing, [$on]
    completes, and the callback it registers is called by the next
    dispatch of that hook on the object right after the override and
    the callbacks registered before it, and before anything reached by
    bubbling; nothing else about the dispatch changes. *)
Theorem on_then_dispatch k n w o h f args ctx :
  inherited h = None →
  quiet_world w → quiet f = true →
  chain_ok (S k) w o = true → S (cost (S k) w o h) ≤ n →
  dispatch n o h args ctx w
  = (Normal, emits (own_visits w o h args (default o ctx)
                    ++ bubbled k w o h args (default o ctx)) w)
  ∧ on o h f w = (Normal, pushed o h f w)
  ∧ dispatch n o h args ctx (pushed o h f w)
    = (Normal, emits (own_visits w o h args (default o ctx)
                      ++ [ECall (cb_name f) (Some (default o ctx)) args]
                      ++ bubbled k w o h args (default o ctx)) (pushed o h f w)).
Proof.
  intros Hh Hq Hf Hok Hn. split_and!.
  - rewrite (dispatch_quiet (S k)); [| done | done | lia | done]. by rewrite visits_S.
  - by apply on_normal.
  - destruct (visits_pushed k w o h f args (default o ctx) Hok) as [Hv Hc].
    rewrite (dispatch_quiet (S k)).
    + by rewrite Hv.
    + by apply quiet_pushed.
    + unfold pushed. rewrite chain_ok_upd; [done | apply keeps_links_cb |].
      by apply (chain_ok_alloc (S k)).
    + by rewrite Hc.
    + done.
Qed.

Lemma on_then_dispatch_witness :
  inherited "save" = None
  ∧ ∃ w', on 0 "save" (Callback 20 []) family = (Normal, w')
          ∧ log (dispatch 30 0 "save" [VData 1] None w').2
            = [ECall 10 (Some 0) [VData 1]; ECall 11 (Some 0) [VData 1];
               ECall 12 (Some 0) [VData 1]; ECall 20 (Some 0) [VData 1];
               ECall 13 (Some 0) [VData 1]; ECall 14 (Some 0) [VData 1]].
Proof.
  split; [vm_compute; reflexivity|].
  destruct (on_then_dispatch 2 30 family 0 "save" (Callback 20 []) [VData 1] None
              ltac:(vm_compute; reflexivity)
              ltac:(unfold quiet_world; apply (bool_decide_unpack _); vm_compute; exact I)
              eq_refl ltac:(vm_compute; reflexivity) ltac:(vm_compute; lia))
    as (_ & Ho & Hd).
  eexists. split; [exact Ho|]. rewrite Hd. vm_compute. reflexivity.
Defined.

Lemma chain_ok_upd_true k o f w x :
  keeps_links f → chain_ok k w x = true → chain_ok k (upd o f w) x = true.
Proof.
  intros Hf. revert x. induction k as [|k IH]; intros x; [done|].
  cbn [chain_ok]. intros H. apply andb_true_iff in H as [Ha H].
  apply bool_decide_eq_true in Ha. apply andb_true_iff. split.
  - apply bool_decide_eq_true. unfold upd; simpl.
    destruct (decide (o = x)) as [->|Hne].
    + rewrite lookup_insert_eq. by eauto.
    + by rewrite lookup_insert_ne.
  - destruct (links_upd o f w x Hf) as [-> ->]. repeat case_match; auto.
Qed.

(** Whether [$on] completes or throws, what it leaves is the store with
    the [$$cb] of the object replaced. *)
Lemma on_world o h f w r w' :
  on o h f w = (r, w') →
  ∃ m, w' = upd o (with_cb (Some m)) w
       ∧ (∀ h', h' ≠ h → m !! h' = o_cb (get w o) ≫= (.!! h'))
       ∧ (quiet_world w → quiet f = true →
          map_Forall (λ _ cbs, forallb quiet cbs = true) m).
Proof.
  unfold on. intros H.
  assert (∀ h', default ∅ (o_cb (get w o)) !! h' = o_cb (get w o) ≫= (.!! h')) as Hm.
  { intros h'. destruct (o_cb (get w o)); simpl; [done | apply lookup_empty]. }
  destruct (default ∅ (o_cb (get w o)) !! h) as [hooks|] eqn:E;
    [|destruct (inherited h)]; injection H as <- <-; eexists; (split; [reflexivity|]);
    split.
  - intros h' Hne. by rewrite lookup_insert_ne.
  - intros Hq Hf. apply map_Forall_insert_2; [|by apply quiet_cb].
    rewrite forallb_app. simpl. rewrite Hf.
    by rewrite (quiet_cb w o Hq h hooks E).
  - intros h' _. apply Hm.
  - intros Hq _. by apply quiet_cb.
  - intros h' Hne. by rewrite lookup_insert_ne.
  - intros Hq Hf. apply map_Forall_insert_2; [|by apply quiet_cb].
    simpl. by rewrite Hf.
Qed.

Lemma on_other o h f w r w' x h' :
  on o h f w = (r, w') → h' ≠ h →
  o_dsp (get w' x) = o_dsp (get w x)
  ∧ registered (get w' x) h' = registered (get w x) h'
  ∧ o_scope (get w' x) = o_scope (get w x)
  ∧ o_type (get w' x) = o_type (get w x).
Proof.
  intros H Hne. destruct (on_world _ _ _ _ _ _ H) as (m & -> & Hm & _).
  destruct (decide (o = x)) as [->|Hox].
  - rewrite get_upd_eq. split_and!; try done.
    unfold registered. simpl. by rewrite Hm.
  - by rewrite get_upd_ne.
Qed.

Lemma visits_on_other k o h f w r w' h' args c : ∀ p,
  on o h f w = (r, w') → h' ≠ h →
  visits k w' p h' args c = visits k w p h' args c
  ∧ cost k w' p h' = cost k w p h'.
Proof.
  induction k as [|k IH]; [done|]. intros p H Hne. cbn [visits cost].
  destruct (on_other o h f w r w' p h' H Hne) as (-> & -> & -> & ->).
  destruct (o_scope (get w p)) as [| |sc]; [destruct (o_type (get w p)) as [| |t] ..|];
    try done.
  - by destruct (IH t H Hne) as [-> ->].
  - by destruct (IH t H Hne) as [-> ->].
  - by destruct (IH sc H Hne) as [-> ->].
Qed.

(** X2: a call of [$on] for one hook, whether it completes or throws,
    changes no dispatch of another hook, on whatever object of the
    store it is made. *)
Theorem on_other_hook k n w o h f p h' args ctx r w' :
  inherited h' = None →
  quiet_world w → quiet f = true → h' ≠ h →
  chain_ok k w p = true → cost k w p h' ≤ n →
  on o h f w = (r, w') →
  dispatch n p h' args ctx w'
  = (Normal, emits (visits k w p h' args (default p ctx)) w').
Proof.
  intros Hh Hq Hf Hne Hok Hn Hon.
  destruct (visits_on_other k o h f w r w' h' args (default p ctx) p Hon Hne) as [Hv Hc].
  destruct (on_world _ _ _ _ _ _ Hon) as (m & Ew & _ & Hm).
  rewrite (dispatch_quiet k).
  - by rewrite Hv.
  - rewrite Ew. apply quiet_world_upd; [done|].
    apply quiet_obj_cb; [by apply quiet_world_get | by apply Hm].
  - rewrite Ew. by apply chain_ok_upd_true; [apply keeps_links_cb|].
  - by rewrite Hc.
  - done.
Qed.

Lemma on_other_hook_witness :
  (on 0 "load" (Callback 20 []) family).1 = Normal
  ∧ log (dispatch 30 0 "save" [] None (on 0 "load" (Callback 20 []) family).2).2
    = [ECall 10 (Some 0) []; ECall 11 (Some 0) []; ECall 12 (Some 0) [];
       ECall 13 (Some 0) []; ECall 14 (Some 0) []]
  ∧ (on 0 "toString" (Callback 20 []) family).1 = Throw VTypeError
  ∧ log (dispatch 30 0 "save" [] None (on 0 "toString" (Callback 20 []) family).2).2
    = [ECall 10 (Some 0) []; ECall 11 (Some 0) []; ECall 12 (Some 0) [];
       ECall 13 (Some 0) []; ECall 14 (Some 0) []].
Proof.
  assert (quiet_world family) as Hq.
  { unfold quiet_world. apply (bool_decide_unpack _). vm_compute. exact I. }
  split; [vm_compute; reflexivity|]. split; [|split; [vm_compute; reflexivity|]].
  - rewrite (on_other_hook 3 30 family 0 "load" (Callback 20 []) 0 "save" [] None
               Normal (on 0 "load" (Callback 20 []) family).2
               ltac:(vm_compute; reflexivity) Hq eq_refl ltac:(discriminate)
               ltac:(vm_compute; reflexivity) ltac:(vm_compute; lia)
               ltac:(vm_compute; reflexivity)).
    vm_compute. reflexivity.
  - rewrite (on_other_hook 3 30 family 0 "toString" (Callback 20 []) 0 "save" [] None
               (Throw VTypeError) (on 0 "toString" (Callback 20 []) family).2
               ltac:(vm_compute; reflexivity) Hq eq_refl ltac:(discriminate)
               ltac:(vm_compute; reflexivity) ltac:(vm_compute; lia)
               ltac:(vm_compute; reflexivity)).
    vm_compute. reflexivity.
Defined.

Lemma self_scope_no_chain k w o : o_scope (get w o) = PApi o → chain_ok k w o = false.
Proof.
  intros H. induction k as [|k IH]; [done|].
  cbn [chain_ok]. rewrite H, IH. apply andb_false_r.
Qed.

(** X3: for a hook name under which a plain object inherits nothing, a
    callback registered on an object is also called for the dispatches
    made on the objects whose scope it is, with the dispatching object
    as [this]: after the callbacks of the scope that were registered
    before it. *)
Theorem on_scope_reaches_children k n w o p h f args ctx :
  inherited h = None →
  quiet_world w → quiet f = true →
  o_scope (get w p) = PApi o →
  chain_ok (S (S k)) w p = true → S (cost (S (S k)) w p h) ≤ n →
  on o h f w = (Normal, pushed o h f w)
  ∧ dispatch n p h args ctx (pushed o h f w)
    = (Normal, emits (own_visits w p h args (default p ctx)
                      ++ own_visits w o h args (default p ctx)
                      ++ [ECall (cb_name f) (Some (default p ctx)) args]
                      ++ bubbled k w o h args (default p ctx)) (pushed o h f w)).
Proof.
  intros Hh Hq Hf Hsc Hok Hn. split; [by apply on_normal|]. set (c := default p ctx).
  assert (o ≠ p) as Hne.
  { intros ->. by rewrite self_scope_no_chain in Hok. }
  assert (chain_ok (S k) w o = true) as Hoko.
  { remember (S k) as k1. cbn [chain_ok] in Hok. rewrite Hsc in Hok.
    by apply andb_true_iff in Hok as [_ Hok]. }
  destruct (visits_pushed k w o h f args c Hoko) as [Hv Hc].
  assert (get (pushed o h f w) p = get w p) as Hp
    by (unfold pushed; by rewrite get_upd_ne).
  rewrite (dispatch_quiet (S (S k))).
  - f_equal. f_equal. fold c. rewrite visits_S. f_equal.
    + unfold own_visits. by rewrite Hp.
    + unfold bubbled. by rewrite Hp, Hsc, Hv.
  - by apply quiet_pushed.
  - unfold pushed. by apply chain_ok_upd_true; [apply keeps_links_cb|].
  - remember (S k) as k1. cbn [cost] in *. rewrite Hp, Hsc in *. rewrite Hc. lia.
  - done.
Qed.

Lemma on_scope_reaches_children_witness :
  inherited "save" = None
  ∧ ∃ w', on 1 "save" (Callback 20 []) family = (Normal, w')
          ∧ log (dispatch 30 0 "save" [] None w').2
            = [ECall 10 (Some 0) []; ECall 11 (Some 0) []; ECall 12 (Some 0) [];
               ECall 13 (Some 0) []; ECall 20 (Some 0) []; ECall 14 (Some 0) []].
Proof.
  split; [vm_compute; reflexivity|].
  destruct (on_scope_reaches_children 1 30 family 1 0 "save" (Callback 20 []) [] None
              ltac:(vm_compute; reflexivity)
              ltac:(unfold quiet_world; apply (bool_decide_unpack _); vm_compute; exact I)
              eq_refl eq_refl ltac:(vm_compute; reflexivity) ltac:(vm_compute; lia))
    as (Ho & Hd).
  eexists. split; [exact Ho|]. rewrite Hd. vm_compute. reflexivity.
Defined.

(** ** Where a dispatch stops *)

Lemma seq_throw (m k : M) w e w1 : m w = (Throw e, w1) → (m ;;; k) w = (Throw e, w1).
Proof. intros H. unfold seq. by rewrite H. Qed.

Lemma cleared_fields o w x :
  o_cb (get (cleared o w) x) = o_cb (get w x)
  ∧ o_scope (get (cleared o w) x) = o_scope (get w x)
  ∧ o_type (get (cleared o w) x) = o_type (get w x).
Proof.
  unfold cleared. destruct (o_dsp (get w o)); [|done].
  destruct (decide (o = x)) as [->|Hne].
  - rewrite get_upd_eq. by destruct (get w x).
  - by rewrite get_upd_ne.
Qed.

(** The first step of a dispatch: the override, if there is one, is
    cleared and invoked. *)
Lemma stage_override n o h args c w :
  (∀ d, o_dsp (get w o) = Some d → quiet_dsp d = true) →
  from_option ocost 0 (o_dsp (get w o)) ≤ n → inherited h = None →
  match o_dsp (get w o) with
  | Some f => λ w, invoke n f h args c (upd o (with_dsp None) w)
  | None => ret
  end w
  = (Normal, emits (from_option (λ d, ovisits d h args c) [] (o_dsp (get w o)))
               (cleared o w)).
Proof.
  intros Hd Hn Hh. unfold cleared. destruct (o_dsp (get w o)) as [d|]; simpl in *.
  - apply invoke_quiet; [by apply Hd | done | done].
  - unfold ret. by rewrite emits_nil.
Qed.

Lemma stage_callbacks n o h args c l w :
  forallb quiet (registered (get w o) h) = true →
  length (registered (get w o) h) + 2 ≤ n →
  match o_cb (get (emits l (cleared o w)) o) ≫= (.!! h) with
  | Some cbs => call_all n cbs c args (emits l (cleared o w))
  | None => (Normal, emits l (cleared o w))
  end
  = (Normal, emits (l ++ map (λ f, ECall (cb_name f) (Some c) args)
                            (registered (get w o) h)) (cleared o w)).
Proof.
  intros Hr Hn. rewrite get_emits.
  destruct (cleared_fields o w o) as (-> & _ & _). unfold registered in *.
  destruct (o_cb (get w o) ≫= (.!! h)) as [cbs|]; simpl in *.
  - rewrite call_all_quiet, emits_emits; [done.. | lia].
  - by rewrite app_nil_r.
Qed.

(** X4: a scope that cannot dispatch is passed over, but a type that
    cannot dispatch is called all the same: the dispatch throws a
    TypeError once the override and the registered callbacks have run,
    and leaves the override cleared.  (For a hook name under which a
    plain object inherits nothing.) *)
Theorem dispatch_type_without_dispatch n o h args ctx w :
  inherited h = None →
  quiet_world w → (∀ sc, o_scope (get w o) ≠ PApi sc) → cost 1 w o h ≤ n →
  (o_type (get w o) = PPlain →
   dispatch n o h args ctx w
   = (Throw VTypeError, emits (own_visits w o h args (default o ctx)) (cleared o w)))
  ∧ (o_type (get w o) = PNone → is_Some (objs w !! o) →
     dispatch n o h args ctx w
     = (Normal, emits (own_visits w o h args (default o ctx)) w)).
Proof.
  intros Hh Hq Hsc Hn. split.
  - intros Hty. cbn [cost] in Hn. destruct n as [|n]; [lia|]. rewrite dispatch_S.
    destruct (quiet_obj_inv _ (quiet_world_get w o Hq)) as [Hd Hr].
    erewrite seq_normal by (apply stage_override; [done | lia | done]).
    erewrite seq_normal by (apply stage_callbacks; [done | lia]).
    apply seq_throw. rewrite get_emits.
    destruct (cleared_fields o w o) as (_ & -> & ->). rewrite Hty.
    destruct (o_scope (get w o)) as [| |sc]; [done | done | by destruct (Hsc sc)].
  - intros Hty Ha. rewrite (dispatch_quiet 1); [| done | | done | done].
    + rewrite visits_S. unfold bubbled. rewrite Hty.
      destruct (o_scope (get w o)) as [| |sc];
        [by rewrite app_nil_r | by rewrite app_nil_r | by destruct (Hsc sc)].
    + cbn [chain_ok]. rewrite bool_decide_eq_true_2 by done. rewrite Hty.
      by destruct (o_scope (get w o)) as [| |sc]; [| | destruct (Hsc sc)].
Qed.

Lemma dispatch_type_without_dispatch_witness :
  dispatch 10 0 "save" [] None orphan
  = (Throw VTypeError,
     emits [ECall 1 (Some 0) []; ECall 3 (Some 0) []] (upd 0 (with_dsp None) orphan)).
Proof.
  apply (proj1 (dispatch_type_without_dispatch 10 0 "save" [] None orphan
                  ltac:(vm_compute; reflexivity)
                  ltac:(unfold quiet_world; apply (bool_decide_unpack _); vm_compute; exact I)
                  ltac:(intros sc; vm_compute; discriminate)
                  ltac:(vm_compute; lia))).
  vm_compute. reflexivity.
Defined.

Lemma call_all_throw nm e rest post c args pre : ∀ n w,
  forallb quiet pre = true → length pre + 3 ≤ n →
  call_all n (pre ++ Callback nm (AThrow e :: rest) :: post) c args w
  = (Throw e, emits (map (λ f, ECall (cb_name f) (Some c) args) pre
                     ++ [ECall nm (Some c) args]) w).
Proof.
  induction pre as [|f pre IH]; simpl; intros n w Hq Hn.
  - destruct n as [|[|[|n]]]; try lia.
    rewrite call_all_S. apply seq_throw. by rewrite call_S, exec_S.
  - destruct n; [lia|]. rewrite call_all_S.
    apply andb_true_iff in Hq as [Hq1 Hq2].
    erewrite seq_normal by (apply call_quiet; [done | lia]).
    rewrite IH by (done || lia). by rewrite emits_emits.
Qed.

(** An override made of callbacks that return at once completes after
    its visits, or throws a TypeError after some of them: at a mapping
    without entry for a hook name under which a plain object inherits
    what cannot be applied. *)
Lemma invoke_quiet_any d h args c :
  quiet_dsp d = true →
  ∀ n w, ocost d ≤ n →
  invoke n d h args c w = (Normal, emits (ovisits d h args c) w)
  ∨ ∃ l, l `prefix_of` ovisits d h args c
         ∧ invoke n d h args c w = (Throw VTypeError, emits l w).
Proof.
  assert (∀ (m : gmap string callback) n w,
            map_Forall (λ _ f, quiet f = true) m → 2 ≤ n →
            match m !! h with
            | Some extraCb => call n extraCb (Some c) args
            | None =>
              match inherited h with
              | Some MObject | Some MDefine => λ w, (Throw VTypeError, w)
              | Some MPure | None => ret
              end
            end w = (Normal, emits (entry m h c args) w)
            ∨ match m !! h with
              | Some extraCb => call n extraCb (Some c) args
              | None =>
                match inherited h with
                | Some MObject | Some MDefine => λ w, (Throw VTypeError, w)
                | Some MPure | None => ret
                end
              end w = (Throw VTypeError, w)) as Hentry.
  { intros m n w Hm Hn. unfold entry. destruct (m !! h) as [f|] eqn:E.
    - left. apply call_quiet; [by eapply Hm | done].
    - rewrite emits_nil. destruct (inherited h) as [[]|]; auto. }
  induction d as [f | m | od m IH] using override_old_ind;
    simpl; intros Hq n w Hn.
  - left. destruct n; [lia|]. rewrite invoke_S. apply call_quiet; [done | lia].
  - destruct n; [lia|]. rewrite invoke_S, seq_ret.
    apply bool_decide_eq_true in Hq.
    destruct (Hentry m n w Hq ltac:(lia)) as [E|E]; [by left|].
    right. exists []. split; [apply prefix_nil | rewrite emits_nil; exact E].
  - destruct n; [lia|]. rewrite invoke_S.
    apply andb_true_iff in Hq as [Hq1 Hq2]. apply bool_decide_eq_true in Hq2.
    destruct (IH Hq1 n w ltac:(lia)) as [E|(l & Hl & E)].
    + erewrite seq_normal by exact E.
      destruct (Hentry m n (emits (ovisits od h args c) w) Hq2 ltac:(lia)) as [E2|E2].
      * left. rewrite <- emits_emits. exact E2.
      * right. exists (ovisits od h args c). split; [by apply prefix_app_r | exact E2].
    + right. exists l. split; [by apply prefix_app_r|]. by apply seq_throw.
Qed.

(** X5: when a registered callback throws, the dispatch throws the same
    exception at once: the callbacks registered after it are not called,
    nothing bubbles to the scope or the type, and the override, which
    was cleared for the time of the dispatch, is not put back.  Under a
    hook name for which the override itself throws, the dispatch ends in
    the override in the same way. *)
Theorem dispatch_callback_throws n o h args ctx w pre nm e rest post :
  (∀ d, o_dsp (get w o) = Some d → quiet_dsp d = true) →
  registered (get w o) h = pre ++ Callback nm (AThrow e :: rest) :: post →
  forallb quiet pre = true →
  from_option ocost 0 (o_dsp (get w o)) + length pre + 4 ≤ n →
  let ov := from_option (λ d, ovisits d h args (default o ctx)) [] (o_dsp (get w o)) in
  let l := ov ++ map (λ f, ECall (cb_name f) (Some (default o ctx)) args) pre
              ++ [ECall nm (Some (default o ctx)) args] in
  (inherited h = None →
   dispatch n o h args ctx w = (Throw e, emits l (cleared o w)))
  ∧ (dispatch n o h args ctx w = (Throw e, emits l (cleared o w))
     ∨ ∃ l', l' `prefix_of` ov
             ∧ dispatch n o h args ctx w = (Throw VTypeError, emits l' (cleared o w))).
Proof.
  intros Hd Hr Hq Hn ov l. destruct n as [|n]; [lia|]. rewrite dispatch_S.
  set (rest3 := (λ w, match o_cb (get w o) ≫= (.!! h) with
                      | Some cbs => call_all n cbs (default o ctx) args w
                      | None => (Normal, w)
                      end) ;;; _).
  assert (rest3 (emits ov (cleared o w)) = (Throw e, emits l (cleared o w))) as Hrest.
  { unfold rest3. apply seq_throw. rewrite get_emits.
    destruct (cleared_fields o w o) as (-> & _ & _). unfold registered in Hr.
    destruct (o_cb (get w o) ≫= (.!! h)) as [cbs|]; simpl in Hr.
    - subst cbs. rewrite call_all_throw by (done || lia). by rewrite emits_emits.
    - by destruct pre. }
  clearbody rest3. split.
  - intros Hh. by erewrite seq_normal by (apply stage_override; [done | lia | done]).
  - subst ov. unfold cleared in *. destruct (o_dsp (get w o)) as [d|]; simpl in *.
    + destruct (invoke_quiet_any d h args (default o ctx) (Hd d eq_refl) n
                  (upd o (with_dsp None) w) ltac:(lia)) as [E|(l' & Hl & E)].
      * left. by erewrite seq_normal by exact E.
      * right. exists l'. split; [done|]. by apply seq_throw.
    + left. rewrite seq_ret. by rewrite emits_nil in Hrest.
Qed.

Lemma dispatch_callback_throws_witness :
  dispatch 10 0 "save" [] None halting
  = (Throw (VData 7),
     emits [ECall 1 (Some 0) []; ECall 3 (Some 0) []; ECall 4 (Some 0) []]
       (upd 0 (with_dsp None) halting)).
Proof.
  apply (proj1 (dispatch_callback_throws 10 0 "save" [] None halting
                  [Callback 3 []] 4 (VData 7) [] [Callback 5 []]
                  ltac:(intros d; vm_compute; by intros [= <-])
                  ltac:(vm_compute; reflexivity) eq_refl ltac:(vm_compute; lia))).
  vm_compute. reflexivity.
Defined.

(** ** Decorated contexts, nested and re-applied *)

Lemma cost_dsp k w o d h :
  chain_ok k w o = true →
  cost k (upd o (with_dsp d) w) o h
  = from_option ocost 0 d + cost k (upd o (with_dsp None) w) o h.
Proof.
  intros Hok. destruct k as [|k]; [done|].
  pose proof (chain_ok_alloc _ _ _ Hok) as Ha.
  destruct (bubbled_upd k o (with_dsp d) w h [] 0 (keeps_links_dsp d) Hok) as [_ H1].
  destruct (bubbled_upd k o (with_dsp None) w h [] 0 (keeps_links_dsp None) Hok) as [_ H2].
  cbn [cost]. rewrite !get_upd_eq.
  change (o_dsp (with_dsp ?a ?x)) with a.
  change (registered (with_dsp ?a ?x) h) with (registered x h).
  change (o_scope (with_dsp ?a ?x)) with (o_scope x).
  change (o_type (with_dsp ?a ?x)) with (o_type x). simpl.
  destruct (o_scope (get w o)) as [| |sc]; [destruct (o_type (get w o)) as [| |t] ..|];
    try rewrite H1, H2; lia.
Qed.

Lemma decorate_dispatch k o hk h args n w :
  quiet_world (upd o (with_dsp (new_dispatcher hk (o_dsp (get w o)))) w) →
  chain_ok k w o = true →
  cost k (upd o (with_dsp (new_dispatcher hk (o_dsp (get w o)))) w) o h ≤ n →
  inherited h = None →
  decorate o hk (dispatch n o h args None) w
  = (Normal, emits (fired k w o (new_dispatcher hk (o_dsp (get w o))) h args) w).
Proof.
  intros Hq Hok Hn Hh. pose proof (chain_ok_alloc _ _ _ Hok) as Ha.
  unfold decorate. rewrite (dispatch_quiet k); [| done | | done | done].
  - rewrite upd_emits, upd_upd.
    rewrite (upd_same o (λ x, with_dsp (o_dsp (get w o)) (with_dsp _ x)) w);
      [| done | cbv beta; rewrite with_dsp_with_dsp; apply with_dsp_get].
    by rewrite visits_dsp.
  - by rewrite chain_ok_upd by (apply keeps_links_dsp || done).
Qed.

Lemma upd_dsp_dsp o d d' w : upd o (with_dsp d) (upd o (with_dsp d') w) = upd o (with_dsp d) w.
Proof. rewrite upd_upd. apply upd_ext. apply with_dsp_with_dsp. Qed.

Lemma quiet_world_inner o d m w :
  quiet_world (upd o (with_dsp (Some (DMap (Some d) m))) w) →
  quiet_world (upd o (with_dsp (Some d)) w).
Proof.
  intros Hq. apply quiet_world_alt. intros x.
  pose proof (proj1 (quiet_world_alt _) Hq x) as Hx.
  destruct (decide (o = x)) as [->|Hne].
  - rewrite get_upd_eq in *. unfold quiet_obj in *. simpl in *.
    apply andb_true_iff in Hx as [Hd Hc]. apply andb_true_iff in Hd as [Hd _].
    by rewrite Hd, Hc.
  - by rewrite get_upd_ne in * by done.
Qed.

(** X6: decorated contexts nest.  Inside the inner of two contexts
    opened with mappings a dispatch invokes the override that was active
    outside, the entry of the outer mapping, then the entry of the inner
    one; once the inner context is left, a dispatch invokes the outer
    mapping's entry only; at the end the store is as it was.  (For a
    hook name under which a plain object inherits nothing.) *)
Theorem decorate_nested k n o m1 m2 h args w :
  inherited h = None →
  let d0 := o_dsp (get w o) in
  let d1 := DMap d0 m1 in
  let d2 := DMap (Some d1) m2 in
  let A := from_option (λ d, ovisits d h args o) [] d0 in
  let V := visits k (upd o (with_dsp None) w) o h args o in
  quiet_world (upd o (with_dsp (Some d2)) w) →
  chain_ok k w o = true →
  cost k (upd o (with_dsp (Some d2)) w) o h ≤ n →
  decorate o (HMap m1)
    (decorate o (HMap m2) (dispatch n o h args None) ;;; dispatch n o h args None) w
  = (Normal, emits ((A ++ entry m1 h o args ++ entry m2 h o args ++ V)
                    ++ (A ++ entry m1 h o args ++ V)) w).
Proof.
  intros Hh d0 d1 d2 A V Hq Hok Hn. pose proof (chain_ok_alloc _ _ _ Hok) as Ha.
  pose proof (quiet_world_inner _ _ _ _ Hq) as Hq1.
  assert (cost k (upd o (with_dsp (Some d1)) w) o h ≤ n) as Hn1.
  { rewrite cost_dsp in * by done. simpl in *. lia. }
  unfold decorate at 1. fold d0. change (new_dispatcher (HMap m1) d0) with (Some d1).
  set (w1 := upd o (with_dsp (Some d1)) w).
  assert (o_dsp (get w1 o) = Some d1) as Hd1 by (unfold w1; by rewrite get_upd_eq).
  assert (chain_ok k w1 o = true) as Hok1.
  { unfold w1. by rewrite chain_ok_upd by (apply keeps_links_dsp || done). }
  erewrite seq_normal; cycle 1.
  { apply (decorate_dispatch k); rewrite ?Hd1; unfold w1; simpl;
      rewrite ?upd_dsp_dsp; [done | done | | done].
    by rewrite cost_objs with (w' := upd o (with_dsp (Some d2)) w). }
  rewrite (dispatch_quiet k); [| by apply quiet_world_emits | by rewrite chain_ok_emits
                               | by rewrite cost_emits | done].
  rewrite visits_emits, emits_emits, upd_emits, Hd1.
  change (new_dispatcher (HMap m2) (Some d1)) with (Some d2).
  subst w1. rewrite upd_dsp_dsp, (upd_same o (with_dsp d0) w) by (done || apply with_dsp_get).
  rewrite fired_upd_dsp, visits_dsp by done. unfold fired. simpl. fold A V.
  by rewrite <- !app_assoc.
Qed.

Lemma decorate_nested_witness :
  decorate 0 (HMap {[ "save" := Callback 2 [] ]})
    (decorate 0 (HMap {[ "save" := Callback 3 [] ]}) (dispatch 20 0 "save" [] None)
     ;;; dispatch 20 0 "save" [] None) decorated
  = (Normal, emits [ECall 1 (Some 0) []; ECall 2 (Some 0) []; ECall 3 (Some 0) [];
                    ECall 1 (Some 0) []; ECall 2 (Some 0) []] decorated).
Proof.
  rewrite (decorate_nested 1 20 0 {[ "save" := Callback 2 [] ]} {[ "save" := Callback 3 [] ]}
             "save" [] decorated
             ltac:(vm_compute; reflexivity)
             ltac:(unfold quiet_world; apply (bool_decide_unpack _); vm_compute; exact I)
             ltac:(vm_compute; reflexivity) ltac:(vm_compute; lia)).
  vm_compute. reflexivity.
Defined.

(** X7: the override that [$dispatcher] gives can be put back later with
    [$decorate]: whatever override the object holds by then, a dispatch
    in that context makes the visits it would have made when the
    override was captured, and the override the object holds by then is
    in place again afterwards.  (For a hook name under which a plain
    object inherits nothing.) *)
Theorem dispatcher_reapplied k n o h args d' w :
  inherited h = None →
  quiet_world w → chain_ok k w o = true → cost k w o h ≤ n →
  decorate o (as_hooks (dispatcher w o)) (dispatch n o h args None)
    (upd o (with_dsp d') w)
  = (Normal, emits (visits k w o h args o) (upd o (with_dsp d') w)).
Proof.
  intros Hh Hq Hok Hn. pose proof (chain_ok_alloc _ _ _ Hok) as Ha.
  rewrite decorate_other_dsp. unfold dispatcher, decorate.
  assert (new_dispatcher (as_hooks (o_dsp (get w o))) (o_dsp (get w o)) = o_dsp (get w o))
    as -> by by destruct (o_dsp (get w o)).
  rewrite (upd_same o _ w) by (done || apply with_dsp_get).
  rewrite (dispatch_quiet k) by done. simpl.
  by rewrite (upd_same o _ (emits _ w)) by (done || apply with_dsp_get).
Qed.

Lemma dispatcher_reapplied_witness :
  decorate 0 (as_hooks (dispatcher decorated 0)) (dispatch 10 0 "save" [] None)
    (upd 0 (with_dsp (Some inner)) decorated)
  = (Normal, emits [ECall 1 (Some 0) []] (upd 0 (with_dsp (Some inner)) decorated)).
Proof.
  rewrite (dispatcher_reapplied 1 10 0 "save" [] (Some inner) decorated
             ltac:(vm_compute; reflexivity)
             ltac:(unfold quiet_world; apply (bool_decide_unpack _); vm_compute; exact I)
             ltac:(vm_compute; reflexivity) ltac:(vm_compute; lia)).
  vm_compute. reflexivity.
Defined.

(** X8: [$dispatch] and [$decorate], however they are nested through
    callbacks that dispatch again, open decorated contexts or throw,
    write no property of any object but [$$dsp], add to the record
    without calling the transport, and, when the dispatch completes, have
    put every [$$dsp] back. *)
Theorem dispatch_writes_only_the_override n o h args ctx w r w' :
  dispatch n o h args ctx w = (r, w') →
  (∀ x, with_dsp None (get w' x) = with_dsp None (get w x))
  ∧ (∃ l, log w' = log w ++ l ∧ issued l = [])
  ∧ (r = Normal → ∀ x, get w' x = get w x).
Proof.
  intros H. destruct (dispatch_framed n o h args ctx w r w' H) as [Hs (l & Hl & Hf)].
  split_and!; [done | |].
  - exists l. split; [done|]. by eapply issued_sync.
  - intros ->. by apply (dispatch_restoring n o h args ctx).
Qed.

Lemma dispatch_writes_only_the_override_witness :
  (∀ x, with_dsp None (get (dispatch 10 0 "save" [] None echoing).2 x)
        = with_dsp None (get echoing x))
  ∧ (∃ l, log (dispatch 10 0 "save" [] None echoing).2 = log echoing ++ l ∧ issued l = [])
  ∧ ((dispatch 10 0 "save" [] None echoing).1 = Normal →
     ∀ x, get (dispatch 10 0 "save" [] None echoing).2 x = get echoing x).
Proof.
  apply (dispatch_writes_only_the_override 10 0 "save" [] None echoing).
  vm_compute. reflexivity.
Defined.

(** ** The request code and [$pending] *)

Lemma pending_upd o f w :
  (∀ x, o_pending (f x) = o_pending x) →
  ∀ y, o_pending (get (upd o f w) y) = o_pending (get w y).
Proof.
  intros Hf y. destruct (decide (o = y)) as [->|Hne].
  - by rewrite get_upd_eq.
  - by rewrite get_upd_ne.
Qed.

Lemma pending_frame w w' : frame w w' → ∀ x, o_pending (get w' x) = o_pending (get w x).
Proof. intros [H _] x. specialize (H x). by apply (f_equal o_pending) in H. Qed.

Lemma keeps_framed P m : pending_only P → framed m → keeps P m.
Proof. intros HP Hm w r w' E. apply HP. apply pending_frame. by eapply Hm. Qed.

Lemma keeps_seq P m k : keeps P m → keeps P k → keeps P (m ;;; k).
Proof.
  intros Hm Hk w r w'. unfold seq. destruct (m w) as [r1 w1] eqn:E.
  specialize (Hm _ _ _ E).
  destruct r1; intros H HP.
  - eapply Hk; [exact H | by apply Hm].
  - injection H as <- <-. by apply Hm.
  - injection H as <- <-. by apply Hm.
Qed.

Lemma keeps_set P o f :
  pending_only P → (∀ x, o_pending (f x) = o_pending x) →
  keeps P (λ w, (Normal, upd o f w)).
Proof. intros HP Hf w r w' [= <- <-]. apply HP. by apply pending_upd. Qed.

Lemma keeps_decorate P o hk body :
  pending_only P → keeps P body → keeps P (decorate o hk body).
Proof.
  intros HP Hb w r w'. unfold decorate.
  destruct (body _) as [r1 w1] eqn:E. intros [= <- <-] Hw.
  eapply HP; [apply pending_upd; by intros []|].
  eapply Hb; [exact E|].
  eapply HP; [apply pending_upd; by intros []|]. done.
Qed.

Lemma keeps_dispatch P n o h args ctx : pending_only P → keeps P (dispatch n o h args ctx).
Proof. intros HP. apply keeps_framed; [done|]. intros w. apply dispatch_framed. Qed.

Lemma keeps_opt_call P n cb o args : pending_only P → keeps P (opt_call n cb o args).
Proof.
  intros HP. destruct cb; simpl.
  - apply keeps_framed; [done|]. intros w. apply call_framed.
  - by intros w r w' [= <- <-].
Qed.

Lemma lift_keeps P m s r s1 :
  keeps P m → lift m s = (r, s1) → P (st_world s) → P (st_world s1).
Proof. intros Hm E. apply lift_fields in E as (_ & _ & _ & _ & E). by eapply Hm. Qed.

Lemma performRequest_keeps P n c s x s1 :
  pending_only P → performRequest n c s = (x, s1) → P (st_world s) → P (st_world s1).
Proof.
  intros HP. unfold performRequest. case_decide.
  - intros [= <- <-]. simpl. apply HP. apply pending_upd. by intros [].
  - destruct (lift _ s) as [r s0] eqn:E. intros Hx Hs.
    eapply lift_keeps in E; [| | exact Hs]; cycle 1.
    { apply keeps_decorate, keeps_seq; [done | | by apply keeps_dispatch].
      intros w r' w' [= <- <-]. apply HP. intros y.
      rewrite !pending_upd; [done | by intros [] ..]. }
    destruct r; injection Hx as <- <-; [| done..].
    unfold then_, http, alloc. simpl. rewrite st_world_subscribe. simpl.
    revert E. by apply HP.
Qed.

Lemma pending_only_same w0 :
  pending_only (λ w, ∀ y, o_pending (get w y) = o_pending (get w0 y)).
Proof. intros w w' H Hw y. by rewrite H. Qed.

(** X9: with callbacks that do not themselves call the request API
    (they read the object, dispatch, open decorated contexts or throw):
    when [$send] throws, which it does when [performRequest] runs at
    once and a [before-request] callback throws, the object had no
    operation chain and has none now, no transport call was made, and
    the configuration stays in [$pending] although it was never
    submitted. *)
Theorem send_throws n o r succ err s e s' :
  send n o r succ err s = (Throw e, s') →
  truthy (o_promise (get (st_world s) o)) = false
  ∧ (r ∉ canceled s)
  ∧ o_promise (get (st_world s') o) = o_promise (get (st_world s) o)
  ∧ o_pending (get (st_world s') o) = Val (pending_of (st_world s) o ++ [r])
  ∧ canceled s' = canceled s ∧ proms s' = proms s ∧ jobs s' = jobs s
  ∧ inflight s' = inflight s
  ∧ issued (log (st_world s')) = issued (log (st_world s)).
Proof.
  unfold send.
  change (match o_pending (get (st_world s) o) with Val l => l | _ => [] end)
    with (pending_of (st_world s) o).
  set (c := Closure o r (dispatcher (st_world s) o) succ err).
  set (s1 := on_self o (with_pending (Val (pending_of (st_world s) o ++ [r]))) s).
  assert (o_promise (get (st_world s1) o) = o_promise (get (st_world s) o)) as Ep.
  { unfold s1, on_self. simpl. by rewrite get_upd_eq. }
  assert (o_pending (get (st_world s1) o) = Val (pending_of (st_world s) o ++ [r])) as El.
  { unfold s1, on_self. simpl. by rewrite get_upd_eq. }
  rewrite Ep. destruct (o_promise (get (st_world s) o)) as [| |p] eqn:E;
    [| | destruct (then_ _ _ _ _); discriminate].
  all: destruct (performRequest n c s1) as [x s2] eqn:Ex;
    destruct x; intros [= <- <-]; try discriminate.
  all: pose proof (performRequest_canceled _ _ _ _ _ Ex) as Ec.
  all: pose proof (performRequest_keeps _ _ _ _ _ _ (pending_only_same (st_world s1)) Ex
                     (λ y, eq_refl) o) as Epd.
  all: assert (r ∉ canceled s) as Hr.
  1, 3: intros Hin; unfold performRequest in Ex;
    rewrite decide_True in Ex by done; discriminate.
  all: destruct (performRequest_handled _ _ _ _ _ Ex ltac:(done))
    as (Ej & Hp & [(_ & Eps & Ei & Eis)|[((out & ? & _) & _)|(c' & _ & ? & _)]]);
    try discriminate.
  all: split_and!; try done; first [by rewrite Hp | by rewrite Epd].
Qed.

Lemma send_throws_witness :
  (send 10 0 7 None None (init refusing)).1 = Throw (VData 3)
  ∧ truthy (o_promise (get refusing 0)) = false
  ∧ o_promise (get (st_world (send 10 0 7 None None (init refusing)).2) 0) = Undefined
  ∧ o_pending (get (st_world (send 10 0 7 None None (init refusing)).2) 0) = Val [7]
  ∧ inflight (send 10 0 7 None None (init refusing)).2 = [].
Proof.
  destruct (send_throws 10 0 7 None None (init refusing) (VData 3)
              (send 10 0 7 None None (init refusing)).2
              ltac:(vm_compute; reflexivity))
    as (H1 & _ & H2 & H3 & _ & _ & _ & H4 & _).
  split_and!; [vm_compute; reflexivity | exact H1 | exact H2 | exact H3 | exact H4].
Defined.

(** ** Cancellation *)

Lemma cancel_world o s : st_world (cancel o s) = upd o (with_promise Null) (st_world s).
Proof. unfold cancel. by destruct (o_pending (get (st_world s) o)). Qed.

Lemma cancel_canceled o s :
  canceled (cancel o s) = canceled s ∪ list_to_set (pending_of (st_world s) o).
Proof.
  unfold cancel, pending_of.
  destruct (o_pending (get (st_world s) o)); simpl; try done;
    by rewrite (right_id_L ∅ (∪)).
Qed.

Lemma cancel_rest o s :
  proms (cancel o s) = proms s ∧ jobs (cancel o s) = jobs s
  ∧ inflight (cancel o s) = inflight s.
Proof. unfold cancel. by destruct (o_pending (get (st_world s) o)). Qed.


(** X11: a configuration that was in [$pending] when [$cancel] was
    called stays canceled: submitted again, it reaches neither the
    hooks nor the transport; [$send] sets the status to canceled, joins
    the configuration to [$pending] once more, and starts a chain that
    is already fulfilled with the object. *)
Theorem canceled_config_resubmitted n o r succ err s l :
  o_pending (get (st_world s) o) = Val l → r ∈ l →
  send n o r succ err (cancel o s)
  = (Normal,
     State (upd o (with_promise (Val (length (proms s))))
              (upd o (with_status (Some StCanceled))
                 (upd o (with_pending (Val (l ++ [r])))
                    (upd o (with_promise Null) (st_world s)))))
           (canceled s ∪ list_to_set l)
           (proms s ++ [Settled (Fulfilled (VObj o))])
           (jobs s) (inflight s)).
Proof.
  intros Hl Hr. unfold send.
  destruct (cancel_rest o s) as (Ep & Ej & Ei).
  pose proof (cancel_canceled o s) as Ec. unfold pending_of in Ec. rewrite Hl in Ec.
  rewrite cancel_world, get_upd_eq. simpl. rewrite Hl.
  unfold on_self. rewrite cancel_world. simpl. rewrite !get_upd_eq. simpl.
  unfold performRequest, with_world. cbn [c_req c_self canceled].
  rewrite Ec, decide_True; cycle 1.
  { apply elem_of_union. right. by apply elem_of_list_to_set. }
  unfold on_self, alloc, with_world. cbn [st_world canceled proms jobs inflight].
  by rewrite Ep, Ej, Ei.
Qed.

Lemma canceled_config_resubmitted_witness :
  o_pending (get (st_world one_sent) 0) = Val [7]
  ∧ log (st_world (send 10 0 7 None None (cancel 0 one_sent)).2) = log (st_world one_sent)
  ∧ inflight (send 10 0 7 None None (cancel 0 one_sent)).2 = inflight one_sent
  ∧ o_status (get (st_world (send 10 0 7 None None (cancel 0 one_sent)).2) 0)
    = Some StCanceled
  ∧ o_pending (get (st_world (send 10 0 7 None None (cancel 0 one_sent)).2) 0)
    = Val [7; 7].
Proof.
  rewrite (canceled_config_resubmitted 10 0 7 None None one_sent [7]
             ltac:(vm_compute; reflexivity) ltac:(apply list_elem_of_singleton; reflexivity)).
  split_and!; vm_compute; reflexivity.
Defined.

(** X12: after [$cancel] the next [$send] does not wait: with [$promise]
    reset there is no chain to join, so [performRequest] runs at once
    and calls the transport, also while the call of a canceled
    operation is still in flight. *)
Theorem send_after_cancel k n o r succ err s :
  let w := st_world s in
  r ∉ canceled s → r ∉ pending_of w o →
  ready k n w o (o_dsp (get w o)) "before-request" →
  ∃ s', send n o r succ err (cancel o s) = (Normal, s')
        ∧ inflight s' = inflight s ++ [(length (proms s), r)]
        ∧ jobs s' = jobs s
        ∧ log (st_world s')
          = log w ++ fired k w o (o_dsp (get w o)) "before-request" [VReq r] ++ [EHttp r].
Proof.
  intros w Hc Hl Hr.
  destruct (cancel_rest o s) as (Ep & Ej & Ei).
  assert (evolves w (st_world (cancel o s))) as Hev.
  { rewrite cancel_world. apply evolves_upd. by intros []. }
  assert (o_dsp (get (st_world (cancel o s)) o) = o_dsp (get w o)) as Ed.
  { rewrite cancel_world, get_upd_eq. reflexivity. }
  eexists. split.
  - apply (send_first_quiet k).
    + by rewrite cancel_world, get_upd_eq.
    + rewrite cancel_canceled. intros H. apply elem_of_union in H as [H|H]; [done|].
      by apply elem_of_list_to_set in H.
    + rewrite Ed. by eapply ready_evolves.
  - cbn [inflight jobs st_world]. rewrite Ep, Ej, Ei, Ed.
    split_and!; try done.
    rewrite log_upd. unfold emits. cbn [log]. rewrite !log_upd.
    rewrite (fired_evolves k w _ o _ _ _ Hev). by rewrite cancel_world, log_upd.
Qed.

Lemma send_after_cancel_witness :
  inflight one_sent = [(0, 7)]
  ∧ ∃ s', send 10 0 8 None None (cancel 0 one_sent) = (Normal, s')
          ∧ inflight s' = [(0, 7); (2, 8)]
          ∧ issued (log (st_world s')) = [7; 8].
Proof.
  split; [vm_compute; reflexivity|].
  destruct (send_after_cancel 1 10 0 8 None None one_sent) as (s' & E & Hi & _ & Hl).
  - assert (canceled one_sent = ∅) as -> by (vm_compute; reflexivity).
    apply not_elem_of_empty.
  - assert (pending_of (st_world one_sent) 0 = [7]) as -> by (vm_compute; reflexivity).
    intros H%list_elem_of_singleton. discriminate.
  - split_and!.
    + unfold quiet_world. apply (bool_decide_unpack _). vm_compute. exact I.
    + vm_compute. reflexivity.
    + vm_compute. lia.
  - exists s'. split; [exact E|]. split.
    + rewrite Hi. vm_compute. reflexivity.
    + rewrite Hl. vm_compute. reflexivity.
Defined.

(** ** Leaving [$pending] *)

Lemma indexOf_spec r l :
  ((r ∉ l) ∧ indexOf l r = (-1)%Z)
  ∨ (r ∈ l ∧ (0 ≤ indexOf l r < Z.of_nat (length l))%Z
     ∧ take (Z.to_nat (indexOf l r)) l ++ drop (S (Z.to_nat (indexOf l r))) l
       = remove_first r l).
Proof.
  induction l as [|y l IH]; simpl.
  - left. split; [apply not_elem_of_nil | done].
  - destruct (decide (y = r)) as [->|Hne].
    + right. split_and!; [apply elem_of_cons; by left | lia | lia | done].
    + destruct IH as [[Hn ->]|(Hin & Hi & E)].
      * left. rewrite decide_True by done. split; [|done].
        apply not_elem_of_cons. split; [done | done].
      * right. rewrite decide_False by lia.
        split_and!; [apply elem_of_cons; by right | lia | lia |].
        replace (Z.to_nat (indexOf l r + 1)) with (S (Z.to_nat (indexOf l r))) by lia.
        simpl. by rewrite E.
Qed.

Lemma splice1_found l i :
  (0 ≤ i < Z.of_nat (length l))%Z →
  splice1 l i = take (Z.to_nat i) l ++ drop (S (Z.to_nat i)) l.
Proof.
  intros Hi. unfold splice1. rewrite decide_False by lia.
  by replace (Z.min i (Z.of_nat (length l))) with i by lia.
Qed.

Lemma splice1_last l : splice1 l (-1) = take (length l - 1) l.
Proof.
  unfold splice1. rewrite decide_True by lia.
  replace (Z.to_nat (Z.max (Z.of_nat (length l) + -1) 0)) with (length l - 1) by lia.
  rewrite (drop_ge l) by lia. apply app_nil_r.
Qed.

(** X13: the splice at the index of the configuration takes the first
    occurrence of the configuration out of [$pending] and keeps the
    others in their order; when none is left [$pending] is reset. *)
Theorem unpend_removes_first o r reset l w :
  o_pending (get w o) = Val l → r ∈ l →
  unpend o r reset w
  = (Normal, upd o (with_pending (if decide (length (remove_first r l) = 0)
                                  then reset else Val (remove_first r l))) w)
  ∧ S (length (remove_first r l)) = length l.
Proof.
  intros Hl Hr.
  destruct (indexOf_spec r l) as [[Hn _]|(_ & Hi & E)]; [done|].
  split.
  - unfold unpend. rewrite Hl. by rewrite splice1_found, E.
  - rewrite <- E. rewrite length_app, length_take, length_drop. lia.
Qed.

Lemma unpend_removes_first_witness :
  unpend 0 7 Null queued = (Normal, upd 0 (with_pending (Val [5; 9; 7])) queued).
Proof.
  apply (unpend_removes_first 0 7 Null [5; 7; 9; 7] queued).
  - vm_compute. reflexivity.
  - apply elem_of_cons. right. apply elem_of_cons. by left.
Defined.

(** X14: when the configuration is not in [$pending], [indexOf] answers
    -1 and the splice takes out the last configuration instead. *)
Theorem unpend_absent_removes_last o r reset l w :
  o_pending (get w o) = Val l → r ∉ l →
  unpend o r reset w
  = (Normal, upd o (with_pending (if decide (length (take (length l - 1) l) = 0)
                                  then reset else Val (take (length l - 1) l))) w).
Proof.
  intros Hl Hr.
  destruct (indexOf_spec r l) as [[_ E]|(Hin & _)]; [|done].
  unfold unpend. by rewrite Hl, E, splice1_last.
Qed.

Lemma unpend_absent_removes_last_witness :
  unpend 0 8 Null queued = (Normal, upd 0 (with_pending (Val [5; 7; 9])) queued).
Proof.
  apply (unpend_absent_removes_last 0 8 Null [5; 7; 9; 7] queued).
  - vm_compute. reflexivity.
  - intros H. repeat (apply elem_of_cons in H as [H|H]; [discriminate|]).
    by apply not_elem_of_nil in H.
Defined.

(** ** [$pending] as a flag *)

Lemma pending_only_tidy : pending_only tidy.
Proof. intros w w' H Hw x. rewrite H. apply Hw. Qed.

Lemma tidy_upd o f w :
  tidy w → o_pending (f (get w o)) ≠ Val [] → tidy (upd o f w).
Proof.
  intros Hw Hf x. destruct (decide (o = x)) as [->|Hne].
  - by rewrite get_upd_eq.
  - rewrite get_upd_ne by done. apply Hw.
Qed.

Lemma keeps_unpend o r reset : reset ≠ Val [] → keeps tidy (unpend o r reset).
Proof.
  intros Hre w x w'. unfold unpend.
  destruct (o_pending (get w o)) as [| |l]; intros [= <- <-] Hw; try done.
  apply tidy_upd; [done|]. simpl. case_decide as Hlen; [done|].
  intros [= E]. by rewrite E in Hlen.
Qed.

Lemma keeps_answered o (st : status) v :
  keeps tidy (λ w, (Normal, upd o (with_response v) (upd o (with_status (Some st)) w))).
Proof.
  intros w r w' [= <- <-]. apply pending_only_tidy. intros y.
  rewrite !pending_upd; [done | by intros [] ..].
Qed.

Lemma httpOk_tidy n c v s x s1 :
  httpOk n c v s = (x, s1) → tidy (st_world s) → tidy (st_world s1).
Proof.
  unfold httpOk. case_decide.
  - intros [= <- <-]. simpl. apply pending_only_tidy, pending_upd. by intros [].
  - destruct (lift _ s) as [r s0] eqn:E. intros Hx Hs.
    eapply lift_keeps in E; [| | exact Hs]; cycle 1.
    { apply keeps_decorate; [apply pending_only_tidy|]. repeat apply keeps_seq.
      - by apply keeps_unpend.
      - apply keeps_answered.
      - apply keeps_dispatch, pending_only_tidy.
      - apply keeps_opt_call, pending_only_tidy. }
    by destruct r; injection Hx as <- <-.
Qed.

Lemma httpErr_tidy n c v s x s1 :
  httpErr n c v s = (x, s1) → tidy (st_world s) → tidy (st_world s1).
Proof.
  unfold httpErr. case_decide.
  - intros [= <- <-]. simpl. apply pending_only_tidy, pending_upd. by intros [].
  - destruct (lift _ s) as [r s0] eqn:E. intros Hx Hs.
    eapply lift_keeps in E; [| | exact Hs]; cycle 1.
    { apply keeps_decorate; [apply pending_only_tidy|]. repeat apply keeps_seq.
      - by apply keeps_unpend.
      - apply keeps_answered.
      - apply keeps_dispatch, pending_only_tidy.
      - apply keeps_opt_call, pending_only_tidy. }
    by destruct r; injection Hx as <- <-.
Qed.

Lemma run_handler_tidy n h out s x s1 :
  run_handler n h out s = (x, s1) → tidy (st_world s) → tidy (st_world s1).
Proof.
  destruct h; simpl.
  - by intros [= <- <-].
  - apply performRequest_keeps, pending_only_tidy.
  - apply httpOk_tidy.
  - apply httpErr_tidy.
  - destruct (lift _ s) as [r s0] eqn:E. intros [= <- <-].
    eapply lift_keeps; [|exact E]. apply keeps_framed; [apply pending_only_tidy|].
    intros w. apply call_framed.
  - destruct (lift _ s) as [r s0] eqn:E. intros [= <- <-].
    eapply lift_keeps; [|exact E]. apply keeps_framed; [apply pending_only_tidy|].
    intros w. apply call_framed.
Qed.

Lemma st_world_resolve_with d x s : st_world (resolve_with d x s) = st_world s.
Proof. destruct x; simpl; by rewrite ?st_world_settle, ?st_world_subscribe. Qed.

Lemma st_world_then_ p f g s : st_world (then_ p f g s).2 = st_world s.
Proof. rewrite then_eq. simpl. by rewrite st_world_subscribe. Qed.

Lemma step_tidy n o i s r s' :
  step n o i s = (r, s') → tidy (st_world s) → tidy (st_world s').
Proof.
  destruct i as [q succ err| |f g|f| |t out]; simpl.
  - unfold send.
    set (c := Closure _ _ _ _ _).
    set (s1 := on_self o (with_pending _) s).
    intros H Hs.
    assert (tidy (st_world s1)) as H1.
    { unfold s1, on_self. simpl. apply tidy_upd; [done|]. simpl.
      intros [= E]. by destruct (app_cons_not_nil _ _ _ (eq_sym E)). }
    clearbody s1 c.
    destruct (o_promise (get (st_world s1) o)) as [| |p].
    3: { pose proof (st_world_then_ p (HPerform c) (HPerform c) s1) as Ew.
         destruct (then_ _ _ _ _) as [d s2]. injection H as <- <-. simpl in *.
         rewrite Ew. apply tidy_upd; [done|]. apply H1. }
    all: destruct (performRequest n c s1) as [x s2] eqn:Ex;
      pose proof (performRequest_keeps _ _ _ _ _ _ pending_only_tidy Ex H1) as H2;
      destruct x; injection H as <- <-; try done;
      simpl; apply tidy_upd; [done | apply H2].
  - intros [= <- <-] Hs. rewrite cancel_world. apply tidy_upd; [done | apply Hs].
  - unfold then'. destruct (o_promise (get (st_world s) o)) as [| |p];
      try (by intros [= <- <-]).
    pose proof (st_world_then_ p (user f) (user g) s) as Ew.
    destruct (then_ _ _ _ _) as [d s2]. intros [= <- <-] Hs. simpl in *.
    rewrite Ew. apply tidy_upd; [done | apply Hs].
  - unfold finally. destruct (o_promise (get (st_world s) o)) as [| |p];
      try (by intros [= <- <-]).
    pose proof (st_world_then_ p (HFinally f) (HFinally f) s) as Ew.
    destruct (then_ _ _ _ _) as [d s2]. intros [= <- <-] Hs. simpl in *.
    rewrite Ew. apply tidy_upd; [done | apply Hs].
  - unfold tick. destruct (jobs s) as [|[rx out] js]; [by intros [= <- <-]|].
    destruct (run_handler _ _ _ _) as [x s1] eqn:Ex. intros [= <- <-] Hs.
    rewrite st_world_resolve_with. by eapply run_handler_tidy in Ex.
  - intros [= <- <-]. unfold answer. case_decide; [|done].
    by rewrite st_world_settle.
Qed.

(** X15: [$pending] is never left as an empty array: along any run of
    the request API, whatever the callbacks do and whether or not
    operations are canceled, it is falsy or holds at least one
    configuration. *)
Theorem pending_never_empty n o ins : ∀ s s',
  tidy (st_world s) → run n o ins s = Some s' → tidy (st_world s').
Proof.
  induction ins as [|i ins IH]; intros s s' Hs; simpl.
  - by intros [= <-].
  - destruct (step n o i s) as [r s1] eqn:E.
    pose proof (step_tidy _ _ _ _ _ _ E Hs) as H1.
    destruct r; [by apply IH | by apply IH | done].
Qed.

Lemma tidy_lone : tidy lone.
Proof.
  intros x. unfold get. destruct (objs lone !! x) as [y|] eqn:E; [|done].
  unfold lone in E. cbn [objs] in E. apply lookup_singleton_Some in E as [_ <-]. done.
Qed.

Lemma pending_never_empty_witness :
  ∃ s', run 10 0 [ISend 7 None None; ISend 8 None None; IAnswer 0 (Fulfilled (VData 5));
                  ITick; ICancel] (init lone) = Some s'
        ∧ o_pending (get (st_world s') 0) = Val [8]
        ∧ tidy (st_world s').
Proof.
  eexists. split; [vm_compute; reflexivity|]. split; [vm_compute; reflexivity|].
  apply (pending_never_empty 10 0 [ISend 7 None None; ISend 8 None None;
                                   IAnswer 0 (Fulfilled (VData 5)); ITick; ICancel]
           (init lone)).
  - apply tidy_lone.
  - vm_compute. reflexivity.
Defined.

(** ** The queue of an object that is never canceled *)

(** X16: on an object that is never canceled, with callbacks that do
    not themselves call the request API (they read the object, dispatch,
    open decorated contexts or throw), a promise job and a transport
    call are never outstanding together, and never two of either; when
    neither is outstanding, the promise [$promise] holds is settled, so
    that nothing submitted is left waiting. *)
Theorem queue_drains n o w ins s' :
  truthy (o_promise (get w o)) = false → no_cancel ins →
  run n o ins (init w) = Some s' →
  length (jobs s') + length (inflight s') ≤ 1
  ∧ (jobs s' = [] → inflight s' = [] →
     ∀ p, o_promise (get (st_world s') o) = Val p →
          ∃ out, proms s' !! p = Some (Settled out)).
Proof.
  intros Hp Hnc Hrun.
  pose proof (inv_run n o _ ins [] (init w) s' (inv_init o w Hp) Hnc Hrun)
    as (q & dn & Hsh & _ & _).
  inversion Hsh as [Hj Hi Ht | t r rx tl ch Hj Hi _ _ Ht _ _ | rx out tl ch Hj Hi _ Ht _ _];
    rewrite Hj, Hi; simpl; (split; [lia|]); try done.
Qed.

Lemma queue_drains_witness :
  ∃ s', run 10 0 [ISend 7 None None; ISend 8 None None; IAnswer 0 (Rejected (VData 4));
                  ITick; ITick; ITick; IAnswer 4 (Fulfilled (VData 5)); ITick; ITick]
            (init lone) = Some s'
        ∧ jobs s' = [] ∧ inflight s' = []
        ∧ o_promise (get (st_world s') 0) = Val 2
        ∧ ∃ out, proms s' !! 2 = Some (Settled out).
Proof.
  eexists. split; [vm_compute; reflexivity|].
  split; [vm_compute; reflexivity|]. split; [vm_compute; reflexivity|].
  split; [vm_compute; reflexivity|].
  refine (proj2 (queue_drains 10 0 lone
                   [ISend 7 None None; ISend 8 None None; IAnswer 0 (Rejected (VData 4));
                    ITick; ITick; ITick; IAnswer 4 (Fulfilled (VData 5)); ITick; ITick]
                   _ eq_refl _ _) _ _ 2 _).
  - repeat constructor; discriminate.
  - vm_compute. reflexivity.
  - vm_compute. reflexivity.
  - vm_compute. reflexivity.
  - vm_compute. reflexivity.
Defined.

(** ** Callbacks on the chain *)

Lemma tick_user n f g d out js w cs ps fl :
  from_option quiet true (chosen f g out) = true → 2 ≤ n →
  tick n (State w cs ps ((Reaction (user f) (user g) d, out) :: js) fl)
  = (Normal, settle d (derived (chosen f g out) out)
               (State (emits (noted (chosen f g out) [payload out]) w) cs ps js fl)).
Proof.
  intros Hq Hn. unfold tick. cbn [jobs st_world canceled proms inflight target].
  assert (pick (Reaction (user f) (user g) d) out = user (chosen f g out)) as ->
    by by destruct out.
  destruct (chosen f g out) as [c|]; simpl in *.
  - unfold lift. cbn [st_world]. rewrite call_quiet by done. done.
  - rewrite emits_nil. by destruct out.
Qed.

Lemma tick_finally n c d out js w cs ps fl :
  quiet c = true → 2 ≤ n →
  tick n (State w cs ps ((Reaction (HFinally c) (HFinally c) d, out) :: js) fl)
  = (Normal, settle d out (State (emits [ECall (cb_name c) None []] w) cs ps js fl)).
Proof.
  intros Hq Hn. unfold tick. cbn [jobs st_world canceled proms inflight target].
  assert (pick (Reaction (HFinally c) (HFinally c) d) out = HFinally c) as ->
    by by destruct out.
  simpl. unfold lift. cbn [st_world]. rewrite call_quiet by done. by destruct out.
Qed.

Lemma attach_settled p R out w cs ps fl :
  ps !! p = Some (Settled out) →
  subscribe p R (alloc (Pending []) (State w cs ps [] fl)).2
  = State w cs (ps ++ [Pending []]) [(R, out)] fl.
Proof.
  intros Hp. unfold subscribe, alloc. simpl.
  by rewrite lookup_app_l, Hp by (by eapply lookup_lt_Some).
Qed.

Lemma settle_fresh w cs ps js fl x :
  settle (length ps) x (State w cs (ps ++ [Pending []]) js fl)
  = State w cs (ps ++ [Settled x]) js fl.
Proof.
  erewrite settle_eq; cycle 1.
  { simpl. rewrite lookup_app_r by done. by rewrite Nat.sub_diag. }
  simpl. rewrite app_nil_r. f_equal.
  rewrite insert_app_r_alt by done. by rewrite Nat.sub_diag.
Qed.

(** X17: a [$then] on a chain that is already settled runs its callback
    in the next promise job, with the outcome of the chain as argument
    and without [this]; the callback that applies is the first for a
    fulfilled and the second for a rejected chain.  Once the callback has
    returned, the new chain is fulfilled with [undefined], after a
    rejection too; without a callback for the outcome, the outcome
    passes to the new chain. *)
Theorem then_after_settled n o f g s p out :
  o_promise (get (st_world s) o) = Val p →
  proms s !! p = Some (Settled out) → jobs s = [] →
  from_option quiet true (chosen f g out) = true → 2 ≤ n →
  ∃ s1 s2,
    then' o f g s = (Normal, s1)
    ∧ log (st_world s1) = log (st_world s)
    ∧ tick n s1 = (Normal, s2)
    ∧ log (st_world s2) = log (st_world s) ++ noted (chosen f g out) [payload out]
    ∧ o_promise (get (st_world s2) o) = Val (length (proms s))
    ∧ proms s2 !! length (proms s) = Some (Settled (derived (chosen f g out) out))
    ∧ jobs s2 = [].
Proof.
  intros Hp Hps Hj Hq Hn. destruct s as [w cs ps js fl]. simpl in *. subst js.
  unfold then'. cbn [st_world]. rewrite Hp, then_eq.
  rewrite (attach_settled _ _ _ _ _ _ _ Hps). unfold on_self, with_world.
  cbn [st_world canceled proms jobs inflight].
  eexists. eexists. split; [reflexivity|]. split; [reflexivity|].
  rewrite tick_user by done. rewrite settle_fresh.
  split; [reflexivity|]. cbn [st_world proms jobs].
  split_and!.
  - by rewrite log_emits, log_upd.
  - by rewrite get_emits, get_upd_eq.
  - rewrite lookup_app_r by done. by rewrite Nat.sub_diag.
  - done.
Qed.

Lemma then_after_settled_witness :
  proms failed !! 1 = Some (Settled (Rejected (VObj 0)))
  ∧ ∃ s1 s2,
      then' 0 None (Some (Callback 3 [])) failed = (Normal, s1)
      ∧ tick 10 s1 = (Normal, s2)
      ∧ log (st_world s2) = log (st_world failed) ++ [ECall 3 None [VObj 0]]
      ∧ o_promise (get (st_world s2) 0) = Val 3
      ∧ proms s2 !! 3 = Some (Settled (Fulfilled VUndef)).
Proof.
  split; [vm_compute; reflexivity|].
  destruct (then_after_settled 10 0 None (Some (Callback 3 [])) failed 1
              (Rejected (VObj 0)))
    as (s1 & s2 & E1 & _ & E2 & Hl & Hp & Hs & _).
  - vm_compute. reflexivity.
  - vm_compute. reflexivity.
  - vm_compute. reflexivity.
  - reflexivity.
  - lia.
  - exists s1, s2. split_and!; [exact E1 | exact E2 | exact Hl | exact Hp | exact Hs].
Defined.

(** X18: a [$finally] on a settled chain runs its callback in the next
    promise job, without arguments, and the outcome of the chain passes
    to the new chain once the callback has returned. *)
Theorem finally_after_settled n o c s p out :
  o_promise (get (st_world s) o) = Val p →
  proms s !! p = Some (Settled out) → jobs s = [] →
  quiet c = true → 2 ≤ n →
  ∃ s1 s2,
    finally o c s = (Normal, s1)
    ∧ log (st_world s1) = log (st_world s)
    ∧ tick n s1 = (Normal, s2)
    ∧ log (st_world s2) = log (st_world s) ++ [ECall (cb_name c) None []]
    ∧ o_promise (get (st_world s2) o) = Val (length (proms s))
    ∧ proms s2 !! length (proms s) = Some (Settled out)
    ∧ jobs s2 = [].
Proof.
  intros Hp Hps Hj Hq Hn. destruct s as [w cs ps js fl]. simpl in *. subst js.
  unfold finally. cbn [st_world]. rewrite Hp, then_eq.
  rewrite (attach_settled _ _ _ _ _ _ _ Hps). unfold on_self, with_world.
  cbn [st_world canceled proms jobs inflight].
  eexists. eexists. split; [reflexivity|]. split; [reflexivity|].
  rewrite tick_finally by done. rewrite settle_fresh.
  split; [reflexivity|]. cbn [st_world proms jobs].
  split_and!.
  - by rewrite log_emits, log_upd.
  - by rewrite get_emits, get_upd_eq.
  - rewrite lookup_app_r by done. by rewrite Nat.sub_diag.
  - done.
Qed.

Lemma finally_after_settled_witness :
  ∃ s1 s2,
    finally 0 (Callback 3 []) failed = (Normal, s1)
    ∧ tick 10 s1 = (Normal, s2)
    ∧ log (st_world s2) = log (st_world failed) ++ [ECall 3 None []]
    ∧ proms s2 !! 3 = Some (Settled (Rejected (VObj 0))).
Proof.
  destruct (finally_after_settled 10 0 (Callback 3 []) failed 1 (Rejected (VObj 0)))
    as (s1 & s2 & E1 & _ & E2 & Hl & _ & Hs & _).
  - vm_compute. reflexivity.
  - vm_compute. reflexivity.
  - vm_compute. reflexivity.
  - reflexivity.
  - lia.
  - exists s1, s2. split_and!; [exact E1 | exact E2 | exact Hl | exact Hs].
Defined.

(** X19: on an object whose chain is settled, with whatever outcome,
    [$send] still defers the request: it only queues [performRequest] as
    a promise job, and the [before-request] hook and the transport call
    happen when that job runs. *)
Theorem send_on_settled_chain k n o r succ err s p out :
  let w := st_world s in
  let c := Closure o r (o_dsp (get w o)) succ err in
  o_promise (get w o) = Val p → proms s !! p = Some (Settled out) → jobs s = [] →
  r ∉ canceled s → ready k n w o (o_dsp (get w o)) "before-request" →
  ∃ s1 s2,
    send n o r succ err s = (Normal, s1)
    ∧ log (st_world s1) = log w
    ∧ inflight s1 = inflight s
    ∧ jobs s1 = [(Reaction (HPerform c) (HPerform c) (length (proms s)), out)]
    ∧ tick n s1 = (Normal, s2)
    ∧ log (st_world s2)
      = log w ++ fired k w o (o_dsp (get w o)) "before-request" [VReq r] ++ [EHttp r]
    ∧ inflight s2 = inflight s ++ [(S (length (proms s)), r)]
    ∧ jobs s2 = [].
Proof.
  intros w c Hp Hps Hj Hc Hr. subst w. destruct s as [w cs ps js fl]. simpl in *. subst js.
  unfold send, dispatcher, on_self, with_world.
  cbn [st_world canceled proms jobs inflight]. fold c.
  change (match o_pending (get w o) with Val l => l | _ => [] end) with (pending_of w o).
  rewrite get_upd_eq. cbn [o_promise with_pending]. rewrite Hp, then_eq.
  cbn [st_world canceled proms jobs inflight].
  rewrite (attach_settled _ _ _ _ _ _ _ Hps).
  cbn [st_world canceled proms jobs inflight].
  eexists. eexists. split; [reflexivity|]. split; [reflexivity|].
  split; [done|]. split; [done|].
  rewrite (tick_perform_quiet k n c); cycle 1.
  { done. }
  { eapply ready_evolves; [|exact Hr]. solve_evolves. }
  split; [reflexivity|]. cbn [st_world inflight jobs c_self c_req c_dsp].
  split_and!; [| by rewrite length_app, Nat.add_1_r | done].
  rewrite log_emits, !log_upd. f_equal. f_equal.
  apply fired_evolves. solve_evolves.
Qed.

Lemma send_on_settled_chain_witness :
  inflight failed = []
  ∧ ∃ s1 s2,
      send 10 0 8 None None failed = (Normal, s1)
      ∧ log (st_world s1) = log (st_world failed)
      ∧ inflight s1 = []
      ∧ tick 10 s1 = (Normal, s2)
      ∧ inflight s2 = [(4, 8)].
Proof.
  split; [vm_compute; reflexivity|].
  destruct (send_on_settled_chain 1 10 0 8 None None failed 1 (Rejected (VObj 0)))
    as (s1 & s2 & E1 & Hl & Hi & _ & E2 & _ & Hi2 & _).
  - vm_compute. reflexivity.
  - vm_compute. reflexivity.
  - vm_compute. reflexivity.
  - assert (canceled failed = ∅) as -> by (vm_compute; reflexivity).
    apply not_elem_of_empty.
  - split_and!.
    + unfold quiet_world. apply (bool_decide_unpack _). vm_compute. exact I.
    + vm_compute. reflexivity.
    + vm_compute. lia.
  - exists s1, s2. split_and!; [exact E1 | exact Hl | exact Hi | exact E2 | exact Hi2].
Defined.

(** ** One request from submission to answer *)

Section Lone.
Local Arguments fired : simpl never.
Local Arguments called : simpl never.
Local Arguments upd : simpl never.
Local Arguments emits : simpl never.
Local Arguments get : simpl never.

Lemma unpended_single r reset : unpended [r] r reset = reset.
Proof. unfold unpended. cbn [indexOf]. destruct (decide (r = r)); [reflexivity | done]. Qed.

Lemma first_send k n w o r succ err :
  quiet_world w → chain_ok k w o = true → cost k w o "before-request" ≤ n →
  truthy (o_promise (get w o)) = false →
  step n o (ISend r succ err) (init w)
  = (Normal,
     State (upd o (with_promise (Val 1))
              (emits (fired k w o (o_dsp (get w o)) "before-request" [VReq r] ++ [EHttp r])
                 (upd o started (upd o (with_pending (Val (pending_of w o ++ [r]))) w))))
           ∅
           [Pending [Reaction (HHttpOk (Closure o r (o_dsp (get w o)) succ err))
                              (HHttpErr (Closure o r (o_dsp (get w o)) succ err)) 1];
            Pending []]
           [] [(0, r)]).
Proof.
  intros Hq Hok Hn Hp. cbn [step].
  rewrite (send_first_quiet k); [done | done | apply not_elem_of_empty | by apply ready_same].
Qed.

(** X20: one request on an object that has none pending.  When the
    transport resolves, the object holds status ok and the payload, the
    [after-request] hook and the success callback have run, [$promise]
    is fulfilled with the object and [$pending] is [undefined] again.
    When the transport rejects, the object holds status error and the
    payload, the [after-request-error] hook and the error callback have
    run, [$promise] is rejected with the object and [$pending] is
    [null]. *)
Theorem lone_request k n w o r succ err v :
  let d := o_dsp (get w o) in
  quiet_world w → chain_ok k w o = true →
  cost k w o "before-request" ≤ n → cost k w o "after-request" ≤ n →
  cost k w o "after-request-error" ≤ n →
  from_option quiet true succ = true → from_option quiet true err = true →
  truthy (o_promise (get w o)) = false → truthy (o_pending (get w o)) = false →
  (∃ s1, run n o [ISend r succ err; IAnswer 0 (Fulfilled v); ITick] (init w) = Some s1
         ∧ o_status (get (st_world s1) o) = Some StOk
         ∧ o_response (get (st_world s1) o) = v
         ∧ o_pending (get (st_world s1) o) = Undefined
         ∧ o_promise (get (st_world s1) o) = Val 1
         ∧ proms s1 !! 1 = Some (Settled (Fulfilled (VObj o)))
         ∧ jobs s1 = [] ∧ inflight s1 = []
         ∧ log (st_world s1)
           = log w ++ (fired k w o d "before-request" [VReq r] ++ [EHttp r])
             ++ fired k w o d "after-request" [v] ++ called succ o [v])
  ∧ (∃ s2, run n o [ISend r succ err; IAnswer 0 (Rejected v); ITick; ITick] (init w)
           = Some s2
           ∧ o_status (get (st_world s2) o) = Some StError
           ∧ o_response (get (st_world s2) o) = v
           ∧ o_pending (get (st_world s2) o) = Null
           ∧ o_promise (get (st_world s2) o) = Val 1
           ∧ proms s2 !! 1 = Some (Settled (Rejected (VObj o)))
           ∧ jobs s2 = [] ∧ inflight s2 = []
           ∧ log (st_world s2)
             = log w ++ (fired k w o d "before-request" [VReq r] ++ [EHttp r])
               ++ fired k w o d "after-request-error" [v] ++ called err o [v]).
Proof.
  intros d Hq Hok Hbr Har Hae Hs He Hp Hpe.
  assert (pending_of w o = []) as Hl.
  { unfold pending_of. by destruct (o_pending (get w o)). }
  pose proof (first_send k n w o r succ err Hq Hok Hbr Hp) as Hsend.
  rewrite Hl in Hsend. cbn [app] in Hsend. fold d in Hsend.
  set (c := Closure o r d succ err) in *.
  set (W := upd o (with_promise (Val 1))
              (emits (fired k w o d "before-request" [VReq r] ++ [EHttp r])
                 (upd o started (upd o (with_pending (Val [r])) w)))) in *.
  assert (evolves w W) as Hev by (unfold W; solve_evolves).
  assert (o_pending (get W o) = Val [r]) as HpW by (unfold W; by norm_get).
  assert (∀ h, cost k w o h ≤ n → ready k n W (c_self c) (c_dsp c) h) as Hready.
  { intros h Hh. eapply ready_evolves; [exact Hev|]. by apply ready_same. }
  assert (∀ h args, fired k W o d h args = fired k w o d h args) as Hf.
  { intros h args. by apply fired_evolves. }
  split.
  - cbn [run]. rewrite Hsend. cbn [step].
    rewrite (answer_eq 0 _ [Reaction (HHttpOk c) (HHttpErr c) 1]);
      [| by left | done].
    rewrite filter_cons_False by (simpl; intros H; by apply H). rewrite filter_nil.
    cbn [map list_insert insert].
    rewrite (tick_httpOk_quiet k n c 1 v [r]);
      [| apply not_elem_of_empty | done | by apply Hready | done].
    erewrite settle_eq by reflexivity.
    eexists. split; [reflexivity|].
    cbn [st_world proms jobs inflight c_self c_req c_dsp c_succ app map].
    rewrite Hf. unfold W.
    split_and!; try done; try (by norm_get).
    + norm_get. apply unpended_single.
    + repeat (rewrite log_emits || rewrite log_upd). by rewrite <- !app_assoc.
  - cbn [run]. rewrite Hsend. cbn [step].
    rewrite (answer_eq 0 _ [Reaction (HHttpOk c) (HHttpErr c) 1]);
      [| by left | done].
    rewrite filter_cons_False by (simpl; intros H; by apply H). rewrite filter_nil.
    cbn [map list_insert insert].
    rewrite (tick_httpErr_quiet k n c 1 v [r]);
      [| apply not_elem_of_empty | done | by apply Hready | done].
    cbn [app]. rewrite tick_pass. erewrite settle_eq by reflexivity.
    eexists. split; [reflexivity|].
    cbn [st_world proms jobs inflight c_self c_req c_dsp c_err app map].
    rewrite Hf. unfold W.
    split_and!; try done; try (by norm_get).
    + norm_get. apply unpended_single.
    + repeat (rewrite log_emits || rewrite log_upd). by rewrite <- !app_assoc.
Qed.
End Lone.

Lemma lone_request_witness :
  ∃ s1 s2,
    run 10 0 [ISend 7 None None; IAnswer 0 (Fulfilled (VData 5)); ITick] (init erring)
    = Some s1
    ∧ o_pending (get (st_world s1) 0) = Undefined
    ∧ proms s1 !! 1 = Some (Settled (Fulfilled (VObj 0)))
    ∧ log (st_world s1) = [EHttp 7]
    ∧ run 10 0 [ISend 7 None None; IAnswer 0 (Rejected (VData 4)); ITick; ITick]
          (init erring) = Some s2
    ∧ o_pending (get (st_world s2) 0) = Null
    ∧ proms s2 !! 1 = Some (Settled (Rejected (VObj 0)))
    ∧ log (st_world s2) = [EHttp 7; ECall 1 (Some 0) [VData 4]].
Proof.
  destruct (lone_request 1 10 erring 0 7 None None (VData 4)) as [_ H2];
    [ unfold quiet_world; apply (bool_decide_unpack _); vm_compute; exact I
    | vm_compute; reflexivity | vm_compute; lia | vm_compute; lia | vm_compute; lia
    | reflexivity | reflexivity | vm_compute; reflexivity | vm_compute; reflexivity |].
  destruct (lone_request 1 10 erring 0 7 None None (VData 5)) as [H1 _];
    [ unfold quiet_world; apply (bool_decide_unpack _); vm_compute; exact I
    | vm_compute; reflexivity | vm_compute; lia | vm_compute; lia | vm_compute; lia
    | reflexivity | reflexivity | vm_compute; reflexivity | vm_compute; reflexivity |].
  destruct H1 as (s1 & E1 & _ & _ & P1 & _ & Q1 & _ & _ & L1).
  destruct H2 as (s2 & E2 & _ & _ & P2 & _ & Q2 & _ & _ & L2).
  exists s1, s2.
  split_and!; [exact E1 | exact P1 | exact Q1 | | exact E2 | exact P2 | exact Q2 |].
  - rewrite L1. vm_compute. reflexivity.
  - rewrite L2. vm_compute. reflexivity.
Defined.

(** ** The answer of the transport *)

(** X21: when the transport resolves the call of an operation behind
    which another one is waiting, the job of the answer sets status ok
    and the payload, takes the configuration out of [$pending], runs the
    [after-request] hook and the success callback, and fulfils the
    promise of the operation with the object; the next job starts the
    waiting operation. *)
Theorem transport_success_resumes k n s t d d' cA cB v l :
  let o := c_self cA in
  let W := st_world s in
  ready k n W o (c_dsp cA) "after-request" →
  ready k n W o (c_dsp cB) "before-request" →
  c_self cB = o → from_option quiet true (c_succ cA) = true →
  c_req cA ∉ canceled s → c_req cB ∉ canceled s →
  jobs s = [] → t ∈ (inflight s).*1 →
  proms s !! t = Some (Pending [Reaction (HHttpOk cA) (HHttpErr cA) d]) →
  proms s !! d = Some (Pending [Reaction (HPerform cB) (HPerform cB) d']) →
  o_pending (get W o) = Val l →
  ∃ s1 s2,
    run n o [IAnswer t (Fulfilled v); ITick] s = Some s1
    ∧ o_status (get (st_world s1) o) = Some StOk
    ∧ o_response (get (st_world s1) o) = v
    ∧ o_pending (get (st_world s1) o) = unpended l (c_req cA) Undefined
    ∧ log (st_world s1)
      = log W ++ fired k W o (c_dsp cA) "after-request" [v]
        ++ called (c_succ cA) o [v]
    ∧ proms s1 !! d = Some (Settled (Fulfilled (VObj o)))
    ∧ run n o [ITick] s1 = Some s2
    ∧ log (st_world s2)
      = log (st_world s1) ++ fired k W o (c_dsp cB) "before-request" [VReq (c_req cB)]
        ++ [EHttp (c_req cB)]
    ∧ jobs s2 = []
    ∧ inflight s2
      = filter (λ x, x.1 ≠ t) (inflight s) ++ [(length (proms s), c_req cB)].
Proof. apply after_fulfilment. Qed.

Lemma transport_success_resumes_witness :
  ∃ s1 s2,
    run 10 0 [IAnswer 0 (Fulfilled (VData 5)); ITick] two_queued = Some s1
    ∧ o_status (get (st_world s1) 0) = Some StOk
    ∧ o_response (get (st_world s1) 0) = VData 5
    ∧ o_pending (get (st_world s1) 0) = Val [8]
    ∧ proms s1 !! 1 = Some (Settled (Fulfilled (VObj 0)))
    ∧ run 10 0 [ITick] s1 = Some s2
    ∧ log (st_world s2) = log (st_world s1) ++ [EHttp 8]
    ∧ inflight s2 = [(3, 8)].
Proof.
  assert (canceled two_queued = ∅) as Hc by (vm_compute; reflexivity).
  destruct (transport_success_resumes 1 10 two_queued 0 1 2
              (Closure 0 7 None None (Some (Callback 2 [])))
              (Closure 0 8 None None None) (VData 5) [7; 8])
    as (s1 & s2 & E1 & Hs & Hr & Hp & _ & Hd & E2 & Hl2 & _ & Hi2).
  - split_and!.
    + unfold quiet_world. apply (bool_decide_unpack _). vm_compute. exact I.
    + vm_compute. reflexivity.
    + vm_compute. lia.
  - split_and!.
    + unfold quiet_world. apply (bool_decide_unpack _). vm_compute. exact I.
    + vm_compute. reflexivity.
    + vm_compute. lia.
  - reflexivity.
  - reflexivity.
  - rewrite Hc. apply not_elem_of_empty.
  - rewrite Hc. apply not_elem_of_empty.
  - vm_compute. reflexivity.
  - vm_compute. by left.
  - vm_compute. reflexivity.
  - vm_compute. reflexivity.
  - vm_compute. reflexivity.
  - exists s1, s2.
    split_and!; [exact E1 | exact Hs | exact Hr | | exact Hd | exact E2 | |].
    + etrans; [exact Hp|]. vm_compute. reflexivity.
    + etrans; [exact Hl2|]. vm_compute. reflexivity.
    + etrans; [exact Hi2|]. vm_compute. reflexivity.
Defined.




(** ** What reaches the transport *)






(** X24: whatever else happens at submission (the request starts, is
    queued, is found canceled, or a hook throws), [$send] appends the
    configuration to [$pending], starting from an empty list when
    [$pending] was falsy, and touches the [$pending] of no other
    object. *)
Theorem send_joins_pending n o r succ err s x s' :
  send n o r succ err s = (x, s') →
  o_pending (get (st_world s') o) = Val (pending_of (st_world s) o ++ [r])
  ∧ ∀ y, y ≠ o → o_pending (get (st_world s') y) = o_pending (get (st_world s) y).
Proof.
  unfold send.
  change (match o_pending (get (st_world s) o) with Val l => l | _ => [] end)
    with (pending_of (st_world s) o).
  set (c := Closure _ _ _ _ _).
  set (s1 := on_self o (with_pending (Val (pending_of (st_world s) o ++ [r]))) s).
  assert (o_pending (get (st_world s1) o) = Val (pending_of (st_world s) o ++ [r])
          ∧ ∀ y, y ≠ o → o_pending (get (st_world s1) y) = o_pending (get (st_world s) y))
    as H1.
  { unfold s1, on_self. simpl. rewrite get_upd_eq. split; [done|].
    intros y Hy. by rewrite get_upd_ne. }
  clearbody s1 c. intros H.
  assert (∀ y, o_pending (get (st_world s') y) = o_pending (get (st_world s1) y)) as Hs.
  { intros y. destruct (o_promise (get (st_world s1) o)) as [| |p].
    3: { pose proof (st_world_then_ p (HPerform c) (HPerform c) s1) as Ew.
         destruct (then_ _ _ _ _) as [d s2]. injection H as <- <-. simpl in *.
         rewrite Ew. apply pending_upd. by intros []. }
    all: destruct (performRequest n c s1) as [x' s2] eqn:Ex;
      pose proof (performRequest_keeps _ _ _ _ _ _ (pending_only_same (st_world s1)) Ex
                    (λ y, eq_refl) y) as Hk;
      destruct x'; injection H as <- <-; try done;
      simpl; by rewrite pending_upd by (by intros []). }
  destruct H1 as [Ho Hy]. split; [by rewrite Hs|]. intros y Hne. rewrite Hs. by apply Hy.
Qed.

Lemma send_joins_pending_witness :
  o_pending (get (st_world one_sent) 0) = Val [7]
  ∧ o_pending (get (st_world (send 10 0 8 None None one_sent).2) 0) = Val [7; 8].
Proof.
  split; [vm_compute; reflexivity|].
  apply (send_joins_pending 10 0 8 None None one_sent
           (send 10 0 8 None None one_sent).1 (send 10 0 8 None None one_sent).2).
  apply surjective_pairing.
Defined.
